(** * Lineage inference and layout engine of chview, shallowly embedded.

    Modules:
    - [Parser]   : chview/lineage/parser.py (regex-based table-reference parser)
    - [Graph]    : chview/lineage/graph.py  (build_lineage)
    - [Layout]   : chview/lineage/layout.py (calculate_positions, get_connected_subgraph)
    - [Renderer] : chview/lineage/renderer.py (the flow state of render_lineage_graph)

    Conventions of the embedding.
    - Python [str] values are Rocq [string]s (ASCII); the regular expressions of
      parser.py are written out as hand-written matchers for the ASCII
      character classes of Python's [re] ([\s], [\w], IGNORECASE).
    - A Python [dict] whose iteration order matters (LineageGraph.nodes) is an
      association list updated in place; dicts used only for lookups are
      stdpp [gmap]s; sets are [gset]s.
    - Coordinates are rationals [Q]: every coordinate the layout produces is an
      integer or a half-integer, so the doubles of the source hold them exactly.
    - Loops whose termination the source does not make structural
      ([while queue]) take an explicit fuel argument and return [None] when
      it runs out. The fuel of the recursive [get_level] is Python's
      recursion limit: running out of it is Python's [RecursionError].
      Lookups that raise [KeyError] in Python also return [None]. *)

From stdpp Require Import base list gmap strings sorting.
From Stdlib Require Import Ascii String QArith Qminmax Lqa.

Open Scope list_scope.
Close Scope Q_scope.

(** ** Helpers shared by all modules *)

(** Python's [list.sort(key=...)] is stable: a stable insertion sort, where
    [le x y] means "x may stay before y". *)
Fixpoint insert_by {A} (le : A -> A -> bool) (x : A) (l : list A) : list A :=
  match l with
  | [] => [x]
  | y :: l' => if le x y then x :: y :: l' else y :: insert_by le x l'
  end.

Definition stable_sort {A} (le : A -> A -> bool) (l : list A) : list A :=
  fold_right (insert_by le) [] l.

(** [sorted(...)] on strings: code-point (here byte) order. *)
Definition sort_strings (l : list string) : list string :=
  stable_sort String.leb l.

Module Parser.

(** *** Character classes of Python's [re] on ASCII text *)

Definition is_alpha (c : ascii) : bool :=
  let n := nat_of_ascii c in (Nat.leb 65 n && Nat.leb n 90) || (Nat.leb 97 n && Nat.leb n 122).

Definition is_digit (c : ascii) : bool :=
  let n := nat_of_ascii c in Nat.leb 48 n && Nat.leb n 57.

(** [\w] *)
Definition is_word (c : ascii) : bool := is_alpha c || is_digit c || Ascii.eqb c "_".

(** [\s] and [str.isspace]: [\t\n\x0b\x0c\r], [\x1c]-[\x1f] and space. *)
Definition is_space (c : ascii) : bool :=
  let n := nat_of_ascii c in
  (Nat.leb 9 n && Nat.leb n 13) || (Nat.leb 28 n && Nat.leb n 32).

Definition is_backtick (c : ascii) : bool := Ascii.eqb c "`".

Definition to_upper (c : ascii) : ascii :=
  let n := nat_of_ascii c in
  if Nat.leb 97 n && Nat.leb n 122 then ascii_of_nat (n - 32) else c.

(** [\b] just before a word character: the previous character is not a word
    character (or there is none). *)
Definition boundary_before (prev : option ascii) : bool :=
  match prev with None => true | Some c => negb (is_word c) end.

(** [\b] just after a word character. *)
Definition boundary_after (rest : string) : bool :=
  match rest with EmptyString => true | String c _ => negb (is_word c) end.

(** *** Matchers: each returns the rest of the input after the match *)

(** a literal keyword (upper case) under [re.IGNORECASE] *)
Fixpoint ci_prefix (kw s : string) : option string :=
  match kw, s with
  | EmptyString, _ => Some s
  | String k kw', String c s' => if Ascii.eqb (to_upper c) k then ci_prefix kw' s' else None
  | _, _ => None
  end.

Fixpoint skip_space (s : string) : string :=
  match s with
  | String c s' => if is_space c then skip_space s' else s
  | EmptyString => s
  end.

(** [\s+] (greedy; what follows never starts with a space, so no backtracking) *)
Definition space1 (s : string) : option string :=
  match s with
  | String c s' => if is_space c then Some (skip_space s') else None
  | EmptyString => None
  end.

(** [\w*] : (matched, rest) *)
Fixpoint word_star (s : string) : string * string :=
  match s with
  | String c s' => if is_word c then let '(w, r) := word_star s' in (String c w, r) else (EmptyString, s)
  | EmptyString => (EmptyString, EmptyString)
  end.

(** [[^`]*] : (matched, rest) *)
Fixpoint non_backtick_star (s : string) : string * string :=
  match s with
  | String c s' => if is_backtick c then (EmptyString, s)
                   else let '(w, r) := non_backtick_star s' in (String c w, r)
  | EmptyString => (EmptyString, EmptyString)
  end.

(** [`[^`]+`|[a-zA-Z_]\w*] : (matched, rest) *)
Definition ident (s : string) : option (string * string) :=
  match s with
  | String c s' =>
      if is_backtick c then
        match non_backtick_star s' with
        | (String b body, String e r) => Some (String c (String b body +:+ String e EmptyString), r)
        | _ => None
        end
      else if is_alpha c || Ascii.eqb c "_" then
        let '(w, r) := word_star s' in Some (String c w, r)
      else None
  | EmptyString => None
  end.

(** [table_pattern] = [ident(?:\.ident)?] : (matched, rest) *)
Definition table_ref (s : string) : option (string * string) :=
  match ident s with
  | None => None
  | Some (a, r) =>
      match r with
      | String d r' =>
          if Ascii.eqb d "." then
            match ident r' with
            | Some (b, r'') => Some (a +:+ String d b, r'')
            | None => Some (a, r)
            end
          else Some (a, r)
      | EmptyString => Some (a, r)
      end
  end.

(** [\bKW\s+(table_pattern)] tried at the current position *)
Definition kw_ref_at (kw : string) (prev : option ascii) (s : string) : option (string * string) :=
  if boundary_before prev then
    match ci_prefix kw s with
    | Some r1 => match space1 r1 with Some r2 => table_ref r2 | None => None end
    | None => None
    end
  else None.

Fixpoint last_char (s : string) : option ascii :=
  match s with
  | EmptyString => None
  | String c EmptyString => Some c
  | String _ s' => last_char s'
  end.

(** [re.finditer]: scan left to right; after a match resume at its end, where
    the character before is the last character of the match (the group ends
    the match). Every iteration consumes at least one character. *)
Fixpoint scan_refs (fuel : nat) (kw : string) (prev : option ascii) (s : string) : list string :=
  match fuel with
  | O => []
  | S f =>
      match s with
      | EmptyString => []
      | String c s' =>
          match kw_ref_at kw prev s with
          | Some (ref, rest) => ref :: scan_refs f kw (last_char ref) rest
          | None => scan_refs f kw (Some c) s'
          end
      end
  end.

Definition find_refs (kw s : string) : list string :=
  scan_refs (S (String.length s)) kw None s.

(** [\bAS\s+SELECT\b] tried at the current position *)
Definition as_select_at (prev : option ascii) (s : string) : bool :=
  boundary_before prev &&
  match ci_prefix "AS" s with
  | Some r1 =>
      match space1 r1 with
      | Some r2 => match ci_prefix "SELECT" r2 with Some r3 => boundary_after r3 | None => false end
      | None => false
      end
  | None => false
  end.

(** [re.search(r"\bAS\s+SELECT\b", q, re.IGNORECASE | re.DOTALL)]; returns
    [create_query[match.start():]]. *)
Fixpoint search_as_select (prev : option ascii) (s : string) : option string :=
  if as_select_at prev s then Some s
  else match s with
       | EmptyString => None
       | String c s' => search_as_select (Some c) s'
       end.

(** *** _qualify_table_name *)

Fixpoint remove_backticks (s : string) : string :=
  match s with
  | EmptyString => EmptyString
  | String c s' => if is_backtick c then remove_backticks s' else String c (remove_backticks s')
  end.

Fixpoint lstrip (s : string) : string :=
  match s with
  | String c s' => if is_space c then lstrip s' else s
  | EmptyString => s
  end.

Definition strip (s : string) : string :=
  string_of_list_ascii (rev (list_ascii_of_string (lstrip
    (string_of_list_ascii (rev (list_ascii_of_string (lstrip s))))))).

Fixpoint has_dot (s : string) : bool :=
  match s with
  | EmptyString => false
  | String c s' => Ascii.eqb c "." || has_dot s'
  end.

Definition _qualify_table_name (table_ref : string) (default_database : string) : string :=
  let t := strip (remove_backticks table_ref) in
  if has_dot t then t else default_database +:+ "." +:+ t.

(** Python [set.add] on a set kept as its list of distinct elements. *)
Definition set_add (acc : list string) (x : string) : list string :=
  if decide (x ∈ acc) then acc else acc ++ [x].

(** the qualified FROM and JOIN references of the select part, in the order
    the two [finditer] loops add them to [sources] *)
Definition select_refs (select_part mv_database : string) : list string :=
  map (fun r => _qualify_table_name r mv_database) (find_refs "FROM" select_part) ++
  map (fun r => _qualify_table_name r mv_database) (find_refs "JOIN" select_part).

Definition parse_source_tables (create_query mv_database : string) : list string :=
  match search_as_select None create_query with
  | None => []
  | Some select_part =>
      sort_strings (fold_left set_add (select_refs select_part mv_database) [])
  end.

Definition parse_target_table (create_query mv_database mv_name : string) : string * bool :=
  match find_refs "TO" create_query with
  | r :: _ => (_qualify_table_name r mv_database, false)
  | [] => (mv_database +:+ ".`.inner." +:+ mv_name +:+ "`", true)
  end.

End Parser.
Module Graph.
Import Parser.

(** *** Data model (graph.py) *)

Record TableNode := {
  database : string;
  name : string;
  engine : string;
  full_name : string
}.

(** [TableNode(database, name, engine)] with [__post_init__] filling an
    empty [full_name] with ["{database}.{name}"]. *)
Definition new_TableNode (database name engine : string) (full_name : string) : TableNode :=
  {| database := database; name := name; engine := engine;
     full_name := if String.eqb full_name "" then database +:+ "." +:+ name else full_name |}.

Record LineageEdge := {
  source : string;
  target : string;
  mv_name : string
}.

(** A Python dict iterated in insertion order: an association list whose
    keys are distinct; assignment to an existing key keeps its position. *)
Fixpoint dict_set {V} (k : string) (v : V) (d : list (string * V)) : list (string * V) :=
  match d with
  | [] => [(k, v)]
  | (k', v') :: d' => if decide (k = k') then (k, v) :: d' else (k', v') :: dict_set k v d'
  end.

Fixpoint dict_get {V} (k : string) (d : list (string * V)) : option V :=
  match d with
  | [] => None
  | (k', v') :: d' => if decide (k = k') then Some v' else dict_get k d'
  end.

Definition dict_mem {V} (k : string) (d : list (string * V)) : bool :=
  match dict_get k d with Some _ => true | None => false end.

Record LineageGraph := {
  nodes : list (string * TableNode);
  edges : list LineageEdge;
  mv_names : gset string;
  target_names : gset string
}.

Definition node_keys (g : LineageGraph) : list string := map fst (nodes g).

Definition empty_graph : LineageGraph :=
  {| nodes := []; edges := []; mv_names := ∅; target_names := ∅ |}.

(** *** Input rows *)

(** A row of [mv_df]. [dependencies_database]/[dependencies_table] are
    [None] when the column is missing or its value is not a list or tuple
    (the [isinstance] test fails and the merge is skipped). *)
Record MvRow := {
  row_database : string;
  row_name : string;
  create_table_query : string;
  dependencies_database : option (list string);
  dependencies_table : option (list string)
}.

(** A row of [schema_df]; [schema_engine = None] when the row has no
    ["engine"] entry. *)
Record SchemaRow := {
  schema_database : string;
  schema_name : string;
  schema_engine : option string
}.

Definition build_engine_lookup (schema_df : list SchemaRow) : gmap string string :=
  fold_left (fun m row =>
      <[schema_database row +:+ "." +:+ schema_name row :=
          default "Unknown" (schema_engine row)]> m)
    schema_df ∅.

(** [s.split(".", 1)] *)
Fixpoint split_first_dot (s : string) : option (string * string) :=
  match s with
  | EmptyString => None
  | String c s' =>
      if Ascii.eqb c "." then Some (EmptyString, s')
      else match split_first_dot s' with
           | Some (a, b) => Some (String c a, b)
           | None => None
           end
  end.

(** [(parts[0] if len(parts) > 1 else db, parts[1] if len(parts) > 1 else parts[0])] *)
Definition split_db_name (s db : string) : string * string :=
  match split_first_dot s with
  | Some (a, b) => (a, b)
  | None => (db, s)
  end.

(** Step 3: merge the explicit dependency pairs not already in [sources]. *)
Definition merge_deps (sources : list string) (deps_db deps_table : option (list string))
    : list string :=
  match deps_db, deps_table with
  | Some dbs, Some tbls =>
      fold_left (fun acc '(dep_db, dep_tbl) =>
          let dep_full := dep_db +:+ "." +:+ dep_tbl in
          if decide (dep_full ∈ acc) then acc else acc ++ [dep_full])
        (zip dbs tbls) sources
  | _, _ => sources
  end.

(** Step 4: one source of the view. *)
Definition add_source (engine_lookup : gmap string string) (db mv_full_name : string)
    (g : LineageGraph) (source : string) : LineageGraph :=
  let nodes1 :=
    if dict_mem source (nodes g) then nodes g
    else let '(source_db, source_name) := split_db_name source db in
         let actual_engine := default "Source" (engine_lookup !! source) in
         dict_set source (new_TableNode source_db source_name actual_engine "") (nodes g) in
  {| nodes := nodes1;
     edges := edges g ++ [{| source := source; target := mv_full_name; mv_name := mv_full_name |}];
     mv_names := mv_names g; target_names := target_names g |}.

(** The body of [for _, row in mv_df.iterrows()]. *)
Definition build_step (engine_lookup : gmap string string) (g : LineageGraph) (row : MvRow)
    : LineageGraph :=
  let db := row_database row in
  let mv_name := row_name row in
  let create_query := create_table_query row in
  let mv_full_name := db +:+ "." +:+ mv_name in
  (* step 1 *)
  let g1 := {| nodes := dict_set mv_full_name (new_TableNode db mv_name "MaterializedView" "") (nodes g);
               edges := edges g; mv_names := {[mv_full_name]} ∪ mv_names g;
               target_names := target_names g |} in
  (* steps 2-4 *)
  let sources := merge_deps (parse_source_tables create_query db)
                   (dependencies_database row) (dependencies_table row) in
  let g2 := fold_left (add_source engine_lookup db mv_full_name) sources g1 in
  (* step 5 *)
  let '(target, is_implicit) := parse_target_table create_query db mv_name in
  let nodes3 :=
    if dict_mem target (nodes g2) then nodes g2
    else let '(target_db, target_name) := split_db_name target db in
         let actual_engine :=
           match engine_lookup !! target with
           | Some e => e
           | None => if is_implicit then "implicit" else "target"
           end in
         dict_set target (new_TableNode target_db target_name actual_engine "") (nodes g2) in
  {| nodes := nodes3;
     edges := edges g2 ++ [{| source := mv_full_name; target := target; mv_name := mv_full_name |}];
     mv_names := mv_names g2;
     target_names := {[target]} ∪ target_names g2 |}.

Definition build_lineage (mv_df : list MvRow) (schema_df : list SchemaRow) : LineageGraph :=
  fold_left (build_step (build_engine_lookup schema_df)) mv_df empty_graph.

End Graph.

Module Layout.
Import Graph.

(** [d.get(k, [])] on a dict of lists *)
Definition dget (m : gmap string (list string)) (k : string) : list string :=
  default [] (m !! k).

(** [d.setdefault(k, []).append(v)] *)
Definition add_adj (k v : string) (m : gmap string (list string)) : gmap string (list string) :=
  <[k := dget m k ++ [v]]> m.

(** *** Topological levels (the nested [get_level] of calculate_positions) *)

Record LvlState := {
  levels : gmap string nat;
  visiting : gset string
}.

(** [[e.source for e in lineage.edges if e.target == node_id]] *)
Definition incoming (E : list LineageEdge) (node_id : string) : list string :=
  map source (filter (fun e => target e = node_id) E).

(** [max(get_level(p) for p in ps)]: the calls run from left to right,
    threading the state; [rec] is the recursive [get_level]. *)
Fixpoint max_levels (rec : string → LvlState → option (nat * LvlState)) (ps : list string)
    (s : LvlState) : option (nat * LvlState) :=
  match ps with
  | [] => Some (0, s)
  | p :: ps' =>
      match rec p s with
      | None => None
      | Some (l, s') =>
          match max_levels rec ps' s' with
          | None => None
          | Some (m, s'') => Some (Nat.max l m, s'')
          end
      end
  end.

(** [get_level] *)
Fixpoint get_level (E : list LineageEdge) (fuel : nat) (node_id : string) (st : LvlState)
    : option (nat * LvlState) :=
  match fuel with
  | O => None
  | S f =>
      match levels st !! node_id with
      | Some l => Some (l, st)
      | None =>
          if decide (node_id ∈ visiting st) then
            Some (0%nat, {| levels := <[node_id := 0%nat]> (levels st); visiting := visiting st |})
          else
            let st1 := {| levels := levels st; visiting := {[node_id]} ∪ visiting st |} in
            let r := match incoming E node_id with
                     | [] => Some (0, st1)
                     | inc => match max_levels (get_level E f) inc st1 with
                              | None => None
                              | Some (m, st2) => Some (S m, st2)
                              end
                     end in
            match r with
            | None => None
            | Some (l, st2) =>
                Some (l, {| levels := <[node_id := l]> (levels st2);
                            visiting := visiting st2 ∖ {[node_id]} |})
            end
      end
  end.

(** The nesting of [get_level] calls that Python's recursion limit allows.
    The limit is 1000 frames by default (calculate_positions does not raise
    it), and each nested level holds three: the frame of [get_level], that of
    the generator expression and that of [max]. So about 330 nested calls
    fit; one more raises [RecursionError]. The fuel of [get_level] counts the
    nested calls, and running out of it is that error. *)
Definition max_level_depth : nat := 330.

(** [for node_id in lineage.nodes: get_level(node_id)] *)
Definition compute_levels (g : LineageGraph) : option (gmap string nat) :=
  match fold_left (fun ost n =>
            match ost with
            | None => None
            | Some st => match get_level (edges g) max_level_depth n st with
                         | None => None
                         | Some (_, st') => Some st'
                         end
            end) (node_keys g) (Some {| levels := ∅; visiting := ∅ |}) with
  | None => None
  | Some st => Some (levels st)
  end.

(** *** _find_clusters *)

(** [downstream]/[upstream] built in one pass over the edges *)
Definition build_adj (E : list LineageEdge) : gmap string (list string) * gmap string (list string) :=
  fold_left (fun '(down, up) e => (add_adj (source e) (target e) down, add_adj (target e) (source e) up))
    E (∅, ∅).

(** the [while queue] loop of one cluster *)
Fixpoint bfs_cluster (down up : gmap string (list string)) (fuel : nat) (queue : list string)
    (cluster : gset string) : option (gset string) :=
  match fuel with
  | O => None
  | S f =>
      match queue with
      | [] => Some cluster
      | n :: q =>
          if decide (n ∈ cluster) then bfs_cluster down up f q cluster
          else
            let cluster' := {[n]} ∪ cluster in
            let q' := q ++ filter (fun c => c ∉ cluster') (dget down n)
                        ++ filter (fun p => p ∉ cluster') (dget up n) in
            bfs_cluster down up f q' cluster'
      end
  end.

(** every iteration pops one entry; at most two entries per edge are ever pushed *)
Definition cluster_fuel (g : LineageGraph) : nat := S (S (2 * List.length (edges g))).

Definition _find_clusters (g : LineageGraph) : option (list (gset string)) :=
  let '(down, up) := build_adj (edges g) in
  match fold_left (fun acc node_id =>
            match acc with
            | None => None
            | Some (visited, clusters) =>
                if decide (node_id ∈ visited) then Some (visited, clusters)
                else match bfs_cluster down up (cluster_fuel g) [node_id] ∅ with
                     | None => None
                     | Some cluster => Some (visited ∪ cluster, clusters ++ [cluster])
                     end
            end) (node_keys g) (Some (∅, [])) with
  | None => None
  | Some (_, clusters) => Some clusters
  end.

(** [min(sorted(cluster))]; clusters are never empty (they contain the node
    the traversal started from). *)
Definition _get_cluster_sort_key (cluster : gset string) : string :=
  match sort_strings (elements cluster) with
  | x :: _ => x
  | [] => ""
  end.

(** *** calculate_positions *)

Definition x_spacing : Q := 380.
Definition y_spacing : Q := 130.
Definition cluster_gap : Q := 80.

Definition Qofnat (n : nat) : Q := inject_Z (Z.of_nat n).

Abbreviation Positions := (gmap string (Q * Q)).

(** [incoming_map]: target -> sources *)
Definition build_incoming_map (E : list LineageEdge) : gmap string (list string) :=
  fold_left (fun m e => add_adj (target e) (source e) m) E ∅.

(** [sum(positioned) / len(positioned) if positioned else 0.0] *)
Definition sort_key (incoming_map : gmap string (list string)) (pos : Positions) (n : string) : Q :=
  let positioned : list Q := omap (fun p => (snd <$> pos !! p : option Q)) (dget incoming_map n) in
  match positioned with
  | [] => 0%Q
  | _ => (fold_left Qplus positioned 0 / Qofnat (List.length positioned))%Q
  end.

(** [cluster_by_level]: [for node_id in cluster] appends to the list of its
    level; [levels[node_id]] raises [KeyError] for a name without a level. *)
Definition group_by_level (levels : gmap string nat) (cluster : gset string)
    : option (gmap nat (list string)) :=
  fold_left (fun acc node_id =>
      match acc with
      | None => None
      | Some m => match levels !! node_id with
                  | None => None
                  | Some lvl => Some (<[lvl := default [] (m !! lvl) ++ [node_id]]> m)
                  end
      end) (elements cluster) (Some ∅).

Definition sorted_levels (m : gmap nat (list string)) : list nat :=
  stable_sort Nat.leb (map fst (map_to_list m)).

(** the sorting loop: level 0 by name, others by [sort_key] against the
    positions known before this cluster is placed *)
Definition sort_level (incoming_map : gmap string (list string)) (pos : Positions)
    (lvl : nat) (ns : list string) : list string :=
  if Nat.eqb lvl 0 then sort_strings ns
  else stable_sort (fun a b => Qle_bool (sort_key incoming_map pos a) (sort_key incoming_map pos b)) ns.

(** [for i, node_id in enumerate(nodes): positions[node_id] = (x, y_offset + i * y_spacing)] *)
Fixpoint place_column (x y_offset : Q) (i : nat) (ns : list string) (pos : Positions) : Positions :=
  match ns with
  | [] => pos
  | n :: ns' => place_column x y_offset (S i) ns' (<[n := (x, y_offset + Qofnat i * y_spacing)%Q]> pos)
  end.

(** one iteration of [for cluster in clusters]: returns the new positions and
    [current_y] *)
Definition place_cluster (levels : gmap string nat) (incoming_map : gmap string (list string))
    (cluster : gset string) (pos : Positions) (current_y : Q) : option (Positions * Q) :=
  match group_by_level levels cluster with
  | None => None
  | Some cbl =>
      let cols := map (fun lvl => (lvl, sort_level incoming_map pos lvl (default [] (cbl !! lvl))))
                      (sorted_levels cbl) in
      let max_rows := fold_left (fun acc '(_, ns) => Nat.max acc (List.length ns)) cols 0 in
      let band_height := ((Qofnat max_rows - 1) * y_spacing)%Q in
      let pos' := fold_left (fun p '(lvl, ns) =>
                     let x := (Qofnat lvl * x_spacing + 80)%Q in
                     let col_height := ((Qofnat (List.length ns) - 1) * y_spacing)%Q in
                     let y_offset := (current_y + (band_height - col_height) / 2)%Q in
                     place_column x y_offset 0 ns p) cols pos in
      Some (pos', (current_y + band_height + cluster_gap + y_spacing)%Q)
  end.

Definition place_clusters (levels : gmap string nat) (incoming_map : gmap string (list string))
    (clusters : list (gset string)) : option (Positions * Q) :=
  fold_left (fun acc cluster =>
      match acc with
      | None => None
      | Some (pos, cy) => place_cluster levels incoming_map cluster pos cy
      end) clusters (Some (∅, 0%Q)).

Definition list_min (l : list Q) : Q :=
  match l with [] => 0%Q | y :: ys => fold_left Qmin ys y end.
Definition list_max (l : list Q) : Q :=
  match l with [] => 0%Q | y :: ys => fold_left Qmax ys y end.

(** [[p[1] for p in positions.values()]] *)
Definition all_ys (pos : Positions) : list Q := map (fun kv => snd (snd kv)) (map_to_list pos).

(** "Center everything around y=0" *)
Definition recenter (pos : Positions) : Positions :=
  if decide (pos = ∅) then pos
  else
    let y_center := ((list_min (all_ys pos) + list_max (all_ys pos)) / 2)%Q in
    (fun '(x, y) => (x, y - y_center)%Q) <$> pos.

Definition calculate_positions (g : LineageGraph) : option Positions :=
  match nodes g with
  | [] => Some ∅
  | _ =>
      match compute_levels g with
      | None => None
      | Some levels =>
          let incoming_map := build_incoming_map (edges g) in
          match _find_clusters g with
          | None => None
          | Some clusters =>
              let sorted_clusters :=
                stable_sort (fun a b => String.leb (_get_cluster_sort_key a) (_get_cluster_sort_key b))
                  clusters in
              match place_clusters levels incoming_map sorted_clusters with
              | None => None
              | Some (pos, _) => Some (recenter pos)
              end
          end
      end
  end.

(** *** get_connected_subgraph *)

(** one BFS of get_connected_subgraph; [connected] is shared by both
    directions, as in the source *)
Fixpoint bfs_connected (adj : gmap string (list string)) (fuel : nat) (queue : list string)
    (connected : gset string) : option (gset string) :=
  match fuel with
  | O => None
  | S f =>
      match queue with
      | [] => Some connected
      | node :: q =>
          let '(connected', q') :=
            fold_left (fun '(c, q) child =>
                if decide (child ∈ c) then (c, q) else ({[child]} ∪ c, q ++ [child]))
              (dget adj node) (connected, q) in
          bfs_connected adj f q' connected'
      end
  end.

Definition get_connected_subgraph (g : LineageGraph) (selected_id : string) : option (gset string) :=
  let '(down, up) := build_adj (edges g) in
  match bfs_connected down (cluster_fuel g) [selected_id] {[selected_id]} with
  | None => None
  | Some connected => bfs_connected up (cluster_fuel g) [selected_id] connected
  end.

End Layout.

Module Renderer.
Import Graph Layout.

(** an entry of [_NODE_STYLES]; the ["icon"] entries are non-ASCII
    characters and are left out: they only appear in the markdown [content]
    of a node, before its label *)
Record NodeStyle := {
  st_bg : string;
  st_border : string;
  st_badge_bg : string;
  st_badge_text : string;
  st_shadow : string;
  st_label : string
}.

Definition style_source : NodeStyle :=
  {| st_bg := "#E8F8F7"; st_border := "#07A4AE"; st_badge_bg := "#D0F0ED";
     st_badge_text := "#058489"; st_shadow := "rgba(7,164,174,0.12)"; st_label := "Source" |}.
Definition style_mv : NodeStyle :=
  {| st_bg := "#FCE9ED"; st_border := "#E51745"; st_badge_bg := "#F9D3DB";
     st_badge_text := "#C21339"; st_shadow := "rgba(229,23,69,0.10)"; st_label := "Mat. View" |}.
Definition style_target : NodeStyle :=
  {| st_bg := "#F8F2EC"; st_border := "#BF8659"; st_badge_bg := "#F0E2D4";
     st_badge_text := "#A06F46"; st_shadow := "rgba(191,134,89,0.12)"; st_label := "Target" |}.
Definition style_implicit : NodeStyle :=
  {| st_bg := "#F1F2F5"; st_border := "#A4ABBA"; st_badge_bg := "#E5E7ED";
     st_badge_text := "#636B7F"; st_shadow := "rgba(164,171,186,0.10)"; st_label := "Implicit" |}.

Definition _NODE_STYLES : list (string * NodeStyle) :=
  [("source", style_source); ("MaterializedView", style_mv);
   ("target", style_target); ("implicit", style_implicit)].

(** [_resolve_engine]; a [TableNode] is always truthy *)
Definition _resolve_engine (full_name : string) (lineage : LineageGraph) : string :=
  if decide (full_name ∈ mv_names lineage) then "MaterializedView"
  else if decide (full_name ∈ target_names lineage) then
    match dict_get full_name (nodes lineage) with
    | Some node => if String.eqb (engine node) "implicit" then "implicit" else "target"
    | None => "target"
    end
  else "source".

(** [node.name if len(node.name) <= 35 else node.name[:32] + "..."] *)
Definition display_name (name : string) : string :=
  if Nat.leb (String.length name) 35 then name else substring 0 32 name +:+ "...".

(** A [StreamlitFlowNode]: its id, position, node type and style; of its
    [content] (["**{icon} {label}**\n\n{name}"]) the label and the name are
    kept. The other arguments are the same constants for every node. *)
Record FlowNode := {
  fn_id : string;
  fn_pos : Q * Q;
  fn_label : string;
  fn_name : string;
  fn_node_type : string;
  fn_style : list (string * string)
}.

(** A [StreamlitFlowEdge]: its index [i] (the id is ["e{i}"]), ends,
    [animated] flag, arrow colour and style. *)
Record FlowEdge := {
  fe_index : nat;
  fe_source : string;
  fe_target : string;
  fe_animated : bool;
  fe_color : string;
  fe_style : list (string * string)
}.

Definition flow_node (lineage : LineageGraph) (positions : Positions) (error_views : gset string)
    (connected : option (gset string)) (highlight_node : option string)
    (full_name : string) (node : TableNode) : FlowNode :=
  let engine := _resolve_engine full_name lineage in
  let style := default style_source (dict_get engine _NODE_STYLES) in
  let has_error := bool_decide (full_name ∈ error_views) in
  let is_dimmed := match connected with
                   | None => false
                   | Some c => bool_decide (full_name ∉ c)
                   end in
  let is_highlighted := bool_decide (Some full_name = highlight_node) in
  let name := display_name (name node) in
  let has_incoming := existsb (fun e => String.eqb (target e) full_name) (edges lineage) in
  let has_outgoing := existsb (fun e => String.eqb (source e) full_name) (edges lineage) in
  let node_type := if has_incoming && has_outgoing then "default"
                   else if has_outgoing then "input" else "output" in
  let border_color := st_border style in
  let shadow_color := st_shadow style in
  let node_style : list (string * string) :=
    [("background", st_bg style); ("border", "2px solid " +:+ border_color);
     ("borderRadius", "12px"); ("padding", "16px 20px"); ("fontSize", "14px");
     ("fontFamily", "Inter, -apple-system, sans-serif"); ("fontWeight", "400");
     ("color", "#0D1525"); ("width", "260px"); ("textAlign", "left"); ("cursor", "pointer");
     ("boxShadow", "0 2px 8px " +:+ shadow_color)] in
  let node_style :=
    if is_highlighted && negb is_dimmed then
      dict_set "boxShadow" ("0 0 0 3px " +:+ border_color +:+ "40, 0 4px 12px " +:+ shadow_color)
        node_style
    else node_style in
  let node_style :=
    if has_error && negb is_dimmed then
      dict_set "boxShadow" "0 0 0 3px rgba(255,92,77,0.15), 0 2px 8px rgba(255,92,77,0.20)"
        (dict_set "border" "2px solid #FF5C4D" node_style)
    else node_style in
  let node_style :=
    if is_dimmed then
      dict_set "boxShadow" "none" (dict_set "filter" "grayscale(0.5)" (dict_set "opacity" "0.15" node_style))
    else node_style in
  {| fn_id := full_name; fn_pos := default (0%Q, 0%Q) (positions !! full_name);
     fn_label := st_label style; fn_name := name; fn_node_type := node_type;
     fn_style := node_style |}.

Definition flow_edge (lineage : LineageGraph) (connected : option (gset string))
    (i : nat) (edge : LineageEdge) : FlowEdge :=
  let is_mv := bool_decide (source edge ∈ mv_names lineage) in
  let edge_color := if is_mv then "#E51745" else "#07A4AE" in
  let is_dimmed := match connected with
                   | None => false
                   | Some c => bool_decide (source edge ∉ c) || bool_decide (target edge ∉ c)
                   end in
  let edge_style : list (string * string) := [("stroke", edge_color); ("strokeWidth", "1.5")] in
  let edge_style := if is_dimmed
                    then dict_set "strokeWidth" "1" (dict_set "opacity" "0.08" edge_style)
                    else edge_style in
  {| fe_index := i; fe_source := source edge; fe_target := target edge;
     fe_animated := negb is_dimmed; fe_color := edge_color; fe_style := edge_style |}.

(** [enumerate(lineage.edges)] *)
Fixpoint flow_edges_from (lineage : LineageGraph) (connected : option (gset string))
    (i : nat) (es : list LineageEdge) : list FlowEdge :=
  match es with
  | [] => []
  | e :: es' => flow_edge lineage connected i e :: flow_edges_from lineage connected (S i) es'
  end.

Definition _build_flow_state (lineage : LineageGraph) (positions : Positions)
    (error_views : gset string) (connected : option (gset string))
    (highlight_node : option string) : list FlowNode * list FlowEdge :=
  (map (fun '(full_name, node) =>
          flow_node lineage positions error_views connected highlight_node full_name node)
       (nodes lineage),
   flow_edges_from lineage connected 0 (edges lineage)).

(** The part of [render_lineage_graph] that builds a flow state when none is
    cached for the highlight: [highlight] is
    [st.session_state.get("lineage_highlight")], [cached] the positions
    cached under ["_lineage_positions"] (empty when absent), [error_views]
    the set passed in (empty for [None]). Returns the highlight kept and the
    flow state. *)
Definition render_flow_state (lineage : LineageGraph) (error_views : gset string)
    (cached : Positions) (highlight : option string)
    : option (option string * (list FlowNode * list FlowEdge)) :=
  let highlight_node :=
    match highlight with
    | Some h => if negb (String.eqb h "") && dict_mem h (nodes lineage) then Some h else None
    | None => None
    end in
  let oconnected :=
    match highlight_node with
    | Some h => Some <$> get_connected_subgraph lineage h
    | None => Some None
    end in
  match oconnected with
  | None => None
  | Some connected =>
      match calculate_positions lineage with
      | None => None
      | Some computed =>
          let positions : Positions :=
            fold_left (fun m node_id =>
                <[node_id := default (default (0%Q, 0%Q) (computed !! node_id)) (cached !! node_id)]> m)
              (node_keys lineage) ∅ in
          Some (highlight_node, _build_flow_state lineage positions error_views connected highlight_node)
      end
  end.

End Renderer.
(** ** Properties stated by the claims *)

Module Props.
Import Graph.

(** Referential integrity of a LineageGraph (spec, data model). *)
Definition edges_closed (g : LineageGraph) : Prop :=
  ∀ e, e ∈ edges g → source e ∈ node_keys g ∧ target e ∈ node_keys g.

Definition graph_integrity (g : LineageGraph) : Prop :=
  edges_closed g ∧
  (∀ n, n ∈ mv_names g → n ∈ node_keys g) ∧
  (∀ n, n ∈ target_names g → n ∈ node_keys g).

(** The FROM/JOIN references of a query, qualified, in text order (before
    deduplication); empty when the query has no select part. *)
Definition source_refs (create_query mv_database : string) : list string :=
  match Parser.search_as_select None create_query with
  | None => []
  | Some select_part => Parser.select_refs select_part mv_database
  end.

(** Positions in a string: [drop_str i s] is [s[i:]], and [char_before prev s i]
    the character before position [i] ([prev] at position 0). *)
Fixpoint drop_str (n : nat) (s : string) : string :=
  match n, s with
  | O, _ => s
  | S n', String _ s' => drop_str n' s'
  | S _, EmptyString => EmptyString
  end.

Fixpoint char_before (prev : option ascii) (s : string) (n : nat) : option ascii :=
  match n, s with
  | O, _ => prev
  | S n', String c s' => char_before (Some c) s' n'
  | S _, EmptyString => prev
  end.

(** case-insensitive equality with an upper-case keyword *)
Fixpoint ci_eq (kw w : string) : Prop :=
  match kw, w with
  | EmptyString, EmptyString => True
  | String k kw', String c w' => Parser.to_upper c = k ∧ ci_eq kw' w'
  | _, _ => False
  end.

Fixpoint all_space (w : string) : bool :=
  match w with
  | EmptyString => true
  | String c w' => Parser.is_space c && all_space w'
  end.

(** The pattern [AS\s+SELECT] read declaratively: a word boundary, the
    token AS in any case, a non-empty run of whitespace (newlines included),
    the token SELECT in any case, and a word boundary. *)
Definition as_select_pattern (prev : option ascii) (t : string) : Prop :=
  Parser.boundary_before prev = true ∧
  ∃ a w b rest, t = a +:+ w +:+ b +:+ rest ∧ ci_eq "AS" a ∧
    w ≠ EmptyString ∧ all_space w = true ∧ ci_eq "SELECT" b ∧ Parser.boundary_after rest = true.

(** The claim's reading of the select part (C9): the text from the first token
    AS (any case) that is followed, after any characters whatsoever, by the
    token SELECT. *)
Fixpoint select_token_in (prev : option ascii) (s : string) : bool :=
  (Parser.boundary_before prev &&
   match Parser.ci_prefix "SELECT" s with Some r => Parser.boundary_after r | None => false end) ||
  match s with
  | EmptyString => false
  | String c s' => select_token_in (Some c) s'
  end.

Definition as_any_select_at (prev : option ascii) (s : string) : bool :=
  Parser.boundary_before prev &&
  match Parser.ci_prefix "AS" s with
  | Some r => Parser.boundary_after r && select_token_in (Some "S"%char) r
  | None => false
  end.

Fixpoint claim_select_part (prev : option ascii) (s : string) : option string :=
  if as_any_select_at prev s then Some s
  else match s with
       | EmptyString => None
       | String c s' => claim_select_part (Some c) s'
       end.

(** the arithmetic mean of the y coordinates of a position mapping *)
Definition y_mean (pos : Layout.Positions) : Q :=
  (fold_left Qplus (Layout.all_ys pos) 0 / Layout.Qofnat (List.length (Layout.all_ys pos)))%Q.

(** no two distinct names share a position (coordinates compared as numbers) *)
Definition coord_inj (pos : Layout.Positions) : Prop :=
  ∀ u v xu yu xv yv, pos !! u = Some (xu, yu) → pos !! v = Some (xv, yv) → u ≠ v →
    ¬ ((xu == xv)%Q ∧ (yu == yv)%Q).

(** a character occurs in a string ([c in s]) *)
Definition has_char (c : ascii) (s : string) : bool :=
  existsb (fun d => Ascii.eqb d c) (list_ascii_of_string s).

(** the full name of the view of a row of [mv_df] *)
Definition row_full_name (row : MvRow) : string := row_database row +:+ "." +:+ row_name row.

(** the sources of a row after the merge of its dependency metadata *)
Definition row_sources (row : MvRow) : list string :=
  merge_deps (Parser.parse_source_tables (create_table_query row) (row_database row))
    (dependencies_database row) (dependencies_table row).

(** the target table parsed from a row *)
Definition row_target (row : MvRow) : string :=
  fst (Parser.parse_target_table (create_table_query row) (row_database row) (row_name row)).

(** the edges one row of [mv_df] contributes: one per source, then the view
    to its target *)
Definition row_edges (row : MvRow) : list LineageEdge :=
  map (fun s => {| source := s; target := row_full_name row; mv_name := row_full_name row |})
    (row_sources row) ++
  [{| source := row_full_name row; target := row_target row; mv_name := row_full_name row |}].

(** every entry of [nodes] is stored under its own [full_name] *)
Definition names_match (g : LineageGraph) : Prop :=
  ∀ k n, dict_get k (nodes g) = Some n → full_name n = k.

(** [y] is reached from [x] by following edges of [E] forwards *)
Inductive freach (E : list LineageEdge) (x : string) : string → Prop :=
  | freach_refl : freach E x x
  | freach_step e : e ∈ E → freach E x (source e) → freach E x (target e).

(** [y] is reached from [x] by following edges of [E] in either direction *)
Inductive ureach (E : list LineageEdge) (x : string) : string → Prop :=
  | ureach_refl : ureach E x x
  | ureach_fwd e : e ∈ E → ureach E x (source e) → ureach E x (target e)
  | ureach_bwd e : e ∈ E → ureach E x (target e) → ureach E x (source e).

(** the edges of [E] admit a rank that strictly increases along each edge:
    the graph has no directed cycle *)
Definition ranked (E : list LineageEdge) : Prop :=
  ∃ r : string → nat, ∀ e, e ∈ E → r (source e) < r (target e).

(** [lv] gives every parent of a node with a level a smaller level, and a
    node a level [l > 0] only when some parent has level [l - 1]: the level
    of a node is the length of the longest path of edges ending at it *)
Definition levels_ok (E : list LineageEdge) (lv : gmap string nat) : Prop :=
  ∀ k l, lv !! k = Some l →
    (∀ p, p ∈ Layout.incoming E k → ∃ lp, lv !! p = Some lp ∧ lp < l) ∧
    (l = 0 ∨ ∃ p, p ∈ Layout.incoming E k ∧ lv !! p = Some (pred l)).
End Props.

(** ** Concrete inputs *)

Module Examples.
Import Graph.

Definition mv_row (db nm query : string) : MvRow :=
  {| row_database := db; row_name := nm; create_table_query := query;
     dependencies_database := Some []; dependencies_table := Some [] |}.

(** a view reading another view *)
Definition row_v1 : MvRow :=
  mv_row "d" "v1" "CREATE MATERIALIZED VIEW d.v1 TO d.out1 AS SELECT * FROM d.v2".
Definition row_v2 : MvRow :=
  mv_row "d" "v2" "CREATE MATERIALIZED VIEW d.v2 TO d.out2 AS SELECT * FROM d.t".

(** chained views, the reader listed first *)
Definition row_mv_b : MvRow :=
  mv_row "d" "mv_b" "CREATE MATERIALIZED VIEW d.mv_b TO d.agg_b AS SELECT * FROM d.agg_a".
Definition row_mv_a : MvRow :=
  mv_row "d" "mv_a" "CREATE MATERIALIZED VIEW d.mv_a TO d.agg_a AS SELECT * FROM d.src".

(** a graph whose nodes are the names [ns] (in this order) and whose edges
    are the pairs [es] *)
Definition mk_graph (ns : list string) (es : list (string * string)) : LineageGraph :=
  {| nodes := map (fun n => (n, new_TableNode "d" n "Source" "")) ns;
     edges := map (fun '(s, t) => {| source := s; target := t; mv_name := t |}) es;
     mv_names := ∅; target_names := ∅ |}.

(** one edge and an isolated node *)
Definition g_pair : LineageGraph := mk_graph ["A"; "B"; "C"] [("A", "B")].

(** two roots, each with a child of its own, and a child of both *)
Definition g_fan : LineageGraph :=
  mk_graph ["a"; "b"; "x"; "y"; "z"] [("a", "x"); ("b", "y"); ("a", "z"); ("b", "z")].

(** a 2-cycle [s <-> m] with a further parent [y] of [m] *)
Definition g_back : LineageGraph := mk_graph ["s"; "m"; "y"] [("s", "m"); ("m", "s"); ("y", "m")].




(** a node whose name is longer than the 35 characters a node shows *)
Definition g_long : LineageGraph := mk_graph ["a_table_name_that_is_longer_than_35_chars"] [].

End Examples.

(** * Proofs *)

Module GraphFacts.
Import Parser Graph Props.

Lemma dict_set_keys {V} (k k' : string) (v : V) (d : list (string * V)) :
  k' ∈ map fst (dict_set k v d) ↔ k' = k ∨ k' ∈ map fst d.
Proof.
  induction d as [|[k0 v0] d IH]; simpl; [set_solver|].
  case_decide; subst; simpl; rewrite ?elem_of_cons; [naive_solver|].
  rewrite IH. naive_solver.
Qed.

Lemma dict_get_keys {V} (k : string) (d : list (string * V)) (v : V) :
  dict_get k d = Some v → k ∈ map fst d.
Proof.
  induction d as [|[k0 v0] d IH]; simpl; [done|].
  case_decide; subst; rewrite elem_of_cons; naive_solver.
Qed.

Lemma dict_mem_keys {V} (k : string) (d : list (string * V)) :
  dict_mem k d = true → k ∈ map fst d.
Proof.
  unfold dict_mem. destruct (dict_get k d) eqn:E; [|done]. intros _. by eapply dict_get_keys.
Qed.

Lemma add_source_integrity el db mvf g src :
  mvf ∈ node_keys g → graph_integrity g →
  graph_integrity (add_source el db mvf g src) ∧ mvf ∈ node_keys (add_source el db mvf g src) ∧
  (∀ k, k ∈ node_keys g → k ∈ node_keys (add_source el db mvf g src)).
Proof.
  intros Hmv (He & Hm & Ht). unfold add_source, node_keys in *.
  assert (Hsub : ∀ k, k ∈ map fst (nodes g) →
    k ∈ map fst (if dict_mem src (nodes g) then nodes g
                 else let '(sdb, sn) := split_db_name src db in
                      dict_set src (new_TableNode sdb sn (default "Source" (el !! src)) "") (nodes g))).
  { intros k Hk. destruct (dict_mem src (nodes g)); [done|].
    destruct (split_db_name src db). apply dict_set_keys. by right. }
  assert (Hsrc : src ∈ map fst (if dict_mem src (nodes g) then nodes g
                 else let '(sdb, sn) := split_db_name src db in
                      dict_set src (new_TableNode sdb sn (default "Source" (el !! src)) "") (nodes g))).
  { destruct (dict_mem src (nodes g)) eqn:E; [by apply dict_mem_keys|].
    destruct (split_db_name src db). apply dict_set_keys. by left. }
  unfold graph_integrity, edges_closed, node_keys. simpl. split_and!; [| | | by apply Hsub | by apply Hsub].
  - intros e. rewrite elem_of_app, list_elem_of_singleton. intros [He' | ->].
    + destruct (He e He'). split; by apply Hsub.
    + simpl. split; [done|]. by apply Hsub.
  - intros n Hn. by apply Hsub, Hm.
  - intros n Hn. by apply Hsub, Ht.
Qed.

Lemma fold_add_source_integrity el db mvf srcs g :
  mvf ∈ node_keys g → graph_integrity g →
  graph_integrity (fold_left (add_source el db mvf) srcs g) ∧
  mvf ∈ node_keys (fold_left (add_source el db mvf) srcs g).
Proof.
  revert g. induction srcs as [|s srcs IH]; intros g Hmv Hg; simpl; [done|].
  destruct (add_source_integrity el db mvf g s Hmv Hg) as (H1 & H2 & _). by apply IH.
Qed.

Lemma build_step_integrity el g row :
  graph_integrity g → graph_integrity (build_step el g row).
Proof.
  intros (He & Hm & Ht). unfold build_step.
  set (mvf := row_database row +:+ "." +:+ row_name row).
  set (g1 := {| nodes := dict_set mvf _ (nodes g) |}).
  assert (Hg1 : graph_integrity g1 ∧ mvf ∈ node_keys g1).
  { unfold g1, graph_integrity, edges_closed, node_keys; simpl. split_and!.
    - intros e He'. destruct (He e He'). rewrite !dict_set_keys. auto.
    - intros n. rewrite elem_of_union, elem_of_singleton, dict_set_keys. intros [-> | Hn]; auto.
    - intros n Hn. rewrite dict_set_keys. auto.
    - rewrite dict_set_keys. auto. }
  destruct Hg1 as [Hg1 Hmv1].
  destruct (fold_add_source_integrity el (row_database row) mvf
              (merge_deps (parse_source_tables (create_table_query row) (row_database row))
                 (dependencies_database row) (dependencies_table row)) g1 Hmv1 Hg1)
    as [(He2 & Hm2 & Ht2) Hmv2].
  set (g2 := fold_left _ _ g1) in *.
  destruct (parse_target_table (create_table_query row) (row_database row) (row_name row))
    as [tgt impl].
  set (nodes3 := if dict_mem tgt (nodes g2) then nodes g2 else _).
  assert (Hsub : ∀ k, k ∈ node_keys g2 → k ∈ map fst nodes3).
  { intros k Hk. unfold nodes3. destruct (dict_mem tgt (nodes g2)); [done|].
    destruct (split_db_name tgt (row_database row)). apply dict_set_keys. by right. }
  assert (Htgt : tgt ∈ map fst nodes3).
  { unfold nodes3. destruct (dict_mem tgt (nodes g2)) eqn:E; [by apply dict_mem_keys|].
    destruct (split_db_name tgt (row_database row)). apply dict_set_keys. by left. }
  unfold graph_integrity, edges_closed, node_keys; simpl. split_and!.
  - intros e. rewrite elem_of_app, list_elem_of_singleton. intros [He' | ->].
    + destruct (He2 e He'). split; by apply Hsub.
    + simpl. split; [by apply Hsub|done].
  - intros n Hn. by apply Hsub, Hm2.
  - intros n. rewrite elem_of_union, elem_of_singleton. intros [-> | Hn]; [done|]. by apply Hsub, Ht2.
Qed.

Lemma dict_get_set {V} (k k' : string) (v : V) (d : list (string * V)) :
  dict_get k (dict_set k' v d) = if decide (k = k') then Some v else dict_get k d.
Proof.
  induction d as [|[k0 v0] d IH]; simpl.
  - destruct (decide (k = k')); reflexivity.
  - destruct (decide (k' = k0)) as [->|E0]; simpl.
    + destruct (decide (k = k0)); reflexivity.
    + rewrite IH. destruct (decide (k = k0)), (decide (k = k')); subst; congruence.
Qed.

Lemma dict_get_mem {V} (k : string) (d : list (string * V)) v :
  dict_get k d = Some v → dict_mem k d = true.
Proof. unfold dict_mem. by intros ->. Qed.

(** a registered entry survives [add_source] (first registration wins) *)
Lemma add_source_keeps el db mvf g src k v :
  dict_get k (nodes g) = Some v → dict_get k (nodes (add_source el db mvf g src)) = Some v.
Proof.
  intros Hk. unfold add_source; simpl.
  destruct (dict_mem src (nodes g)) eqn:Em; [done|].
  destruct (split_db_name src db). rewrite dict_get_set. case_decide; [|done].
  subst. by rewrite (dict_get_mem _ _ _ Hk) in Em.
Qed.

Lemma fold_add_source_keeps el db mvf srcs g k v :
  dict_get k (nodes g) = Some v →
  dict_get k (nodes (fold_left (add_source el db mvf) srcs g)) = Some v.
Proof.
  revert g. induction srcs as [|s srcs IH]; intros g Hk; simpl; [done|].
  apply IH. by apply add_source_keeps.
Qed.

Definition view_full_name (row : MvRow) : string := row_database row +:+ "." +:+ row_name row.

(** the target step keeps a registered entry *)
Lemma target_step_keeps el g row k v :
  dict_get k (nodes g) = Some v →
  dict_get k (nodes (build_step el g row)) = Some v ∨
  k = view_full_name row.
Proof.
  intros Hk. unfold build_step.
  destruct (decide (k = view_full_name row)) as [|Hne]; [by right|left].
  set (g1 := {| nodes := dict_set (row_database row +:+ "." +:+ row_name row) _ (nodes g) |}).
  assert (H1 : dict_get k (nodes g1) = Some v).
  { unfold g1; simpl. rewrite dict_get_set. case_decide; [|done]. by unfold view_full_name in Hne. }
  pose proof (fold_add_source_keeps el (row_database row) (row_database row +:+ "." +:+ row_name row)
    (merge_deps (parse_source_tables (create_table_query row) (row_database row))
       (dependencies_database row) (dependencies_table row)) g1 k v H1) as H2.
  set (g2 := fold_left _ _ g1) in *.
  destruct (parse_target_table (create_table_query row) (row_database row) (row_name row))
    as [tgt impl]; simpl.
  destruct (dict_mem tgt (nodes g2)) eqn:Em; [done|].
  destruct (split_db_name tgt (row_database row)). rewrite dict_get_set. case_decide; [|done].
  subst. by rewrite (dict_get_mem _ _ _ H2) in Em.
Qed.

(** the view's own entry after its record is the MaterializedView node *)
Lemma build_step_view el g row :
  dict_get (view_full_name row) (nodes (build_step el g row)) =
  Some (new_TableNode (row_database row) (row_name row) "MaterializedView" "").
Proof.
  unfold build_step.
  set (g1 := {| nodes := dict_set (row_database row +:+ "." +:+ row_name row) _ (nodes g) |}).
  assert (H1 : dict_get (view_full_name row) (nodes g1) =
               Some (new_TableNode (row_database row) (row_name row) "MaterializedView" "")).
  { unfold g1; simpl. rewrite dict_get_set. case_decide; [done|]. by unfold view_full_name in *. }
  pose proof (fold_add_source_keeps el (row_database row) (row_database row +:+ "." +:+ row_name row)
    (merge_deps (parse_source_tables (create_table_query row) (row_database row))
       (dependencies_database row) (dependencies_table row)) g1 _ _ H1) as H2.
  set (g2 := fold_left _ _ g1) in *.
  destruct (parse_target_table (create_table_query row) (row_database row) (row_name row))
    as [tgt impl]; simpl.
  destruct (dict_mem tgt (nodes g2)) eqn:Em; [done|].
  destruct (split_db_name tgt (row_database row)). rewrite dict_get_set. case_decide; [|done].
  subst. by rewrite (dict_get_mem _ _ _ H2) in Em.
Qed.

Lemma build_lineage_app mv1 mv2 schema_df :
  build_lineage (mv1 ++ mv2) schema_df =
  fold_left (build_step (build_engine_lookup schema_df)) mv2 (build_lineage mv1 schema_df).
Proof. unfold build_lineage. by rewrite fold_left_app. Qed.

Lemma fold_add_source_target_names el db mvf srcs g :
  target_names (fold_left (add_source el db mvf) srcs g) = target_names g.
Proof. revert g. induction srcs as [|x srcs IH]; intros g; simpl; [done|]. by rewrite IH. Qed.

Lemma build_step_target_names el g row :
  target_names (build_step el g row) =
  {[fst (parse_target_table (create_table_query row) (row_database row) (row_name row))]}
  ∪ target_names g.
Proof.
  unfold build_step.
  destruct (parse_target_table (create_table_query row) (row_database row) (row_name row))
    as [tgt impl]; simpl. by rewrite fold_add_source_target_names.
Qed.

Lemma build_step_entry el g row k v :
  dict_get k (nodes g) = Some v →
  dict_get k (nodes (build_step el g row)) =
  Some (if decide (view_full_name row = k)
        then new_TableNode (row_database row) (row_name row) "MaterializedView" "" else v).
Proof.
  intros Hk. case_decide as E.
  - subst. apply build_step_view.
  - destruct (target_step_keeps el g row k v Hk); congruence.
Qed.

(** the entry of [k] after a record of the view named [k] *)
Definition last_view_node (k : string) (rows : list MvRow) : option TableNode :=
  fold_left (fun acc r => if decide (view_full_name r = k)
                          then Some (new_TableNode (row_database r) (row_name r) "MaterializedView" "")
                          else acc) rows None.

Lemma fold_build_step_entry el rows g k v :
  dict_get k (nodes g) = Some v →
  dict_get k (nodes (fold_left (build_step el) rows g)) = Some (default v (last_view_node k rows)).
Proof.
  unfold last_view_node.
  assert (Hgen : ∀ acc, dict_get k (nodes g) = Some (default v acc) →
    dict_get k (nodes (fold_left (build_step el) rows g)) =
    Some (default v (fold_left (fun acc r => if decide (view_full_name r = k)
                          then Some (new_TableNode (row_database r) (row_name r) "MaterializedView" "")
                          else acc) rows acc))).
  { revert g. induction rows as [|r rows IH]; intros g acc Hk; simpl; [done|].
    apply IH. rewrite (build_step_entry el g r k _ Hk). by case_decide. }
  intros Hk. by apply (Hgen None).
Qed.

End GraphFacts.

Module SortFacts.

Section insertion_sort.
Context {A : Type} (le : A → A → bool).

Lemma insert_by_perm x l : insert_by le x l ≡ₚ x :: l.
Proof.
  induction l as [|y l IH]; simpl; [done|].
  destruct (le x y); [done|]. rewrite IH. constructor.
Qed.

Lemma stable_sort_perm l : stable_sort le l ≡ₚ l.
Proof.
  induction l as [|x l IH]; simpl; [done|]. unfold stable_sort in *; simpl.
  rewrite insert_by_perm, IH. done.
Qed.

Hypothesis le_total : ∀ x y, le x y = false → le y x = true.

Lemma insert_by_sorted x l :
  Sorted (fun a b => le a b = true) l → Sorted (fun a b => le a b = true) (insert_by le x l).
Proof.
  induction 1 as [|y l Hl IH Hhd]; simpl; [by repeat constructor|].
  destruct (le x y) eqn:Exy; [by repeat constructor|].
  constructor; [done|].
  destruct l as [|z l]; simpl.
  - constructor. by apply le_total.
  - inversion Hhd; subst. simpl in *. destruct (le x z); constructor; [by apply le_total|done].
Qed.

Lemma stable_sort_sorted l : Sorted (fun a b => le a b = true) (stable_sort le l).
Proof.
  induction l as [|x l IH]; [constructor|]. unfold stable_sort in *; simpl.
  by apply insert_by_sorted.
Qed.

End insertion_sort.

Lemma sorted_weaken {A} (R1 R2 : relation A) l :
  (∀ a b, R1 a b → R2 a b) → Sorted R1 l → Sorted R2 l.
Proof.
  intros HR. induction 1 as [|x l Hl IH Hhd]; constructor; [done|].
  destruct Hhd; constructor. by apply HR.
Qed.

Lemma string_leb_total x y : String.leb x y = false → String.leb y x = true.
Proof. intros H. destruct (String.leb_total x y); congruence. Qed.

Lemma sort_strings_sorted l : Sorted String.le (sort_strings l).
Proof.
  eapply sorted_weaken; [|apply (stable_sort_sorted String.leb string_leb_total)].
  intros a b Hab. unfold String.le. by rewrite Hab.
Qed.

Lemma sort_strings_ssorted l : StronglySorted String.le (sort_strings l).
Proof.
  pose proof (sort_strings_sorted l) as H.
  apply Sorted.Sorted_StronglySorted; [|done].
  intros a b c. apply (transitivity (R:=String.le)).
Qed.

Lemma sort_strings_perm l : sort_strings l ≡ₚ l.
Proof. apply stable_sort_perm. Qed.

End SortFacts.

Module ParserFacts.
Import Parser Props SortFacts.

Lemma fold_set_add_spec refs acc :
  NoDup acc →
  NoDup (fold_left set_add refs acc) ∧
  (∀ x, x ∈ fold_left set_add refs acc ↔ x ∈ acc ∨ x ∈ refs).
Proof.
  revert acc. induction refs as [|r refs IH]; intros acc Hnd; simpl.
  - split; [done|]. set_solver.
  - destruct (decide (r ∈ acc)) as [Hin|Hin];
      [replace (set_add acc r) with acc by (unfold set_add; by case_decide)
      |replace (set_add acc r) with (acc ++ [r]) by (unfold set_add; by case_decide)].
    + destruct (IH acc Hnd) as [H1 H2]. split; [done|]. intros x. rewrite H2. set_solver.
    + assert (NoDup (acc ++ [r])).
      { apply NoDup_app. split_and!; [done| |apply NoDup_singleton]. set_solver. }
      destruct (IH (acc ++ [r])) as [H1 H2]; [done|]. split; [done|].
      intros x. rewrite H2. set_solver.
Qed.

Lemma append_cons c s t : String c s +:+ t = String c (s +:+ t).
Proof. reflexivity. Qed.

Lemma append_nil_l t : "" +:+ t = t.
Proof. reflexivity. Qed.

Lemma search_as_select_first prev s i :
  as_select_at (char_before prev s i) (drop_str i s) = true →
  (∀ j, j < i → as_select_at (char_before prev s j) (drop_str j s) = false) →
  i ≤ String.length s →
  search_as_select prev s = Some (drop_str i s).
Proof.
  revert prev i. induction s as [|c s IH]; intros prev i Hi Hbefore Hlen.
  - destruct i; simpl in *; [|lia]. destruct (as_select_at prev ""); [done|discriminate].
  - destruct i as [|i]; simpl in *.
    + by rewrite Hi.
    + pose proof (Hbefore 0 ltac:(lia)) as H0. simpl in H0. rewrite H0. apply IH; [done| |lia].
      intros j Hj. apply (Hbefore (S j)). lia.
Qed.

Lemma search_as_select_none prev s :
  (∀ j, j ≤ String.length s → as_select_at (char_before prev s j) (drop_str j s) = false) →
  search_as_select prev s = None.
Proof.
  revert prev. induction s as [|c s IH]; intros prev Hnone; simpl.
  - pose proof (Hnone 0 ltac:(simpl; lia)) as H0. simpl in H0. by rewrite H0.
  - pose proof (Hnone 0 ltac:(simpl; lia)) as H0. simpl in H0. rewrite H0. apply IH. intros j Hj. apply (Hnone (S j)). simpl. lia.
Qed.

Lemma ci_prefix_spec kw s r :
  ci_prefix kw s = Some r ↔ ∃ a, s = a +:+ r ∧ ci_eq kw a.
Proof.
  revert s. induction kw as [|k kw IH]; intros s; simpl.
  - split; [intros [= ->]; by exists ""|]. intros [a [-> Ha]]. by destruct a.
  - destruct s as [|c s]; simpl.
    + split; [done|]. intros [a [Ha Ha']]. destruct a; simpl in *; [done|discriminate].
    + destruct (Ascii.eqb (to_upper c) k) eqn:E.
      * apply Ascii.eqb_eq in E. rewrite IH. split.
        -- intros [a [-> Ha]]. exists (String c a). simpl. done.
        -- intros [[|c' a] [Hs Ha]]; simpl in *; [done|]. injection Hs as <- ->.
           destruct Ha. eauto.
      * split; [done|]. intros [[|c' a] [Hs Ha]]; simpl in *; [done|].
        injection Hs as <- ->. destruct Ha as [Hk _]. subst. by rewrite Ascii.eqb_refl in E.
Qed.

Lemma skip_space_app w t :
  all_space w = true → (match t with String c _ => is_space c = false | EmptyString => True end) →
  skip_space (w +:+ t) = t.
Proof.
  intros Hw Ht. induction w as [|c w IH]; simpl in *.
  - destruct t as [|c t]; simpl; [done|]. by rewrite Ht.
  - apply andb_prop in Hw as [Hc Hw]. rewrite Hc. by apply IH.
Qed.

Lemma skip_space_split s : ∃ w, s = w +:+ skip_space s ∧ all_space w = true.
Proof.
  induction s as [|c s [w [Hs Hw]]]; simpl; [by exists ""|].
  destruct (is_space c) eqn:Ec.
  - exists (String c w). split; [rewrite append_cons; f_equal; exact Hs|simpl; by rewrite Ec, Hw].
  - by exists "".
Qed.

Lemma ci_eq_select_head b : ci_eq "SELECT" b → ∃ c b', b = String c b' ∧ is_space c = false.
Proof.
  destruct b as [|c b]; simpl; [done|]. intros [Hc _]. exists c, b. split; [done|].
  destruct (is_space c) eqn:E; [|done]. exfalso.
  destruct c as [[] [] [] [] [] [] [] []]; vm_compute in E; try discriminate E;
    vm_compute in Hc; discriminate Hc.
Qed.

Lemma as_select_at_spec prev t :
  as_select_at prev t = true ↔ as_select_pattern prev t.
Proof.
  unfold as_select_at, as_select_pattern. rewrite andb_true_iff. split.
  - intros [Hb Hm]. split; [done|].
    destruct (ci_prefix "AS" t) as [r1|] eqn:E1; [|done].
    destruct (space1 r1) as [r2|] eqn:E2; [|done].
    destruct (ci_prefix "SELECT" r2) as [r3|] eqn:E3; [|done].
    apply ci_prefix_spec in E1 as [a [-> Ha]]. apply ci_prefix_spec in E3 as [b [-> Hb']].
    destruct r1 as [|c r1]; simpl in E2; [done|].
    destruct (is_space c) eqn:Ec; [|done]. injection E2 as E2.
    destruct (skip_space_split r1) as [w0 [Hr1 Hw0]]. rewrite E2 in Hr1.
    exists a, (String c w0), b, r3. split_and!; [|done|done| |done|done].
    + rewrite append_cons, <- Hr1. reflexivity.
    + simpl. by rewrite Ec, Hw0.
  - intros [Hb (a & w & b & rest & -> & Ha & Hw & Hws & Hsel & Hr)]. split; [done|].
    rewrite (proj2 (ci_prefix_spec "AS" _ _) (ex_intro _ a (conj eq_refl Ha))).
    destruct w as [|c w]; [done|]. simpl in Hws. apply andb_prop in Hws as [Hc Hws].
    rewrite append_cons. unfold space1. rewrite Hc.
    destruct (ci_eq_select_head b Hsel) as (c' & b' & -> & Hc').
    rewrite (skip_space_app w (String c' b' +:+ rest) Hws) by (rewrite append_cons; done).
    rewrite (proj2 (ci_prefix_spec "SELECT" _ _) (ex_intro _ _ (conj eq_refl Hsel))).
    done.
Qed.

End ParserFacts.

Module LayoutFacts.
Import Graph Layout Props SortFacts.

(** The proofs treat the recursion limit as a number they never unfold. *)
#[global] Opaque max_level_depth.

Lemma elem_of_map {A B} (f : A → B) (l : list A) y : y ∈ map f l ↔ ∃ x, y = f x ∧ x ∈ l.
Proof. rewrite list_elem_of_In, in_map_iff. setoid_rewrite list_elem_of_In. naive_solver. Qed.

Lemma size_list_to_set_le (l : list string) : size (list_to_set l : gset string) ≤ List.length l.
Proof.
  induction l as [|x l IH]; [cbn [list_to_set]; rewrite size_empty; simpl; lia|].
  cbn [list_to_set List.length]. rewrite size_union_alt, size_singleton.
  pose proof (subseteq_size (list_to_set l ∖ {[x]} : gset string) (list_to_set l) ltac:(set_solver)).
  lia.
Qed.

(** *** Levels: fuel adequacy of [get_level] *)

Lemma max_levels_some rec ps s :
  (∀ p s0, p ∈ ps → visiting s0 = visiting s →
     ∃ l s1, rec p s0 = Some (l, s1) ∧ visiting s1 = visiting s0 ∧
             ∀ k, is_Some (levels s0 !! k) → is_Some (levels s1 !! k)) →
  ∃ m s', max_levels rec ps s = Some (m, s') ∧ visiting s' = visiting s ∧
          ∀ k, is_Some (levels s !! k) → is_Some (levels s' !! k).
Proof.
  revert s. induction ps as [|p ps IH]; intros s H; simpl; [eauto|].
  destruct (H p s) as (l & s1 & Hr & Hv & Hg); [by left|done|]. rewrite Hr.
  destruct (IH s1) as (m & s2 & Hm & Hv2 & Hg2).
  { intros p' s0 Hp Hs0. apply H; [by right|congruence]. }
  rewrite Hm. eexists _, _. split; [done|]. split; [congruence|eauto].
Qed.

Section levels.
Variable E : list LineageEdge.
Variable U : gset string.
Hypothesis HU : ∀ e, e ∈ E → source e ∈ U.

Lemma incoming_in_U n p : p ∈ incoming E n → p ∈ U.
Proof.
  unfold incoming. rewrite elem_of_map. intros (e & -> & He).
  apply list_elem_of_filter in He as [_ He]. by apply HU.
Qed.

Lemma get_level_some fuel : ∀ n st,
  n ∈ U → visiting st ⊆ U → size (U ∖ visiting st) < fuel →
  ∃ l st', get_level E fuel n st = Some (l, st') ∧ visiting st' = visiting st ∧
           (∀ k, is_Some (levels st !! k) → is_Some (levels st' !! k)) ∧
           is_Some (levels st' !! n).
Proof.
  induction fuel as [|f IH]; intros n st Hn HV Hsz; [lia|]. cbn [get_level].
  destruct (levels st !! n) as [l|] eqn:El; [eexists _, _; split_and!; eauto|].
  case_decide as Hvis.
  - eexists _, _. split_and!; [done|done| |]; simpl.
    + intros k Hk. rewrite lookup_insert. case_decide; [eauto|done].
    + rewrite lookup_insert_eq. eauto.
  - assert (Hrec : ∀ p s0, p ∈ incoming E n → visiting s0 = {[n]} ∪ visiting st →
              ∃ l s1, get_level E f p s0 = Some (l, s1) ∧ visiting s1 = visiting s0 ∧
                      ∀ k, is_Some (levels s0 !! k) → is_Some (levels s1 !! k)).
    { intros p s0 Hp Hs0.
      destruct (IH p s0) as (l & s1 & H1 & H2 & H3 & _); [by eapply incoming_in_U| |
        |eexists _, _; split_and!; eauto].
      - rewrite Hs0. set_solver.
      - rewrite Hs0. assert (size (U ∖ ({[n]} ∪ visiting st)) < size (U ∖ visiting st)); [|lia].
        apply subset_size. split; [set_solver|]. intros Hs. specialize (Hs n). set_solver. }
    destruct (incoming E n) as [|p ps] eqn:Ei.
    + eexists _, _. split; [reflexivity|]. simpl. split_and!.
      * apply leibniz_equiv. set_solver.
      * intros k Hk. rewrite lookup_insert. case_decide; [eauto|done].
      * rewrite lookup_insert_eq. eauto.
    + destruct (max_levels_some (get_level E f) (p :: ps)
                  {| levels := levels st; visiting := {[n]} ∪ visiting st |})
        as (m & s2 & Hm & Hv & Hg).
      { intros p' s0 Hp Hs0. by apply Hrec. }
      rewrite Hm. eexists _, _. split; [reflexivity|]. simpl. split_and!.
      * rewrite Hv. simpl. apply leibniz_equiv. set_solver.
      * intros k Hk. rewrite lookup_insert. case_decide; [eauto|]. by apply Hg.
      * rewrite lookup_insert_eq. eauto.
Qed.

End levels.

Lemma compute_levels_some g :
  List.length (nodes g) + List.length (edges g) < max_level_depth →
  ∃ lv, compute_levels g = Some lv ∧ ∀ k, k ∈ node_keys g → is_Some (lv !! k).
Proof.
  set (U := list_to_set (node_keys g ++ map source (edges g)) : gset string).
  assert (HU : ∀ e, e ∈ edges g → source e ∈ U).
  { intros e He. unfold U. rewrite elem_of_list_to_set, elem_of_app, elem_of_map. eauto. }
  intros Hsmall.
  assert (Hsz : size U < max_level_depth).
  { pose proof (size_list_to_set_le (node_keys g ++ map source (edges g))) as H.
    unfold node_keys in *. rewrite length_app, !length_map in H. fold U in H. lia. }
  unfold compute_levels.
  match goal with |- context [fold_left ?F (node_keys g) _] => set (Fn := F) end.
  assert (Hfold : ∀ l st, (∀ k, k ∈ l → k ∈ node_keys g) → visiting st = ∅ →
            ∃ st', fold_left Fn l (Some st) = Some st' ∧ visiting st' = ∅ ∧
                   (∀ k, is_Some (levels st !! k) → is_Some (levels st' !! k)) ∧
                   ∀ k, k ∈ l → is_Some (levels st' !! k)).
  { induction l as [|n l IH]; intros st Hl Hv; cbn [fold_left].
    - eexists. split_and!; [done|done|done|]. intros k Hk. by apply elem_of_nil in Hk.
    - destruct (get_level_some (edges g) U HU max_level_depth n st) as (lv & st1 & Hgl & Hv1 & Hg1 & Hn1).
      + unfold U. rewrite elem_of_list_to_set, elem_of_app. left. apply Hl. by left.
      + rewrite Hv. set_solver.
      + rewrite Hv. replace (U ∖ ∅) with U by (apply leibniz_equiv; set_solver). done.
      + assert (Fn (Some st) n = Some st1) as -> by (unfold Fn; by rewrite Hgl).
        destruct (IH st1) as (st2 & H2 & Hv2 & Hg2 & Hl2); [intros k Hk; apply Hl; by right|congruence|].
        exists st2. split_and!; [done|done|eauto|]. intros k Hk.
        apply elem_of_cons in Hk as [-> | Hk]; [by apply Hg2|by apply Hl2]. }
  destruct (Hfold (node_keys g) {| levels := ∅; visiting := ∅ |}) as (st & -> & _ & _ & Hk); [done|done|].
  eexists. split; [reflexivity|]. done.
Qed.

(** *** Clusters: the adjacency lists and fuel adequacy of the traversal *)

Lemma dget_add_adj k v m n :
  dget (add_adj k v m) n = if decide (k = n) then dget m n ++ [v] else dget m n.
Proof.
  unfold add_adj, dget. destruct (decide (k = n)) as [-> | Hne].
  - by rewrite lookup_insert_eq.
  - by rewrite lookup_insert_ne.
Qed.

Lemma build_adj_fold E d u n :
  dget (fold_left (fun '(down, up) e => (add_adj (source e) (target e) down,
                                         add_adj (target e) (source e) up)) E (d, u)).1 n =
    dget d n ++ map target (filter (fun e => source e = n) E) ∧
  dget (fold_left (fun '(down, up) e => (add_adj (source e) (target e) down,
                                         add_adj (target e) (source e) up)) E (d, u)).2 n =
    dget u n ++ map source (filter (fun e => target e = n) E).
Proof.
  revert d u. induction E as [|e E IH]; intros d u; cbn [fold_left]; [by rewrite !app_nil_r|].
  destruct (IH (add_adj (source e) (target e) d) (add_adj (target e) (source e) u)) as [H1 H2].
  rewrite H1, H2, !dget_add_adj, !filter_cons.
  split; repeat case_decide; simplify_eq; simpl; by rewrite <- ?app_assoc.
Qed.

Lemma build_adj_spec E n :
  dget (build_adj E).1 n = map target (filter (fun e => source e = n) E) ∧
  dget (build_adj E).2 n = map source (filter (fun e => target e = n) E).
Proof.
  destruct (build_adj_fold E ∅ ∅ n) as [H1 H2]. unfold build_adj. rewrite H1, H2.
  assert (dget ∅ n = []) as -> by (unfold dget; by rewrite lookup_empty). done.
Qed.

Lemma filter_split_source E (C : gset string) n :
  n ∉ C →
  List.length (filter (fun e => source e ∉ C) E) =
  List.length (filter (fun e => source e ∉ {[n]} ∪ C) E) + List.length (filter (fun e => source e = n) E).
Proof.
  intros Hn. induction E as [|e E IH]; [done|]. rewrite !filter_cons.
  repeat case_decide; simpl; set_solver by lia.
Qed.

Lemma filter_split_target E (C : gset string) n :
  n ∉ C →
  List.length (filter (fun e => target e ∉ C) E) =
  List.length (filter (fun e => target e ∉ {[n]} ∪ C) E) + List.length (filter (fun e => target e = n) E).
Proof.
  intros Hn. induction E as [|e E IH]; [done|]. rewrite !filter_cons.
  repeat case_decide; simpl; set_solver by lia.
Qed.

Section clusters.
Variable E : list LineageEdge.
Variable K : gset string.
Hypothesis HK : ∀ e, e ∈ E → source e ∈ K ∧ target e ∈ K.

Lemma bfs_cluster_some fuel : ∀ q C,
  List.length q + List.length (filter (fun e => source e ∉ C) E)
    + List.length (filter (fun e => target e ∉ C) E) < fuel →
  (∀ x, x ∈ q → x ∈ K) → C ⊆ K →
  ∃ C', bfs_cluster (build_adj E).1 (build_adj E).2 fuel q C = Some C' ∧
        C ⊆ C' ∧ (∀ x, x ∈ q → x ∈ C') ∧ C' ⊆ K.
Proof.
  induction fuel as [|f IH]; intros q C Hf Hq HC; [lia|]. cbn [bfs_cluster].
  destruct q as [|n q].
  - exists C. split_and!; [done|done| |done]. intros x Hx. by apply elem_of_nil in Hx.
  - case_decide as Hn.
    + destruct (IH q C) as (C' & H1 & H2 & H3 & H4); [simpl in Hf; lia|intros x Hx; apply Hq; by right|done|].
      exists C'. split_and!; [done|done| |done].
      intros x Hx. apply elem_of_cons in Hx as [-> | Hx]; [set_solver|auto].
    + destruct (build_adj_spec E n) as [Hd Hu]. rewrite Hd, Hu.
      pose proof (filter_split_source E C n Hn). pose proof (filter_split_target E C n Hn).
      pose proof (length_filter (fun c => c ∉ {[n]} ∪ C) (map target (filter (fun e => source e = n) E))).
      pose proof (length_filter (fun p => p ∉ {[n]} ∪ C) (map source (filter (fun e => target e = n) E))).
      rewrite !length_map in *.
      destruct (IH (q ++ filter (fun c => c ∉ {[n]} ∪ C) (map target (filter (fun e => source e = n) E))
                   ++ filter (fun p => p ∉ {[n]} ∪ C) (map source (filter (fun e => target e = n) E)))
                   ({[n]} ∪ C)) as (C' & HC1 & HC2 & HC3 & HC4).
      * rewrite !length_app. simpl in Hf. lia.
      * intros x. rewrite !elem_of_app, !list_elem_of_filter, !elem_of_map.
        intros [Hx | [[_ (e & -> & He)] | [_ (e & -> & He)]]]; [apply Hq; by right| |];
          apply list_elem_of_filter in He as [_ He]; apply HK, He.
      * assert (n ∈ K) by (apply Hq; by left). set_solver.
      * exists C'. split_and!; [done|set_solver| |done].
        intros x Hx. apply elem_of_cons in Hx as [-> | Hx]; [set_solver|].
        apply HC3. rewrite elem_of_app. by left.
Qed.

End clusters.

Lemma find_clusters_some g :
  edges_closed g →
  ∃ cs, _find_clusters g = Some cs ∧
        (∀ C, C ∈ cs → ∀ x, x ∈ C → x ∈ node_keys g) ∧
        (∀ k, k ∈ node_keys g → ∃ C, C ∈ cs ∧ k ∈ C).
Proof.
  intros Hcl. set (K := list_to_set (node_keys g) : gset string).
  assert (HK : ∀ e, e ∈ edges g → source e ∈ K ∧ target e ∈ K).
  { intros e He. unfold K. rewrite !elem_of_list_to_set. by apply Hcl. }
  unfold _find_clusters. destruct (build_adj (edges g)) as [down up] eqn:Eadj.
  match goal with |- context [fold_left ?F (node_keys g) _] => set (Fn := F) end.
  assert (Hfold : ∀ l vis cs, (∀ k, k ∈ l → k ∈ node_keys g) →
            (∀ C, C ∈ cs → C ⊆ K) → (∀ x, x ∈ vis → ∃ C, C ∈ cs ∧ x ∈ C) →
            ∃ vis' cs', fold_left Fn l (Some (vis, cs)) = Some (vis', cs') ∧
              (∀ C, C ∈ cs' → C ⊆ K) ∧ (∀ x, x ∈ vis' → ∃ C, C ∈ cs' ∧ x ∈ C) ∧
              vis ⊆ vis' ∧ (∀ k, k ∈ l → k ∈ vis')).
  { induction l as [|n l IH]; intros vis cs Hl Hcs Hvis; cbn [fold_left].
    - exists vis, cs. split_and!; [done|done|done|done|]. intros k Hk. by apply elem_of_nil in Hk.
    - destruct (decide (n ∈ vis)) as [Hn|Hn].
      + assert (Fn (Some (vis, cs)) n = Some (vis, cs)) as -> by (unfold Fn; by rewrite decide_True).
        destruct (IH vis cs) as (vis' & cs' & H1 & H2 & H3 & H4 & H5);
          [intros k Hk; apply Hl; by right|done|done|].
        exists vis', cs'. split_and!; [done|done|done|done|].
        intros k Hk. apply elem_of_cons in Hk as [-> | Hk]; [set_solver|auto].
      + destruct (bfs_cluster_some (edges g) K HK (cluster_fuel g) [n] ∅) as (C' & HC1 & _ & HC3 & HC4).
        * eapply Nat.le_lt_trans;
            [apply Nat.add_le_mono; [apply Nat.add_le_mono; [reflexivity|apply length_filter]
                                    |apply length_filter]|].
          unfold cluster_fuel. simpl. lia.
        * intros x Hx. apply list_elem_of_singleton in Hx as ->. unfold K.
          rewrite elem_of_list_to_set. apply Hl. by left.
        * set_solver.
        * rewrite Eadj in HC1. cbn [fst snd] in HC1.
          assert (Fn (Some (vis, cs)) n = Some (vis ∪ C', cs ++ [C'])) as ->
            by (unfold Fn; rewrite decide_False by done; by rewrite HC1).
          assert (HnC : n ∈ C') by (apply HC3; by left).
          destruct (IH (vis ∪ C') (cs ++ [C'])) as (vis' & cs' & H1 & H2 & H3 & H4 & H5).
          -- intros k Hk. apply Hl. by right.
          -- intros C. rewrite elem_of_app, list_elem_of_singleton. intros [HC | ->]; auto.
          -- intros x. rewrite elem_of_union. intros [Hx | Hx].
             ++ destruct (Hvis x Hx) as (C & HC & HxC). exists C. rewrite elem_of_app. auto.
             ++ exists C'. rewrite elem_of_app, list_elem_of_singleton. auto.
          -- exists vis', cs'. split_and!; [done|done|done|set_solver|].
             intros k Hk. apply elem_of_cons in Hk as [-> | Hk]; [set_solver|auto]. }
  destruct (Hfold (node_keys g) ∅ []) as (vis' & cs' & -> & H2 & H3 & _ & H5); [done|set_solver|set_solver|].
  exists cs'. split_and!; [done| |].
  - intros C HC x Hx. apply (H2 C HC) in Hx. unfold K in Hx. by apply elem_of_list_to_set in Hx.
  - intros k Hk. by apply H3, H5.
Qed.

(** *** Placement: which names receive a position *)

Lemma group_by_level_fold (levels : gmap string nat) (l : list string) (m : gmap nat (list string)) :
  (∀ k, k ∈ l → is_Some (levels !! k)) →
  ∃ m', fold_left (fun acc node_id =>
      match acc with
      | None => None
      | Some m => match levels !! node_id with
                  | None => None
                  | Some lvl => Some (<[lvl := default [] (m !! lvl) ++ [node_id]]> m)
                  end
      end) l (Some m) = Some m' ∧
    ∀ k, (∃ lvl ns, m' !! lvl = Some ns ∧ k ∈ ns) ↔ (∃ lvl ns, m !! lvl = Some ns ∧ k ∈ ns) ∨ k ∈ l.
Proof.
  revert m. induction l as [|n l IH]; intros m Hl; cbn [fold_left].
  - exists m. split; [done|]. intros k. rewrite elem_of_nil. tauto.
  - destruct (Hl n ltac:(by left)) as [lvl Hlvl]. rewrite Hlvl.
    destruct (IH (<[lvl := default [] (m !! lvl) ++ [n]]> m)) as (m' & -> & Hm');
      [intros k Hk; apply Hl; by right|].
    exists m'. split; [done|]. intros k. rewrite Hm', elem_of_cons. split.
    + intros [(lvl' & ns & Hns & Hk) | Hk]; [|tauto].
      rewrite lookup_insert in Hns. case_decide as Heq; [subst lvl'|left; eauto].
      injection Hns as <-. rewrite elem_of_app, list_elem_of_singleton in Hk.
      destruct Hk as [Hk | ->]; [|tauto]. left.
      destruct (m !! lvl) as [ns0|] eqn:E0; simpl in Hk; [eauto|by apply elem_of_nil in Hk].
    + intros [(lvl' & ns & Hns & Hk) | [-> | Hk]]; [| |tauto].
      * left. destruct (decide (lvl = lvl')) as [<- | Hne].
        -- exists lvl, (ns ++ [n]). rewrite lookup_insert_eq, Hns. simpl. split; [done|].
           rewrite elem_of_app. by left.
        -- exists lvl', ns. by rewrite lookup_insert_ne.
      * left. exists lvl, (default [] (m !! lvl) ++ [n]). rewrite lookup_insert_eq.
        split; [done|]. rewrite elem_of_app, list_elem_of_singleton. by right.
Qed.

Lemma group_by_level_some (levels : gmap string nat) (C : gset string) :
  (∀ k, k ∈ C → is_Some (levels !! k)) →
  ∃ cbl, group_by_level levels C = Some cbl ∧
         ∀ k, k ∈ C ↔ ∃ lvl ns, cbl !! lvl = Some ns ∧ k ∈ ns.
Proof.
  intros HC. destruct (group_by_level_fold levels (elements C) ∅) as (cbl & Hf & Hcbl).
  { intros k Hk. apply HC. by apply elem_of_elements. }
  exists cbl. split; [apply Hf|]. intros k. rewrite Hcbl, elem_of_elements.
  split; [tauto|]. intros [(lvl & ns & Hns & _) | Hk]; [by rewrite lookup_empty in Hns|done].
Qed.

Lemma place_column_dom x y_offset i ns (pos : Positions) k :
  is_Some (place_column x y_offset i ns pos !! k) ↔ is_Some (pos !! k) ∨ k ∈ ns.
Proof.
  revert i pos. induction ns as [|n ns IH]; intros i pos; simpl.
  - rewrite elem_of_nil. tauto.
  - rewrite IH, elem_of_cons, lookup_insert. case_decide; subst; [|naive_solver].
    split; [intros _; right; by left|intros _; left; eauto].
Qed.

Lemma fold_dom {A} (F : Positions → A → Positions) (names : A → list string) (cols : list A) :
  (∀ p c k, is_Some (F p c !! k) ↔ is_Some (p !! k) ∨ k ∈ names c) →
  ∀ pos k, is_Some (fold_left F cols pos !! k) ↔ is_Some (pos !! k) ∨ ∃ c, c ∈ cols ∧ k ∈ names c.
Proof.
  intros HF. induction cols as [|c cols IH]; intros pos k; simpl.
  - split; [tauto|]. intros [? | (c & Hc & _)]; [done|by apply elem_of_nil in Hc].
  - rewrite IH, HF. setoid_rewrite elem_of_cons. naive_solver.
Qed.

Lemma sorted_levels_elem (cbl : gmap nat (list string)) lvl :
  lvl ∈ sorted_levels cbl ↔ is_Some (cbl !! lvl).
Proof.
  unfold sorted_levels. rewrite stable_sort_perm, elem_of_map. split.
  - intros ([l ns] & -> & H). apply elem_of_map_to_list in H. simpl. eauto.
  - intros [ns Hns]. exists (lvl, ns). split; [done|]. by apply elem_of_map_to_list.
Qed.

Lemma sort_level_elem (im : gmap string (list string)) (pos : Positions) lvl ns k :
  k ∈ sort_level im pos lvl ns ↔ k ∈ ns.
Proof.
  unfold sort_level. destruct (Nat.eqb lvl 0).
  - by rewrite sort_strings_perm.
  - by rewrite stable_sort_perm.
Qed.

Lemma place_cluster_some (levels : gmap string nat) (im : gmap string (list string))
    (C : gset string) (pos : Positions) (cy : Q) :
  (∀ k, k ∈ C → is_Some (levels !! k)) →
  ∃ pos' cy', place_cluster levels im C pos cy = Some (pos', cy') ∧
              ∀ k, is_Some (pos' !! k) ↔ is_Some (pos !! k) ∨ k ∈ C.
Proof.
  intros HC. destruct (group_by_level_some levels C HC) as (cbl & Hg & Hcbl).
  unfold place_cluster. rewrite Hg.
  match goal with |- context [fold_left ?F ?cols pos] => set (Fc := F); set (cs := cols) end.
  eexists _, _. split; [reflexivity|]. intros k.
  rewrite (fold_dom Fc snd cs).
  - rewrite Hcbl. unfold cs. split; (intros [H | H]; [by left|right]).
    + destruct H as (c & Hc & Hk). apply elem_of_map in Hc as (lvl & -> & Hlvl).
      simpl in Hk. rewrite sort_level_elem in Hk. apply sorted_levels_elem in Hlvl as [ns Hns].
      exists lvl, ns. rewrite Hns in Hk. done.
    + destruct H as (lvl & ns & Hns & Hk).
      eexists. split; [apply elem_of_map; exists lvl; split; [reflexivity|]|].
      * apply sorted_levels_elem. eauto.
      * simpl. rewrite sort_level_elem, Hns. done.
  - intros p [lvl ns] k'. unfold Fc. apply place_column_dom.
Qed.

Lemma place_clusters_some (levels : gmap string nat) (im : gmap string (list string))
    (cs : list (gset string)) :
  (∀ C, C ∈ cs → ∀ k, k ∈ C → is_Some (levels !! k)) →
  ∃ pos cy, place_clusters levels im cs = Some (pos, cy) ∧
            ∀ k, is_Some (pos !! k) ↔ ∃ C, C ∈ cs ∧ k ∈ C.
Proof.
  intros Hcs. unfold place_clusters.
  assert (Hfold : ∀ cs' (pos : Positions) cy, (∀ C, C ∈ cs' → ∀ k, k ∈ C → is_Some (levels !! k)) →
            ∃ pos' cy', fold_left (fun acc cluster =>
                match acc with
                | None => None
                | Some (pos, cy) => place_cluster levels im cluster pos cy
                end) cs' (Some (pos, cy)) = Some (pos', cy') ∧
              ∀ k, is_Some (pos' !! k) ↔ is_Some (pos !! k) ∨ ∃ C, C ∈ cs' ∧ k ∈ C).
  { induction cs' as [|C cs' IH]; intros pos cy Hc; cbn [fold_left].
    - eexists _, _. split; [done|]. intros k. split; [tauto|].
      intros [? | (C & HC & _)]; [done|by apply elem_of_nil in HC].
    - destruct (place_cluster_some levels im C pos cy) as (pos1 & cy1 & -> & H1).
      { apply Hc. by left. }
      destruct (IH pos1 cy1) as (pos2 & cy2 & -> & H2); [intros C' HC'; apply Hc; by right|].
      eexists _, _. split; [done|]. intros k. rewrite H2, H1. setoid_rewrite elem_of_cons.
      naive_solver. }
  destruct (Hfold cs ∅ 0%Q Hcs) as (pos & cy & -> & H). eexists _, _. split; [done|].
  intros k. rewrite H, lookup_empty. split; [|tauto]. intros [H' | H']; [by destruct H'|done].
Qed.

Lemma recenter_dom (pos : Positions) k : is_Some (recenter pos !! k) ↔ is_Some (pos !! k).
Proof.
  unfold recenter. case_decide; [done|]. rewrite lookup_fmap. apply fmap_is_Some.
Qed.

(** *** Placement: distinct names get distinct positions *)

Lemma Qofnat_inj i j : (Qofnat i == Qofnat j)%Q → i = j.
Proof. unfold Qofnat. rewrite inject_Z_injective. lia. Qed.

Lemma Qofnat_le i j : (i ≤ j)%nat → (Qofnat i <= Qofnat j)%Q.
Proof. intros H. unfold Qofnat. rewrite <- Zle_Qle. lia. Qed.

Lemma Qofnat_S i : (Qofnat (S i) == Qofnat i + 1)%Q.
Proof. unfold Qofnat. rewrite Nat2Z.inj_succ, <- Z.add_1_r, inject_Z_plus. reflexivity. Qed.

Lemma coord_inj_empty : coord_inj ∅.
Proof. intros u v xu yu xv yv Hu. discriminate Hu. Qed.

Lemma place_column_inj (P : Q → Q → Prop) x yo ns : ∀ i (p : Positions),
  coord_inj p →
  (∀ k x' y', p !! k = Some (x', y') →
     P x' y' ∨ ((x' == x)%Q ∧ ∃ j, (j < i)%nat ∧ (y' == yo + Qofnat j * y_spacing)%Q)) →
  (∀ x' y' j, P x' y' → ¬ ((x' == x)%Q ∧ (y' == yo + Qofnat j * y_spacing)%Q)) →
  coord_inj (place_column x yo i ns p) ∧
  (∀ k x' y', place_column x yo i ns p !! k = Some (x', y') →
     P x' y' ∨ ((x' == x)%Q ∧ ∃ j, (j < i + List.length ns)%nat ∧ (y' == yo + Qofnat j * y_spacing)%Q)).
Proof.
  induction ns as [|n ns IH]; intros i p Hinj Hinv Hdisj; simpl.
  - split; [done|]. intros k x' y' Hk. rewrite Nat.add_0_r. by apply (Hinv k).
  - assert (Hnew : ∀ k x' y', p !! k = Some (x', y') → k ≠ n →
              ¬ ((x' == x)%Q ∧ (y' == yo + Qofnat i * y_spacing)%Q)).
    { intros k x' y' Hk Hkn [Hx Hy]. destruct (Hinv k x' y' Hk) as [HP | [_ (j & Hj & Hy')]].
      - by apply (Hdisj x' y' i HP).
      - assert (Qofnat j == Qofnat i)%Q as Hji by (unfold y_spacing in *; lra).
        apply Qofnat_inj in Hji. lia. }
    destruct (IH (S i) (<[n := (x, yo + Qofnat i * y_spacing)%Q]> p)) as [H1 H2].
    + intros u v xu yu xv yv Hu Hv Huv.
      destruct (decide (u = n)) as [-> | Hun]; destruct (decide (v = n)) as [-> | Hvn];
        rewrite ?lookup_insert_eq in Hu; rewrite ?lookup_insert_eq in Hv;
        rewrite ?lookup_insert_ne in Hu by congruence; rewrite ?lookup_insert_ne in Hv by congruence.
      * done.
      * injection Hu as <- <-. intros [Hx Hy]. apply (Hnew v xv yv Hv Hvn). split; by symmetry.
      * injection Hv as <- <-. by apply (Hnew u xu yu Hu Hun).
      * by apply (Hinj u v xu yu xv yv).
    + intros k x' y' Hk.
      destruct (decide (k = n)) as [-> | Hkn];
        [rewrite lookup_insert_eq in Hk|rewrite lookup_insert_ne in Hk by congruence].
      * injection Hk as <- <-. right. split; [reflexivity|]. exists i. split; [lia|reflexivity].
      * destruct (Hinv k x' y' Hk) as [HP | [Hx (j & Hj & Hy)]]; [by left|].
        right. split; [done|]. exists j. split; [lia|done].
    + done.
    + split; [done|]. intros k x' y' Hk. rewrite Nat.add_succ_r, <- Nat.add_succ_l. by apply (H2 k).
Qed.

Lemma max_rows_fold (cols : list (nat * list string)) a :
  (a ≤ fold_left (fun acc '(_, ns) => Nat.max acc (List.length ns)) cols a)%nat ∧
  ∀ c, c ∈ cols → (List.length c.2 ≤ fold_left (fun acc '(_, ns) => Nat.max acc (List.length ns)) cols a)%nat.
Proof.
  revert a. induction cols as [|[l ns] cols IH]; intros a; simpl.
  - split; [lia|]. intros c Hc. by apply elem_of_nil in Hc.
  - destruct (IH (Nat.max a (List.length ns))) as [H1 H2]. split; [lia|].
    intros c Hc. apply elem_of_cons in Hc as [-> | Hc]; [simpl; lia|auto].
Qed.

Lemma columns_inj cy max_rows (cols : list (nat * list string)) : ∀ (D : list nat) (p : Positions),
  (∀ c, c ∈ cols → (List.length c.2 ≤ max_rows)%nat) →
  NoDup (map fst cols) → (∀ c, c ∈ cols → c.1 ∉ D) →
  coord_inj p →
  (∀ k x' y', p !! k = Some (x', y') →
     (y' < cy)%Q ∨ ((∃ l, l ∈ D ∧ (x' == Qofnat l * x_spacing + 80)%Q) ∧
                    (cy <= y')%Q ∧ (y' <= cy + (Qofnat max_rows - 1) * y_spacing)%Q)) →
  let p' := fold_left (fun p '(lvl, ns) =>
              place_column (Qofnat lvl * x_spacing + 80)%Q
                (cy + ((Qofnat max_rows - 1) * y_spacing - (Qofnat (List.length ns) - 1) * y_spacing) / 2)%Q
                0 ns p) cols p in
  coord_inj p' ∧
  (∀ k x' y', p' !! k = Some (x', y') →
     (y' < cy)%Q ∨ ((∃ l, l ∈ D ∨ l ∈ map fst cols) ∧
                    (cy <= y')%Q ∧ (y' <= cy + (Qofnat max_rows - 1) * y_spacing)%Q)).
Proof.
  induction cols as [|[lvl ns] cols IH]; intros D p Hlen Hnd HD Hinj Hinv; simpl.
  - split; [done|]. intros k x' y' Hk. destruct (Hinv k x' y' Hk) as [H | ((l & Hl & _) & H)];
      [by left|right; split; [exists l; by left|done]].
  - apply NoDup_cons in Hnd as [Hlvl Hnd].
    assert (Hl : (List.length ns ≤ max_rows)%nat) by (apply (Hlen (lvl, ns)); by left).
    apply Qofnat_le in Hl.
    set (yo := (cy + ((Qofnat max_rows - 1) * y_spacing - (Qofnat (List.length ns) - 1) * y_spacing) / 2)%Q).
    assert (Hyo : (yo * 2 == 2 * cy + (Qofnat max_rows - 1) * y_spacing - (Qofnat (List.length ns) - 1) * y_spacing)%Q)
      by (unfold yo; field).
    set (P := fun x' y' => (y' < cy)%Q ∨ ((∃ l, l ∈ D ∧ (x' == Qofnat l * x_spacing + 80)%Q) ∧
                    (cy <= y')%Q ∧ (y' <= cy + (Qofnat max_rows - 1) * y_spacing)%Q)).
    destruct (place_column_inj P (Qofnat lvl * x_spacing + 80)%Q yo ns 0 p Hinj) as [H1 H2].
    + intros k x' y' Hk. left. by apply (Hinv k).
    + intros x' y' j [Hy | ((l & Hl' & Hx) & _)] [Hx' Hy'].
      * pose proof (Qofnat_le 0 j ltac:(lia)) as Hj. change (Qofnat 0) with 0%Q in Hj.
        unfold y_spacing in *. lra.
      * assert (Qofnat l == Qofnat lvl)%Q as Hll by (unfold x_spacing in *; lra).
        apply Qofnat_inj in Hll. subst l. apply (HD (lvl, ns)); [by left|done].
    + destruct (IH (lvl :: D) (place_column (Qofnat lvl * x_spacing + 80)%Q yo 0 ns p)) as [H3 H4].
      * intros c Hc. apply Hlen. by right.
      * done.
      * intros c Hc. rewrite elem_of_cons. intros [Heq | Hc']; [|by apply (HD c); [right|]].
        apply Hlvl. rewrite <- Heq. apply elem_of_map. exists c. split; [done|done].
      * done.
      * intros k x' y' Hk. destruct (H2 k x' y' Hk) as [[Hy | ((l & Hl' & Hx) & Hy)] | [Hx (j & Hj & Hy)]].
        -- by left.
        -- right. split; [exists l; split; [by right|done]|done].
        -- right. simpl in Hj. apply Qofnat_le in Hj. rewrite Qofnat_S in Hj.
           pose proof (Qofnat_le 0 j ltac:(lia)) as Hj0. change (Qofnat 0) with 0%Q in Hj0.
           split; [exists lvl; split; [by left|done]|]. unfold y_spacing in *. split; lra.
      * split; [done|]. intros k x' y' Hk. destruct (H4 k x' y' Hk) as [Hy | ((l & Hl') & Hy)]; [by left|].
        right. split; [|done]. exists l. rewrite elem_of_cons in Hl'. rewrite elem_of_cons. tauto.
Qed.

Lemma map_fmap_list {A B} (f : A → B) (l : list A) : map f l = f <$> l.
Proof. induction l as [|x l IH]; simpl; [done|]. by rewrite IH. Qed.

Lemma sorted_levels_NoDup (cbl : gmap nat (list string)) : NoDup (sorted_levels cbl).
Proof.
  unfold sorted_levels. rewrite stable_sort_perm, map_fmap_list. apply NoDup_fst_map_to_list.
Qed.

Lemma place_cluster_inj (levels : gmap string nat) (im : gmap string (list string))
    (C : gset string) (pos pos' : Positions) (cy cy' : Q) :
  coord_inj pos → (∀ k x y, pos !! k = Some (x, y) → (y < cy)%Q) →
  place_cluster levels im C pos cy = Some (pos', cy') →
  coord_inj pos' ∧ (∀ k x y, pos' !! k = Some (x, y) → (y < cy')%Q).
Proof.
  intros Hinj Hlt. unfold place_cluster. destruct (group_by_level levels C) as [cbl|]; [|done].
  set (cols := map (fun lvl => (lvl, sort_level im pos lvl (default [] (cbl !! lvl)))) (sorted_levels cbl)).
  set (max_rows := fold_left (fun acc '(_, ns) => Nat.max acc (List.length ns)) cols 0).
  intros [= <- <-].
  pose proof (columns_inj cy max_rows cols [] pos) as Hc. cbv zeta in Hc.
  destruct Hc as [H1 H2].
  - intros c Hc. apply (max_rows_fold cols 0). done.
  - unfold cols. rewrite map_map. simpl. rewrite map_id. apply sorted_levels_NoDup.
  - intros c _ Hc. by apply elem_of_nil in Hc.
  - done.
  - intros k x' y' Hk. left. by apply (Hlt k x').
  - split; [exact H1|]. intros k x y Hk. destruct (H2 k x y Hk) as [Hy | (_ & Hy1 & Hy2)].
    + unfold cluster_gap, y_spacing in *. pose proof (Qofnat_le 0 max_rows ltac:(lia)) as H0.
      change (Qofnat 0) with 0%Q in H0. lra.
    + unfold cluster_gap, y_spacing in *. lra.
Qed.

Lemma place_clusters_inj (levels : gmap string nat) (im : gmap string (list string))
    (cs : list (gset string)) (pos : Positions) (cy : Q) :
  place_clusters levels im cs = Some (pos, cy) → coord_inj pos.
Proof.
  unfold place_clusters.
  assert (Hfold : ∀ cs' (p : Positions) c p' c',
            coord_inj p → (∀ k x y, p !! k = Some (x, y) → (y < c)%Q) →
            fold_left (fun acc cluster =>
                match acc with
                | None => None
                | Some (pos, cy) => place_cluster levels im cluster pos cy
                end) cs' (Some (p, c)) = Some (p', c') → coord_inj p').
  { induction cs' as [|C cs' IH]; intros p c p' c' Hinj Hlt; cbn [fold_left].
    - by intros [= <- <-].
    - destruct (place_cluster levels im C p c) as [[p1 c1]|] eqn:E1.
      + destruct (place_cluster_inj levels im C p p1 c c1 Hinj Hlt E1) as [H1 H2].
        by apply IH.
      + clear. induction cs' as [|C' cs' IHc]; simpl; [done|]. apply IHc. }
  intros H. apply (Hfold cs ∅ 0%Q pos cy); [apply coord_inj_empty| |done].
  intros k x y Hk. discriminate Hk.
Qed.

Lemma recenter_inj (pos : Positions) : coord_inj pos → coord_inj (recenter pos).
Proof.
  intros Hinj. unfold recenter. case_decide; [done|].
  intros u v xu yu xv yv Hu Hv Huv. rewrite lookup_fmap in Hu, Hv.
  destruct (pos !! u) as [[xu0 yu0]|] eqn:Eu; [|discriminate Hu].
  destruct (pos !! v) as [[xv0 yv0]|] eqn:Ev; [|discriminate Hv].
  simpl in Hu, Hv. injection Hu as <- <-. injection Hv as <- <-.
  intros [Hx Hy]. apply (Hinj u v xu0 yu0 xv0 yv0 Eu Ev Huv). split; [done|lra].
Qed.

Lemma Qmin_shift a b c : Qmin (a - c) (b - c) = (Qmin a b - c)%Q.
Proof.
  unfold Qmin, GenericMinMax.gmin.
  destruct (Qcompare_spec a b), (Qcompare_spec (a - c) (b - c)); try reflexivity; exfalso; lra.
Qed.

Lemma Qmax_shift a b c : Qmax (a - c) (b - c) = (Qmax a b - c)%Q.
Proof.
  unfold Qmax, GenericMinMax.gmax.
  destruct (Qcompare_spec a b), (Qcompare_spec (a - c) (b - c)); try reflexivity; exfalso; lra.
Qed.

Lemma fold_Qmin_shift ys y c :
  fold_left Qmin (map (fun v => v - c)%Q ys) (y - c)%Q = (fold_left Qmin ys y - c)%Q.
Proof. revert y. induction ys as [|v ys IH]; intros y; simpl; [done|]. by rewrite Qmin_shift. Qed.

Lemma fold_Qmax_shift ys y c :
  fold_left Qmax (map (fun v => v - c)%Q ys) (y - c)%Q = (fold_left Qmax ys y - c)%Q.
Proof. revert y. induction ys as [|v ys IH]; intros y; simpl; [done|]. by rewrite Qmax_shift. Qed.

Lemma all_ys_shift (pos : Positions) c :
  all_ys ((fun '(x, y) => (x, y - c)%Q) <$> pos) = map (fun v => v - c)%Q (all_ys pos).
Proof.
  unfold all_ys. rewrite map_to_list_fmap, !map_map. apply map_ext. by intros [k [x y]].
Qed.

Lemma recenter_centered (pos : Positions) :
  pos ≠ ∅ → (list_min (all_ys (recenter pos)) + list_max (all_ys (recenter pos)) == 0)%Q.
Proof.
  intros Hne. unfold recenter. rewrite decide_False by done. rewrite all_ys_shift.
  assert (Hys : all_ys pos ≠ []).
  { unfold all_ys. intros Hn. apply Hne, map_to_list_empty_iff.
    by apply map_eq_nil in Hn. }
  destruct (all_ys pos) as [|y ys]; [done|]. unfold list_min, list_max. simpl.
  rewrite fold_Qmin_shift, fold_Qmax_shift. generalize (fold_left Qmin ys y) (fold_left Qmax ys y). intros m M. field.
Qed.

Lemma calculate_positions_recenter g pos :
  calculate_positions g = Some pos → pos = ∅ ∨ ∃ p, p ≠ ∅ ∧ pos = recenter p.
Proof.
  unfold calculate_positions. destruct (nodes g); [intros [= <-]; by left|].
  destruct (compute_levels g); [|done]. destruct (_find_clusters g); [|done].
  destruct (place_clusters _ _ _) as [[p0 cy]|]; [|done]. intros [= <-].
  destruct (decide (p0 = ∅)) as [->|Hp]; [left; unfold recenter; by case_decide|right; eauto].
Qed.

End LayoutFacts.

Module BuildFacts.
Import Parser Graph Props GraphFacts SortFacts ParserFacts.

Lemma has_char_cons c d s : has_char c (String d s) = Ascii.eqb d c || has_char c s.
Proof. reflexivity. Qed.

Lemma has_char_app c a b : has_char c (a +:+ b) = has_char c a || has_char c b.
Proof.
  induction a as [|d a IH]; [reflexivity|].
  rewrite append_cons, !has_char_cons, IH. apply orb_assoc.
Qed.

Lemma has_dot_char s : has_dot s = has_char "." s.
Proof. induction s as [|c s IH]; [done|]. simpl. by rewrite IH. Qed.

Lemma has_char_lstrip c s : has_char c (lstrip s) = true → has_char c s = true.
Proof.
  induction s as [|d s IH]; simpl; [done|].
  destruct (is_space d); [|done]. intros H. rewrite has_char_cons, (IH H). apply orb_true_r.
Qed.

Lemma existsb_rev {A} (f : A → bool) l : existsb f (rev l) = existsb f l.
Proof.
  induction l as [|x l IH]; simpl; [done|].
  rewrite existsb_app, IH. simpl. by rewrite orb_false_r, orb_comm.
Qed.

Lemma has_char_rev c s :
  has_char c (string_of_list_ascii (rev (list_ascii_of_string s))) = has_char c s.
Proof. unfold has_char. by rewrite list_ascii_of_string_of_list_ascii, existsb_rev. Qed.

Lemma has_char_strip c s : has_char c (strip s) = true → has_char c s = true.
Proof.
  unfold strip. rewrite has_char_rev. intros H.
  apply has_char_lstrip in H. rewrite has_char_rev in H. by apply has_char_lstrip.
Qed.

Lemma has_char_remove_backticks s : has_char "`" (remove_backticks s) = false.
Proof.
  induction s as [|c s IH]; [done|]. simpl.
  destruct (is_backtick c) eqn:E; [done|]. rewrite has_char_cons, IH.
  unfold is_backtick in E. by rewrite E.
Qed.

Lemma qualify_dot r d : has_char "." (_qualify_table_name r d) = true.
Proof.
  unfold _qualify_table_name. destruct (has_dot _) eqn:E; [by rewrite <- has_dot_char|].
  rewrite !has_char_app. change (has_char "." ".") with true.
  by destruct (has_char "." d).
Qed.

Lemma qualify_backtick r d :
  has_char "`" (_qualify_table_name r d) = true → has_char "`" d = true.
Proof.
  unfold _qualify_table_name. destruct (has_dot _); intros H.
  - apply has_char_strip in H. by rewrite has_char_remove_backticks in H.
  - rewrite !has_char_app in H. destruct (has_char "`" d); [done|].
    change (has_char "`" ".") with false in H. rewrite !orb_false_l in H.
    apply has_char_strip in H. by rewrite has_char_remove_backticks in H.
Qed.

Lemma parse_source_tables_elem q d x :
  x ∈ parse_source_tables q d → ∃ r, x = _qualify_table_name r d.
Proof.
  unfold parse_source_tables. destruct (search_as_select None q) as [sp|]; [|set_solver].
  rewrite sort_strings_perm. intros Hx.
  apply (fold_set_add_spec _ [] NoDup_nil_2) in Hx as [Hx|Hx]; [set_solver|].
  unfold select_refs in Hx.
  apply elem_of_app in Hx as [Hx|Hx]; apply LayoutFacts.elem_of_map in Hx as [r [-> _]]; eauto.
Qed.

Lemma merge_deps_elem srcs dbs tbs x :
  x ∈ merge_deps srcs dbs tbs → x ∈ srcs ∨ ∃ a b, x = a +:+ "." +:+ b.
Proof.
  unfold merge_deps. destruct dbs as [dbs|], tbs as [tbs|]; auto.
  revert srcs. induction (zip dbs tbs) as [|[a b] l IH]; intros acc Hx; simpl in Hx; [auto|].
  apply IH in Hx as [Hx|Hx]; [|auto].
  case_decide; [auto|]. apply elem_of_app in Hx as [Hx|Hx]; [auto|].
  apply list_elem_of_singleton in Hx. right. eauto.
Qed.

Lemma row_sources_dot row x : x ∈ row_sources row → has_char "." x = true.
Proof.
  unfold row_sources. intros Hx. apply merge_deps_elem in Hx as [Hx|(a & b & ->)].
  - apply parse_source_tables_elem in Hx as [r ->]. apply qualify_dot.
  - rewrite !has_char_app. change (has_char "." ".") with true. by destruct (has_char "." a).
Qed.

Lemma parse_target_dot q d m : has_char "." (fst (parse_target_table q d m)) = true.
Proof.
  unfold parse_target_table. destruct (find_refs "TO" q); simpl; [|apply qualify_dot].
  rewrite has_char_app. destruct (has_char "." d); reflexivity.
Qed.

Lemma split_first_dot_spec s :
  has_char "." s = true → ∃ a b, split_first_dot s = Some (a, b) ∧ s = a +:+ "." +:+ b.
Proof.
  induction s as [|c s IH]; [done|]. rewrite has_char_cons. simpl.
  destruct (Ascii.eqb c ".") eqn:E.
  - intros _. apply Ascii.eqb_eq in E. subst. by exists "", s.
  - simpl. intros H. destruct (IH H) as (a & b & -> & ->).
    exists (String c a), b. split; [done|]. by rewrite append_cons.
Qed.

Lemma split_db_name_dot s db :
  has_char "." s = true → (split_db_name s db).1 +:+ "." +:+ (split_db_name s db).2 = s.
Proof.
  intros H. unfold split_db_name. by destruct (split_first_dot_spec s H) as (a & b & -> & ->).
Qed.

Lemma add_source_names_match el db mvf g src :
  has_char "." src = true → names_match g → names_match (add_source el db mvf g src).
Proof.
  intros Hs Hg k n. unfold add_source; simpl.
  destruct (dict_mem src (nodes g)); [apply Hg|].
  pose proof (split_db_name_dot src db Hs) as Hsp. destruct (split_db_name src db) as [a b].
  rewrite dict_get_set. case_decide as Hk; [|apply Hg]. intros [= <-]. subst k. exact Hsp.
Qed.

Lemma fold_add_source_names_match el db mvf srcs g :
  (∀ s, s ∈ srcs → has_char "." s = true) → names_match g →
  names_match (fold_left (add_source el db mvf) srcs g).
Proof.
  revert g. induction srcs as [|x srcs IH]; intros g Hs Hg; simpl; [done|].
  apply IH; [set_solver|]. apply add_source_names_match; [|done]. apply Hs. set_solver.
Qed.

Lemma build_step_names_match el g row : names_match g → names_match (build_step el g row).
Proof.
  intros Hg. unfold build_step.
  set (g1 := {| nodes := dict_set (row_database row +:+ "." +:+ row_name row) _ (nodes g) |}).
  assert (H1 : names_match g1).
  { intros k n. unfold g1; simpl. rewrite dict_get_set.
    case_decide as Hk; [|apply Hg]. intros [= <-]. by subst k. }
  pose proof (fold_add_source_names_match el (row_database row)
    (row_database row +:+ "." +:+ row_name row) (row_sources row) g1 (row_sources_dot row) H1) as H2.
  unfold row_sources in H2. set (g2 := fold_left _ _ g1) in *.
  pose proof (parse_target_dot (create_table_query row) (row_database row) (row_name row)) as Ht.
  destruct (parse_target_table (create_table_query row) (row_database row) (row_name row))
    as [tgt impl]. simpl in Ht.
  intros k n; simpl. destruct (dict_mem tgt (nodes g2)); [apply H2|].
  pose proof (split_db_name_dot tgt (row_database row) Ht) as Hsp.
  destruct (split_db_name tgt (row_database row)) as [a b].
  rewrite dict_get_set. case_decide as Hk; [|apply H2]. intros [= <-]. subst k. exact Hsp.
Qed.

Lemma build_lineage_names_match rows schema_df : names_match (build_lineage rows schema_df).
Proof.
  unfold build_lineage. generalize (build_engine_lookup schema_df). intros el.
  assert (H0 : names_match empty_graph) by (intros k n; discriminate).
  revert H0. generalize empty_graph.
  induction rows as [|r rows IH]; intros g Hg; simpl; [done|].
  apply IH. by apply build_step_names_match.
Qed.

Lemma fold_add_source_mv_names el db mvf srcs g :
  mv_names (fold_left (add_source el db mvf) srcs g) = mv_names g.
Proof. revert g. induction srcs as [|x srcs IH]; intros g; simpl; [done|]. by rewrite IH. Qed.

Lemma build_step_mv_names el g row :
  mv_names (build_step el g row) = {[view_full_name row]} ∪ mv_names g.
Proof.
  unfold build_step.
  destruct (parse_target_table (create_table_query row) (row_database row) (row_name row))
    as [tgt impl]; simpl. by rewrite fold_add_source_mv_names.
Qed.

Lemma fold_add_source_edges el db mvf srcs g :
  edges (fold_left (add_source el db mvf) srcs g) =
  edges g ++ map (fun s => {| source := s; target := mvf; mv_name := mvf |}) srcs.
Proof.
  revert g. induction srcs as [|x srcs IH]; intros g; simpl; [by rewrite app_nil_r|].
  rewrite IH. simpl. by rewrite <- app_assoc.
Qed.

Lemma build_step_edges el g row : edges (build_step el g row) = edges g ++ row_edges row.
Proof.
  unfold build_step, row_edges, row_target, row_sources.
  destruct (parse_target_table (create_table_query row) (row_database row) (row_name row))
    as [tgt impl]; simpl.
  rewrite fold_add_source_edges. simpl. by rewrite <- app_assoc.
Qed.

Lemma build_step_mv_engine el g row :
  (∀ k, k ∈ mv_names g → ∃ n, dict_get k (nodes g) = Some n ∧ engine n = "MaterializedView") →
  ∀ k, k ∈ mv_names (build_step el g row) →
    ∃ n, dict_get k (nodes (build_step el g row)) = Some n ∧ engine n = "MaterializedView".
Proof.
  intros Hg k. rewrite build_step_mv_names, elem_of_union, elem_of_singleton.
  intros [-> | Hk].
  - eexists. split; [apply build_step_view|reflexivity].
  - destruct (Hg k Hk) as (n & Hn & He). eexists. split; [apply (build_step_entry el g row k n Hn)|].
    by case_decide.
Qed.

End BuildFacts.

Module ClusterFacts.
Import Graph Layout Props LayoutFacts.

Lemma adj_down E n m : m ∈ dget (build_adj E).1 n ↔ ∃ e, e ∈ E ∧ source e = n ∧ target e = m.
Proof.
  rewrite (proj1 (build_adj_spec E n)), elem_of_map. setoid_rewrite list_elem_of_filter. naive_solver.
Qed.

Lemma adj_up E n m : m ∈ dget (build_adj E).2 n ↔ ∃ e, e ∈ E ∧ target e = n ∧ source e = m.
Proof.
  rewrite (proj2 (build_adj_spec E n)), elem_of_map. setoid_rewrite list_elem_of_filter. naive_solver.
Qed.

Section bfs.
Variable E : list LineageEdge.

Lemma bfs_cluster_closed fuel : ∀ q C C',
  bfs_cluster (build_adj E).1 (build_adj E).2 fuel q C = Some C' →
  (∀ e, e ∈ E → (source e ∈ C → target e ∈ C ∨ target e ∈ q) ∧
                (target e ∈ C → source e ∈ C ∨ source e ∈ q)) →
  C ⊆ C' ∧ (∀ x, x ∈ q → x ∈ C') ∧ (∀ e, e ∈ E → (source e ∈ C' ↔ target e ∈ C')).
Proof.
  induction fuel as [|f IH]; intros q C C' Hb Hinv; cbn [bfs_cluster] in Hb; [discriminate|].
  destruct q as [|n q].
  - injection Hb as <-. split_and!; [done|intros x Hx; by apply elem_of_nil in Hx|].
    intros e He. destruct (Hinv e He) as [H1 H2].
    split; intros Hx; [destruct (H1 Hx) as [?|Hq]|destruct (H2 Hx) as [?|Hq]];
      try done; by apply elem_of_nil in Hq.
  - case_decide as Hn.
    + destruct (IH q C C' Hb) as (H1 & H2 & H3).
      * intros e He. destruct (Hinv e He) as [Hs Ht].
        split; intros Hx; [destruct (Hs Hx) as [?|Hq]|destruct (Ht Hx) as [?|Hq]]; auto;
          apply elem_of_cons in Hq as [->|Hq]; auto.
      * split_and!; [done| |done]. intros x Hx.
        apply elem_of_cons in Hx as [->|Hx]; [set_solver|auto].
    + destruct (IH _ _ C' Hb) as (H1 & H2 & H3).
      * intros e He. destruct (Hinv e He) as [Hs Ht]. split.
        -- intros Hx. destruct (decide (target e ∈ {[n]} ∪ C)) as [Hin|Hout]; [by left|right].
           rewrite !elem_of_app, !list_elem_of_filter.
           apply elem_of_union in Hx as [Hx|Hx].
           ++ apply elem_of_singleton in Hx. right. left. split; [done|]. apply adj_down. eauto.
           ++ destruct (Hs Hx) as [Hc|Hq]; [set_solver|].
              apply elem_of_cons in Hq as [Hq|Hq]; [set_solver|by left].
        -- intros Hx. destruct (decide (source e ∈ {[n]} ∪ C)) as [Hin|Hout]; [by left|right].
           rewrite !elem_of_app, !list_elem_of_filter.
           apply elem_of_union in Hx as [Hx|Hx].
           ++ apply elem_of_singleton in Hx. right. right. split; [done|]. apply adj_up. eauto.
           ++ destruct (Ht Hx) as [Hc|Hq]; [set_solver|].
              apply elem_of_cons in Hq as [Hq|Hq]; [set_solver|by left].
      * split_and!; [set_solver| |done]. intros x Hx.
        apply elem_of_cons in Hx as [->|Hx]; [set_solver|]. apply H2. rewrite elem_of_app. by left.
Qed.

Lemma bfs_cluster_avoid (V : gset string) :
  (∀ e, e ∈ E → (source e ∈ V ↔ target e ∈ V)) →
  ∀ fuel q C C', bfs_cluster (build_adj E).1 (build_adj E).2 fuel q C = Some C' →
  (∀ x, x ∈ C → x ∉ V) → (∀ x, x ∈ q → x ∉ V) → ∀ x, x ∈ C' → x ∉ V.
Proof.
  intros HV. induction fuel as [|f IH]; intros q C C' Hb HC Hq; cbn [bfs_cluster] in Hb;
    [discriminate|].
  destruct q as [|n q].
  - by injection Hb as <-.
  - case_decide as Hn.
    + apply (IH q C C' Hb HC). intros x Hx. apply Hq. by right.
    + apply (IH _ _ C' Hb).
      * intros x. rewrite elem_of_union, elem_of_singleton. intros [-> | Hx]; [apply Hq; by left|auto].
      * intros x. rewrite !elem_of_app, !list_elem_of_filter, adj_down, adj_up.
        intros [Hx | [[_ (e & He & Hs & <-)] | [_ (e & He & Ht & <-)]]].
        -- apply Hq. by right.
        -- intros Hv. apply (Hq n); [by left|]. rewrite <- Hs. by apply HV.
        -- intros Hv. apply (Hq n); [by left|]. rewrite <- Ht. by apply HV.
Qed.

Lemma bfs_cluster_reach (s : string) : ∀ fuel q C C',
  bfs_cluster (build_adj E).1 (build_adj E).2 fuel q C = Some C' →
  (∀ x, x ∈ C → ureach E s x) → (∀ x, x ∈ q → ureach E s x) → ∀ x, x ∈ C' → ureach E s x.
Proof.
  induction fuel as [|f IH]; intros q C C' Hb HC Hq; cbn [bfs_cluster] in Hb; [discriminate|].
  destruct q as [|n q].
  - by injection Hb as <-.
  - case_decide as Hn.
    + apply (IH q C C' Hb HC). intros x Hx. apply Hq. by right.
    + apply (IH _ _ C' Hb).
      * intros x. rewrite elem_of_union, elem_of_singleton. intros [-> | Hx]; [apply Hq; by left|auto].
      * intros x. rewrite !elem_of_app, !list_elem_of_filter, adj_down, adj_up.
        intros [Hx | [[_ (e & He & Hs & <-)] | [_ (e & He & Ht & <-)]]].
        -- apply Hq. by right.
        -- apply ureach_fwd; [done|]. rewrite Hs. apply Hq. by left.
        -- apply ureach_bwd; [done|]. rewrite Ht. apply Hq. by left.
Qed.

End bfs.

Lemma fold_none {A B} (F : option A → B → option A) (l : list B) :
  (∀ b, F None b = None) → fold_left F l None = None.
Proof. intros HF. induction l as [|b l IH]; simpl; [done|]. by rewrite HF. Qed.

(** the invariant of the loop of [_find_clusters] *)
Definition clusters_inv (E : list LineageEdge) (vis : gset string) (cs : list (gset string)) : Prop :=
  (∀ x, x ∈ vis ↔ ∃ C, C ∈ cs ∧ x ∈ C) ∧ NoDup cs ∧
  (∀ C, C ∈ cs → (∃ s, s ∈ C ∧ ∀ x, x ∈ C → ureach E s x) ∧
                 ∀ e, e ∈ E → (source e ∈ C ↔ target e ∈ C)) ∧
  (∀ C1 C2, C1 ∈ cs → C2 ∈ cs → C1 ≠ C2 → C1 ## C2).

Lemma find_clusters_inv g cs :
  _find_clusters g = Some cs → clusters_inv (edges g) (⋃ cs) cs ∧ ∃ vis, clusters_inv (edges g) vis cs.
Proof.
  unfold _find_clusters. destruct (build_adj (edges g)) as [down up] eqn:Eadj.
  match goal with |- context [fold_left ?F (node_keys g) _] => set (Fn := F) end.
  assert (HN : ∀ l, fold_left Fn l None = None) by (intros l; apply fold_none; done).
  assert (Hfold : ∀ l vis cs vis' cs', clusters_inv (edges g) vis cs →
            fold_left Fn l (Some (vis, cs)) = Some (vis', cs') → clusters_inv (edges g) vis' cs').
  { induction l as [|n l IH]; intros vis cs0 vis' cs' Hinv; cbn [fold_left].
    - by intros [= <- <-].
    - destruct (decide (n ∈ vis)) as [Hn|Hn].
      + assert (Fn (Some (vis, cs0)) n = Some (vis, cs0)) as -> by (unfold Fn; by rewrite decide_True).
        by apply IH.
      + destruct (bfs_cluster down up (cluster_fuel g) [n] ∅) as [C'|] eqn:Eb.
        2:{ assert (Fn (Some (vis, cs0)) n = None) as -> by (unfold Fn; rewrite decide_False by done;
                                                           by rewrite Eb).
            by rewrite HN. }
        assert (Fn (Some (vis, cs0)) n = Some (vis ∪ C', cs0 ++ [C'])) as ->
          by (unfold Fn; rewrite decide_False by done; by rewrite Eb).
        apply IH. destruct Hinv as (Hvis & Hnd & Hcl & Hdj).
        assert (Eb' : bfs_cluster (build_adj (edges g)).1 (build_adj (edges g)).2 (cluster_fuel g) [n] ∅
                      = Some C') by (by rewrite Eadj).
        destruct (bfs_cluster_closed (edges g) _ _ _ _ Eb') as (_ & Hn' & HC').
        { intros e _. split; intros Hx; by apply elem_of_empty in Hx. }
        assert (HnC : n ∈ C') by (apply Hn'; by left).
        assert (Hav : ∀ x, x ∈ C' → x ∉ vis).
        { apply (bfs_cluster_avoid (edges g) vis) with (fuel := cluster_fuel g) (q := [n]) (C := ∅);
            [|exact Eb'|intros x Hx; by apply elem_of_empty in Hx|].
          - intros e He. rewrite !Hvis. split; intros (C & HC & Hx); exists C; split; try done;
              by apply (proj2 (Hcl C HC)).
          - intros x Hx. apply list_elem_of_singleton in Hx as ->. done. }
        assert (Hreach : ∀ x, x ∈ C' → ureach (edges g) n x).
        { apply (bfs_cluster_reach (edges g) n _ _ _ _ Eb'); [intros x Hx; by apply elem_of_empty in Hx|].
          intros x Hx. apply list_elem_of_singleton in Hx as ->. constructor. }
        assert (HnotIn : C' ∉ cs0).
        { intros Hin. apply (Hav n HnC). apply Hvis. eauto. }
        split_and!.
        * intros x. rewrite elem_of_union, Hvis. split.
          -- intros [(C & HC & Hx) | Hx].
             ++ exists C. rewrite elem_of_app. auto.
             ++ exists C'. rewrite elem_of_app, list_elem_of_singleton. auto.
          -- intros (C & HC & Hx). apply elem_of_app in HC as [HC | HC]; [left; eauto|].
             apply list_elem_of_singleton in HC as ->. by right.
        * apply NoDup_app. split_and!; [done| |apply NoDup_singleton].
          intros C HC HCs. apply list_elem_of_singleton in HCs as ->. done.
        * intros C. rewrite elem_of_app, list_elem_of_singleton. intros [HC | ->]; [by apply Hcl|].
          split; [|done]. eauto.
        * intros C1 C2. rewrite !elem_of_app, !list_elem_of_singleton.
          intros [H1 | ->] [H2 | ->] Hne; [by apply Hdj| | |done].
          -- intros x Hx1 Hx2. apply (Hav x Hx2). apply Hvis. eauto.
          -- intros x Hx1 Hx2. apply (Hav x Hx1). apply Hvis. eauto. }
  destruct (fold_left Fn (node_keys g) (Some (∅, []))) as [[vis cs']|] eqn:Ef; [|done].
  intros [= <-].
  assert (Hinv : clusters_inv (edges g) vis cs').
  { apply (Hfold (node_keys g) ∅ [] vis cs'); [|done].
    split_and!; [|constructor| |].
    - intros x. split; [intros Hx; by apply elem_of_empty in Hx|].
      intros (C & HC & _). by apply elem_of_nil in HC.
    - intros C HC. by apply elem_of_nil in HC.
    - intros C1 C2 HC. by apply elem_of_nil in HC. }
  split; [|eauto].
  destruct Hinv as (Hvis & Hrest). split; [|done].
  intros x. rewrite elem_of_union_list. done.
Qed.

End ClusterFacts.

Module LevelFacts.
Import Graph Layout Props LayoutFacts ClusterFacts.

Lemma incoming_edge E n p : p ∈ incoming E n → ∃ e, e ∈ E ∧ source e = p ∧ target e = n.
Proof.
  unfold incoming. rewrite elem_of_map. intros (e & -> & He).
  apply list_elem_of_filter in He as [Ht He]. eauto.
Qed.

Lemma levels_ok_insert E (lv : gmap string nat) n l :
  levels_ok E lv → lv !! n = None →
  (∀ p, p ∈ incoming E n → ∃ lp, lv !! p = Some lp ∧ lp < l) →
  (l = 0 ∨ ∃ p, p ∈ incoming E n ∧ lv !! p = Some (pred l)) →
  levels_ok E (<[n := l]> lv).
Proof.
  intros Hok Hn Hpar Hpred k l' Hk.
  assert (Hne : ∀ p lp, lv !! p = Some lp → n ≠ p) by (intros p lp Hp <-; congruence).
  destruct (decide (k = n)) as [-> | Hkn].
  - rewrite lookup_insert_eq in Hk. injection Hk as <-. split.
    + intros p Hp. destruct (Hpar p Hp) as (lp & Hlp & Hlt). exists lp.
      rewrite lookup_insert_ne by (eapply Hne; eauto). done.
    + destruct Hpred as [-> | (p & Hp & Hlp)]; [by left|right]. exists p.
      rewrite lookup_insert_ne by (eapply Hne; eauto). done.
  - rewrite lookup_insert_ne in Hk by congruence. destruct (Hok k l' Hk) as [H1 H2]. split.
    + intros p Hp. destruct (H1 p Hp) as (lp & Hlp & Hlt). exists lp.
      rewrite lookup_insert_ne by (eapply Hne; eauto). done.
    + destruct H2 as [-> | (p & Hp & Hlp)]; [by left|right]. exists p.
      rewrite lookup_insert_ne by (eapply Hne; eauto). done.
Qed.

Section ranked_levels.
Variable E : list LineageEdge.
Variable r : string → nat.
Hypothesis Hr : ∀ e, e ∈ E → r (source e) < r (target e).

Definition level_post (n : string) (st : LvlState) (l : nat) (st' : LvlState) : Prop :=
  levels_ok E (levels st') ∧ levels st ⊆ levels st' ∧ levels st' !! n = Some l ∧
  visiting st' = visiting st ∧
  ∀ k, is_Some (levels st' !! k) → is_Some (levels st !! k) ∨ r k ≤ r n.

Lemma incoming_rank n p : p ∈ incoming E n → r p < r n.
Proof. intros Hp. destruct (incoming_edge E n p Hp) as (e & He & <- & <-). by apply Hr. Qed.

Lemma max_levels_ok rec ps : ∀ s m s'',
  (∀ p s0 l s1, p ∈ ps → rec p s0 = Some (l, s1) → levels_ok E (levels s0) →
     (∀ v, v ∈ visiting s0 → r p < r v) → level_post p s0 l s1) →
  max_levels rec ps s = Some (m, s'') → levels_ok E (levels s) →
  (∀ p v, p ∈ ps → v ∈ visiting s → r p < r v) →
  levels_ok E (levels s'') ∧ levels s ⊆ levels s'' ∧ visiting s'' = visiting s ∧
  (∀ p, p ∈ ps → ∃ lp, levels s'' !! p = Some lp ∧ lp ≤ m) ∧
  ((ps = [] ∧ m = 0) ∨ ∃ p, p ∈ ps ∧ levels s'' !! p = Some m) ∧
  (∀ k, is_Some (levels s'' !! k) → is_Some (levels s !! k) ∨ ∃ p, p ∈ ps ∧ r k ≤ r p).
Proof.
  induction ps as [|p ps IH]; intros s m s'' Hrec Hm Hok Hvis; simpl in Hm.
  - injection Hm as <- <-. split_and!.
    + done.
    + done.
    + done.
    + intros p Hp. by apply elem_of_nil in Hp.
    + by left.
    + intros k Hk. by left.
  - destruct (rec p s) as [[l s1]|] eqn:E1; [|discriminate].
    destruct (max_levels rec ps s1) as [[m' s2]|] eqn:E2; [|discriminate].
    injection Hm as <- <-.
    destruct (Hrec p s l s1 ltac:(by left) E1 Hok (λ v Hv, Hvis p v ltac:(by left) Hv))
      as (Hok1 & Hsub1 & Hp1 & Hv1 & Hd1).
    destruct (IH s1 m' s2) as (Hok2 & Hsub2 & Hv2 & Hle2 & Hmax2 & Hd2); [| |done| |].
    { intros p' s0 l0 s3 Hp'. apply Hrec. by right. }
    { done. }
    { intros p' v Hp' Hv. rewrite Hv1 in Hv. apply Hvis; [by right|done]. }
    split_and!.
    + done.
    + by trans (levels s1).
    + congruence.
    + intros p'. rewrite elem_of_cons. intros [-> | Hp'].
      * exists l. split; [by eapply lookup_weaken|lia].
      * destruct (Hle2 p' Hp') as (lp & Hlp & Hle). exists lp. split; [done|lia].
    + right. destruct (Nat.max_spec l m') as [[Hlt ->] | [Hge ->]].
      * destruct Hmax2 as [[_ ->] | (p' & Hp' & Hlp)]; [lia|].
        exists p'. split; [by right|done].
      * exists p. split; [by left|]. by eapply lookup_weaken.
    + intros k Hk. destruct (Hd2 k Hk) as [Hk1 | (p' & Hp' & Hle)].
      * destruct (Hd1 k Hk1) as [Hk0 | Hle]; [by left|right]. exists p. split; [by left|done].
      * right. exists p'. split; [by right|done].
Qed.

Lemma get_level_ok fuel : ∀ n st l st',
  get_level E fuel n st = Some (l, st') → levels_ok E (levels st) →
  (∀ v, v ∈ visiting st → r n < r v) → level_post n st l st'.
Proof.
  induction fuel as [|f IH]; intros n st l st' Hg Hok Hvis; cbn [get_level] in Hg; [discriminate|].
  destruct (levels st !! n) as [l0|] eqn:El.
  - injection Hg as <- <-. split_and!; try done. intros k Hk. by left.
  - case_decide as Hn; [specialize (Hvis n Hn); lia|].
    destruct (incoming E n) as [|p ps] eqn:Ei.
    + injection Hg as <- <-. cbn [Layout.levels Layout.visiting]. split_and!.
      * apply levels_ok_insert; [done|done| |by left]. rewrite Ei. intros p Hp.
        by apply elem_of_nil in Hp.
      * by apply insert_subseteq.
      * by apply lookup_insert_eq.
      * apply leibniz_equiv. set_solver.
      * intros k. cbn [Layout.levels]. rewrite lookup_insert. case_decide; [subst; by right|by left].
    + destruct (max_levels (get_level E f) (p :: ps)
                  {| levels := levels st; visiting := {[n]} ∪ visiting st |}) as [[m s2]|] eqn:Em;
        [|discriminate].
      injection Hg as <- <-.
      destruct (max_levels_ok (get_level E f) (p :: ps)
                 {| levels := levels st; visiting := {[n]} ∪ visiting st |} m s2) as (Hok2 & Hsub2 & Hv2 & Hle2 & Hmax2 & Hd2);
        [| done | done | |].
      { intros p' s0 l0 s1 _ Hg0 Hok0 Hvis0. by apply (IH p' s0 l0 s1). }
      { intros p' v Hp' Hv. rewrite <- Ei in Hp'. pose proof (incoming_rank n p' Hp').
        simpl in Hv. apply elem_of_union in Hv as [Hv | Hv].
        - apply elem_of_singleton in Hv as ->. done.
        - specialize (Hvis v Hv). lia. }
      cbn [Layout.levels Layout.visiting] in *.
      assert (Hn2 : levels s2 !! n = None).
      { destruct (levels s2 !! n) eqn:E2; [|done]. exfalso.
        destruct (Hd2 n ltac:(by eexists)) as [Hs | (p' & Hp' & Hle)]; [rewrite El in Hs; by destruct Hs|].
        rewrite <- Ei in Hp'. pose proof (incoming_rank n p' Hp'). lia. }
      split_and!.
      * apply levels_ok_insert; [done|done| |].
        -- rewrite Ei. intros p' Hp'. destruct (Hle2 p' Hp') as (lp & Hlp & Hle). exists lp. split; [done|lia].
        -- right. destruct Hmax2 as [[Hnil _] | (p' & Hp' & Hlp)]; [discriminate|]. exists p'.
           rewrite Ei. split; [done|done].
      * trans (levels s2); [done|]. by apply insert_subseteq.
      * by apply lookup_insert_eq.
      * cbn [Layout.visiting]. rewrite Hv2. apply leibniz_equiv. set_solver.
      * intros k. cbn [Layout.levels]. rewrite lookup_insert. case_decide; [subst; by right|].
        intros Hk. destruct (Hd2 k Hk) as [Hk0 | (p' & Hp' & Hle)]; [by left|right].
        rewrite <- Ei in Hp'. pose proof (incoming_rank n p' Hp'). lia.
Qed.

End ranked_levels.

Lemma compute_levels_ok g lv :
  ranked (edges g) → compute_levels g = Some lv → levels_ok (edges g) lv.
Proof.
  intros [r Hr]. unfold compute_levels.
  match goal with |- context [fold_left ?F (node_keys g) _] => set (Fn := F) end.
  assert (HN : ∀ l, fold_left Fn l None = None) by (intros l; apply fold_none; done).
  assert (Hfold : ∀ l st st', levels_ok (edges g) (levels st) → visiting st = ∅ →
            fold_left Fn l (Some st) = Some st' → levels_ok (edges g) (levels st')).
  { induction l as [|n l IH]; intros st st' Hok Hv; cbn [fold_left]; [by intros [= <-]|].
    destruct (get_level (edges g) max_level_depth n st) as [[l1 st1]|] eqn:Eg.
    - assert (Fn (Some st) n = Some st1) as -> by (unfold Fn; by rewrite Eg).
      destruct (get_level_ok (edges g) r Hr max_level_depth n st l1 st1 Eg Hok)
        as (Hok1 & _ & _ & Hv1 & _).
      { intros v. rewrite Hv. intros Hv'. by apply elem_of_empty in Hv'. }
      apply IH; [done|congruence].
    - assert (Fn (Some st) n = None) as -> by (unfold Fn; by rewrite Eg). by rewrite HN. }
  destruct (fold_left Fn (node_keys g) (Some {| levels := ∅; visiting := ∅ |})) as [st|] eqn:Ef;
    [|done].
  intros [= <-]. apply (Hfold (node_keys g) {| levels := ∅; visiting := ∅ |} st); [|done|done].
  intros k l Hk. cbn [Layout.levels] in Hk. by rewrite lookup_empty in Hk.
Qed.

End LevelFacts.

Module PosFacts.
Import Graph Layout Props SortFacts LayoutFacts ClusterFacts LevelFacts.

Definition x_of_level (levels : gmap string nat) (pos : Positions) : Prop :=
  ∀ k x y, pos !! k = Some (x, y) → ∃ l, levels !! k = Some l ∧ x = (Qofnat l * x_spacing + 80)%Q.

Lemma place_column_x levels x yo ns : ∀ i p,
  (∀ k, k ∈ ns → ∃ l, levels !! k = Some l ∧ x = (Qofnat l * x_spacing + 80)%Q) →
  x_of_level levels p → x_of_level levels (place_column x yo i ns p).
Proof.
  induction ns as [|n ns IH]; intros i p Hns Hp; cbn [place_column]; [done|].
  apply IH; [intros k Hk; apply Hns; by right|].
  intros k x' y'. rewrite lookup_insert. case_decide as Hk.
  - subst k. intros [= <- _]. apply Hns. by left.
  - apply Hp.
Qed.

Lemma fold_inv {A B} (P : A → Prop) (f : A → B → A) (l : list B) : ∀ a,
  (∀ a b, b ∈ l → P a → P (f a b)) → P a → P (fold_left f l a).
Proof.
  induction l as [|b l IH]; intros a Hf Ha; simpl; [done|].
  apply IH; [intros a' b' Hb; apply Hf; by right|]. apply Hf; [by left|done].
Qed.

Lemma group_by_level_levels (levels : gmap string nat) C cbl :
  group_by_level levels C = Some cbl →
  ∀ lvl ns k, cbl !! lvl = Some ns → k ∈ ns → levels !! k = Some lvl.
Proof.
  unfold group_by_level.
  match goal with |- context [fold_left ?F _ _] => set (Fn := F) end.
  assert (Hgen : ∀ l m, (∀ lvl ns k, m !! lvl = Some ns → k ∈ ns → levels !! k = Some lvl) →
            ∀ m', fold_left Fn l (Some m) = Some m' →
            ∀ lvl ns k, m' !! lvl = Some ns → k ∈ ns → levels !! k = Some lvl).
  { induction l as [|n l IH]; intros m Hm m' Hf; cbn [fold_left] in Hf; [by injection Hf as <-|].
    unfold Fn at 2 in Hf. destruct (levels !! n) as [ln|] eqn:En;
      [|by rewrite fold_none in Hf].
    refine (IH _ _ m' Hf).
    intros lvl ns k. rewrite lookup_insert. case_decide as Hl.
    - subst lvl. intros [= <-]. rewrite elem_of_app. intros [Hk | Hk].
      + destruct (m !! ln) as [ns0|] eqn:Em; simpl in Hk; [by apply (Hm ln ns0)|by apply elem_of_nil in Hk].
      + apply list_elem_of_singleton in Hk as ->. done.
    - apply Hm. }
  intros Hf. apply (Hgen (elements C) ∅); [|done]. intros lvl ns k H. by rewrite lookup_empty in H.
Qed.

Lemma place_cluster_x levels im C pos cy pos' cy' :
  place_cluster levels im C pos cy = Some (pos', cy') →
  x_of_level levels pos → x_of_level levels pos'.
Proof.
  unfold place_cluster. destruct (group_by_level levels C) as [cbl|] eqn:Eg; [|discriminate].
  intros [= <- _] Hp. apply fold_inv; [|done].
  intros p [lvl ns] Hc Hp'. cbv beta iota zeta.
  apply place_column_x; [|done].
  intros k Hk. exists lvl. split; [|done].
  apply elem_of_map in Hc as (lvl' & Heq & Hlvl). injection Heq as -> ->.
  apply sorted_levels_elem in Hlvl as [ns0 Hns0].
  rewrite sort_level_elem, Hns0 in Hk. simpl in Hk.
  by apply (group_by_level_levels levels C cbl Eg lvl' ns0 k).
Qed.

Lemma place_clusters_x levels im cs pos cy :
  place_clusters levels im cs = Some (pos, cy) → x_of_level levels pos.
Proof.
  unfold place_clusters. intros Hf.
  cut (∀ o, fold_left (fun acc cluster =>
      match acc with
      | None => None
      | Some (pos, cy) => place_cluster levels im cluster pos cy
      end) cs o = Some (pos, cy) → ∀ p c, o = Some (p, c) → x_of_level levels p → x_of_level levels pos).
  { intros H. apply (H _ Hf ∅ 0%Q eq_refl). intros k x y Hk. by rewrite lookup_empty in Hk. }
  clear Hf. induction cs as [|C cs IH]; intros o Ho p c -> Hp; simpl in Ho; [by injection Ho as <- _|].
  destruct (place_cluster levels im C p c) as [[p1 c1]|] eqn:E1; [|by rewrite fold_none in Ho].
  apply (IH _ Ho p1 c1 eq_refl). by eapply place_cluster_x.
Qed.

Lemma calculate_positions_x g lv pos k x y :
  calculate_positions g = Some pos → compute_levels g = Some lv → pos !! k = Some (x, y) →
  ∃ l, lv !! k = Some l ∧ x = (Qofnat l * x_spacing + 80)%Q.
Proof.
  unfold calculate_positions. destruct (nodes g) as [|n0 ns0]; [intros [= <-] _; by rewrite lookup_empty|].
  intros Hc Hlv. rewrite Hlv in Hc.
  destruct (_find_clusters g) as [cs|]; [|discriminate].
  match type of Hc with
  | context [place_clusters lv ?im ?scs] =>
      destruct (place_clusters lv im scs) as [[p cy]|] eqn:Ep; [|discriminate];
      pose proof (place_clusters_x lv im scs p cy Ep) as Hx
  end.
  injection Hc as <-. unfold recenter. case_decide; [by apply Hx|].
  rewrite lookup_fmap. destruct (p !! k) as [[x0 y0]|] eqn:Ek; [|discriminate].
  intros [= <- _]. by apply (Hx k x0 y0).
Qed.

Lemma compute_levels_ranked g :
  List.length (nodes g) + List.length (edges g) < max_level_depth →
  ranked (edges g) →
  ∃ lv, compute_levels g = Some lv ∧ (∀ k, k ∈ node_keys g → is_Some (lv !! k)) ∧
        levels_ok (edges g) lv.
Proof.
  intros Hsmall Hr. destruct (compute_levels_some g Hsmall) as (lv & Hc & Hdom).
  exists lv. split_and!; [done|done|]. by apply compute_levels_ok.
Qed.

Lemma calculate_positions_some g :
  List.length (nodes g) + List.length (edges g) < max_level_depth →
  edges_closed g →
  ∃ pos, calculate_positions g = Some pos ∧ ∀ k, is_Some (pos !! k) ↔ k ∈ node_keys g.
Proof.
  intros Hsmall Hcl. unfold calculate_positions. destruct (nodes g) as [|nd nds] eqn:En.
  - exists ∅. split; [done|]. intros k. unfold node_keys. rewrite En, lookup_empty. simpl.
    rewrite elem_of_nil. split; [by intros []|done].
  - destruct (compute_levels_some g ltac:(by rewrite En)) as (lv & -> & Hlv).
    destruct (find_clusters_some g Hcl) as (cs & -> & Hcs1 & Hcs2).
    destruct (place_clusters_some lv (build_incoming_map (edges g))
                (stable_sort (fun a b => String.leb (_get_cluster_sort_key a) (_get_cluster_sort_key b)) cs))
      as (pos & cy & -> & Hdom).
    { intros C HC k Hk. rewrite stable_sort_perm in HC. apply Hlv. by eapply Hcs1. }
    exists (recenter pos). split; [done|]. intros k. rewrite recenter_dom, Hdom.
    setoid_rewrite stable_sort_perm. split.
    + intros (C & HC & Hk). by eapply Hcs1.
    + apply Hcs2.
Qed.

Lemma calculate_positions_rightward (g : LineageGraph) :
  List.length (nodes g) + List.length (edges g) < max_level_depth →
  ranked (edges g) → edges_closed g →
  ∃ pos, calculate_positions g = Some pos ∧
    ∀ e, e ∈ edges g → ∃ xs ys xt yt,
      pos !! source e = Some (xs, ys) ∧ pos !! target e = Some (xt, yt) ∧ (xs + x_spacing <= xt)%Q.
Proof.
  intros Hsmall Hr Hcl. destruct (calculate_positions_some g Hsmall Hcl) as (pos & Hc & Hdom).
  destruct (compute_levels_ranked g Hsmall Hr) as (lv & Hlv & _ & Hok).
  exists pos. split; [done|]. intros e He. destruct (Hcl e He) as [Hs Ht].
  apply Hdom in Hs as [[xs ys] Hs]. apply Hdom in Ht as [[xt yt] Ht].
  exists xs, ys, xt, yt. split_and!; [done|done|].
  destruct (calculate_positions_x g lv pos _ xs ys Hc Hlv Hs) as (ls & Hls & ->).
  destruct (calculate_positions_x g lv pos _ xt yt Hc Hlv Ht) as (lt & Hlt & ->).
  destruct (Hok (target e) lt Hlt) as [Hpar _].
  destruct (Hpar (source e)) as (lp & Hlp & Hlt').
  { unfold incoming. apply elem_of_map. exists e. split; [done|]. by apply list_elem_of_filter. }
  rewrite Hls in Hlp. injection Hlp as <-.
  assert (Hq : (Qofnat (S ls) <= Qofnat lt)%Q).
  { unfold Qofnat. rewrite <- Zle_Qle. lia. }
  assert (HS : (Qofnat (S ls) == Qofnat ls + 1)%Q).
  { unfold Qofnat. rewrite Nat2Z.inj_succ, <- Z.add_1_r, inject_Z_plus. reflexivity. }
  unfold x_spacing. lra.
Qed.

End PosFacts.

Module SubgraphFacts.
Import Graph Layout Props LayoutFacts ClusterFacts.

Lemma freach_back E e z : e ∈ E → freach E (target e) z → freach E (source e) z.
Proof.
  intros He Hz. induction Hz as [|e' He' _ IH].
  - apply (freach_step E (source e) e He). constructor.
  - by apply (freach_step E (source e) e' He').
Qed.

Section bfs.
Variable adj : gmap string (list string).

Definition push_child : gset string * list string → string → gset string * list string :=
  fun '(c, q) child => if decide (child ∈ c) then (c, q) else ({[child]} ∪ c, q ++ [child]).

Definition unseen (l : list string) (c : gset string) : nat := List.length (filter (fun x => x ∉ c) l).

Lemma unseen_mono l c c' : c ⊆ c' → unseen l c' ≤ unseen l c.
Proof.
  intros Hc. unfold unseen. induction l as [|y l IH]; [done|]. rewrite !filter_cons.
  destruct (decide (y ∈ c')) as [H1|H1].
  - rewrite decide_False by (intros H; by apply H). case_decide; simpl; lia.
  - rewrite decide_True by done. rewrite decide_True by (intros Hy; apply H1, Hc, Hy). simpl. lia.
Qed.

Lemma unseen_insert l x c : x ∈ l → x ∉ c → unseen l ({[x]} ∪ c) < unseen l c.
Proof.
  intros Hx Hc. unfold unseen. induction l as [|y l IH]; [by apply elem_of_nil in Hx|].
  rewrite !filter_cons. apply elem_of_cons in Hx as [-> | Hx].
  - rewrite decide_False by set_solver. rewrite decide_True by done. simpl.
    pose proof (unseen_mono l c ({[y]} ∪ c) ltac:(set_solver)) as Hm. unfold unseen in Hm. lia.
  - specialize (IH Hx). destruct (decide (y ∈ {[x]} ∪ c)) as [H1|H1].
    + rewrite decide_False by (intros H; by apply H). case_decide; simpl; lia.
    + rewrite decide_True by done. rewrite decide_True by set_solver. simpl. lia.
Qed.

Lemma push_children cs : ∀ c q c' q', fold_left push_child cs (c, q) = (c', q') →
  c ⊆ c' ∧ (∀ m, m ∈ cs → m ∈ c') ∧
  ∃ new, q' = q ++ new ∧ (∀ x, x ∈ new → x ∈ cs) ∧ (∀ x, x ∈ c' → x ∈ c ∨ x ∈ new) ∧
    ∀ l, (∀ x, x ∈ cs → x ∈ l) → List.length new + unseen l c' ≤ unseen l c.
Proof.
  induction cs as [|m cs IH]; intros c q c' q' Hf; cbn [fold_left] in Hf.
  - injection Hf as <- <-. split_and!; [done| intros m Hm; by apply elem_of_nil in Hm|].
    exists []. split_and!.
    + by rewrite app_nil_r.
    + intros x Hx. by apply elem_of_nil in Hx.
    + intros x Hx. by left.
    + intros l _. simpl. lia.
  - unfold push_child at 2 in Hf. destruct (decide (m ∈ c)) as [Hm|Hm].
    + destruct (IH c q c' q' Hf) as (H1 & H2 & new & H3 & H4 & H5 & H6).
      split_and!; [done| |].
      * intros x Hx. apply elem_of_cons in Hx as [-> | Hx]; [by apply H1|by apply H2].
      * exists new. split_and!; [done| |done|].
        -- intros x Hx. right. by apply H4.
        -- intros l Hl. apply H6. intros x Hx. apply Hl. by right.
    + destruct (IH ({[m]} ∪ c) (q ++ [m]) c' q' Hf) as (H1 & H2 & new & H3 & H4 & H5 & H6).
      split_and!; [set_solver| |].
      * intros x Hx. apply elem_of_cons in Hx as [-> | Hx]; [set_solver|by apply H2].
      * exists (m :: new). split_and!.
        -- by rewrite H3, <- app_assoc.
        -- intros x Hx. apply elem_of_cons in Hx as [-> | Hx]; [by left|right; by apply H4].
        -- intros x Hx. destruct (H5 x Hx) as [Hx' | Hx']; [|right; by right].
           apply elem_of_union in Hx' as [Hx' | Hx']; [|by left].
           apply elem_of_singleton in Hx' as ->. right. by left.
        -- intros l Hl. pose proof (unseen_insert l m c ltac:(apply Hl; by left) Hm).
           assert (List.length new + unseen l c' ≤ unseen l ({[m]} ∪ c)) by
             (apply H6; intros x Hx; apply Hl; by right).
           simpl. lia.
Qed.

Lemma bfs_connected_cons f n q c :
  bfs_connected adj (S f) (n :: q) c =
  let '(c', q') := fold_left push_child (dget adj n) (c, q) in bfs_connected adj f q' c'.
Proof. reflexivity. Qed.

Lemma bfs_connected_some (T : list string) (HT : ∀ n m, m ∈ dget adj n → m ∈ T) fuel : ∀ q c,
  List.length q + unseen T c < fuel → ∃ c', bfs_connected adj fuel q c = Some c'.
Proof.
  induction fuel as [|f IH]; intros q c Hf; [lia|].
  destruct q as [|n q]; [by eexists|]. rewrite bfs_connected_cons.
  destruct (fold_left push_child (dget adj n) (c, q)) as [c1 q1] eqn:Ef.
  destruct (push_children _ _ _ _ _ Ef) as (_ & _ & new & -> & _ & _ & Hl).
  apply IH. rewrite length_app. specialize (Hl T (HT n)). simpl in Hf. lia.
Qed.

Lemma bfs_connected_mono fuel : ∀ q c c', bfs_connected adj fuel q c = Some c' → c ⊆ c'.
Proof.
  induction fuel as [|f IH]; intros q c c' Hb; [discriminate|].
  destruct q as [|n q]; [by injection Hb as <-|]. rewrite bfs_connected_cons in Hb.
  destruct (fold_left push_child (dget adj n) (c, q)) as [c1 q1] eqn:Ef.
  destruct (push_children _ _ _ _ _ Ef) as (H1 & _).
  trans c1; [done|]. by eapply IH.
Qed.

Lemma bfs_connected_closed (B : gset string) fuel : ∀ q c c',
  (∀ x, x ∈ c → x ∈ B ∨ x ∈ q ∨ ∀ m, m ∈ dget adj x → m ∈ c) →
  bfs_connected adj fuel q c = Some c' →
  ∀ x, x ∈ c' → x ∈ B ∨ ∀ m, m ∈ dget adj x → m ∈ c'.
Proof.
  induction fuel as [|f IH]; intros q c c' Hinv Hb; [discriminate|].
  destruct q as [|n q].
  - injection Hb as <-. intros x Hx. destruct (Hinv x Hx) as [H | [H | H]]; [by left| |by right].
    by apply elem_of_nil in H.
  - rewrite bfs_connected_cons in Hb.
    destruct (fold_left push_child (dget adj n) (c, q)) as [c1 q1] eqn:Ef.
    destruct (push_children _ _ _ _ _ Ef) as (H1 & H2 & new & -> & _ & H5 & _).
    apply (IH (q ++ new) c1 c'); [|done].
    intros x Hx. destruct (H5 x Hx) as [Hxc | Hxn].
    + destruct (Hinv x Hxc) as [H | [H | H]]; [by left| |].
      * apply elem_of_cons in H as [-> | H].
        -- right; right. done.
        -- right; left. rewrite elem_of_app. by left.
      * right; right. intros m Hm. by apply H1, H.
    + right; left. rewrite elem_of_app. by right.
Qed.

Lemma bfs_connected_sound (Pc Pq : string → Prop) fuel : ∀ q c c',
  (∀ x m, Pq x → m ∈ dget adj x → Pq m) → (∀ x, Pq x → Pc x) →
  (∀ x, x ∈ c → Pc x) → (∀ x, x ∈ q → Pq x) →
  bfs_connected adj fuel q c = Some c' → ∀ x, x ∈ c' → Pc x.
Proof.
  induction fuel as [|f IH]; intros q c c' Hcl Hqc Hc Hq Hb; [discriminate|].
  destruct q as [|n q]; [by injection Hb as <-|]. rewrite bfs_connected_cons in Hb.
  destruct (fold_left push_child (dget adj n) (c, q)) as [c1 q1] eqn:Ef.
  destruct (push_children _ _ _ _ _ Ef) as (_ & _ & new & -> & H4 & H5 & _).
  assert (Hn : Pq n) by (apply Hq; by left).
  apply (IH (q ++ new) c1 c' Hcl Hqc); [| |done].
  - intros x Hx. destruct (H5 x Hx) as [Hx' | Hx']; [by apply Hc|].
    apply Hqc, (Hcl n); [done|]. by apply H4.
  - intros x. rewrite elem_of_app. intros [Hx | Hx]; [apply Hq; by right|].
    apply (Hcl n); [done|]. by apply H4.
Qed.

End bfs.
Lemma freach_ind_back E (P : string → Prop) x y :
  freach E x y → P y → (∀ e, e ∈ E → P (target e) → P (source e)) → P x.
Proof.
  intros Hxy. induction Hxy as [|e He _ IH]; intros Hy Hcl; [done|].
  apply IH; [|done]. by apply Hcl.
Qed.

Lemma freach_rank E (r : string → nat) x y :
  (∀ e, e ∈ E → r (source e) < r (target e)) → freach E x y → x = y ∨ r x < r y.
Proof.
  intros Hr Hxy. induction Hxy as [|e He _ IH]; [by left|right].
  specialize (Hr e He). destruct IH as [Heq | IH]; [rewrite <- Heq in Hr|]; lia.
Qed.

Lemma unseen_le l c : unseen l c ≤ List.length l.
Proof. apply length_filter. Qed.

Lemma get_connected_subgraph_core g sel :
  ∃ R, get_connected_subgraph g sel = Some R ∧ sel ∈ R ∧
    (∀ x, freach (edges g) sel x → x ∈ R) ∧
    (∀ x, x ∈ R → freach (edges g) sel x ∨ freach (edges g) x sel) ∧
    ((∃ r : string → nat, ∀ e, e ∈ edges g → r (source e) < r (target e)) →
       ∀ x, freach (edges g) x sel → x ∈ R).
Proof.
  set (E := edges g).
  assert (HTd : ∀ n m, m ∈ dget (build_adj E).1 n → m ∈ map target E).
  { intros n m. rewrite adj_down, elem_of_map. intros (e & He & _ & <-). by exists e. }
  assert (HTu : ∀ n m, m ∈ dget (build_adj E).2 n → m ∈ map source E).
  { intros n m. rewrite adj_up, elem_of_map. intros (e & He & _ & <-). by exists e. }
  unfold get_connected_subgraph. fold E.
  destruct (bfs_connected_some (build_adj E).1 (map target E) HTd (cluster_fuel g) [sel] {[sel]})
    as (D & HD).
  { pose proof (unseen_le (map target E) {[sel]}). rewrite length_map in H.
    unfold cluster_fuel. fold E. simpl. lia. }
  destruct (bfs_connected_some (build_adj E).2 (map source E) HTu (cluster_fuel g) [sel] D)
    as (R & HR).
  { pose proof (unseen_le (map source E) D). rewrite length_map in H.
    unfold cluster_fuel. fold E. simpl. lia. }
  destruct (build_adj E) as [down up] eqn:Eadj. cbn [fst snd] in *.
  rewrite HD, HR. exists R.
  assert (HDR : D ⊆ R) by (eapply bfs_connected_mono; eauto).
  assert (HselD : sel ∈ D).
  { apply (bfs_connected_mono down (cluster_fuel g) [sel] {[sel]} D HD). set_solver. }
  assert (Hdown : ∀ x m, x ∈ D → m ∈ dget down x → m ∈ D).
  { intros x m Hx. destruct (bfs_connected_closed down ∅ (cluster_fuel g) [sel] {[sel]} D) with (x := x)
      as [H | H]; [| done | done | by apply elem_of_empty in H | apply H].
    intros y Hy. right; left. apply elem_of_singleton in Hy as ->. by left. }
  assert (HdownE : ∀ e, e ∈ E → source e ∈ D → target e ∈ D).
  { intros e He Hs. apply (Hdown (source e)); [done|].
    assert (Hd : down = (build_adj E).1) by (by rewrite Eadj). rewrite Hd, adj_down. eauto. }
  assert (HDsound : ∀ x, x ∈ D → freach E sel x).
  { apply (bfs_connected_sound down (freach E sel) (freach E sel) (cluster_fuel g) [sel] {[sel]} D);
      [| done | | | done].
    - intros x m Hx Hm. assert (Hd : down = (build_adj E).1) by (by rewrite Eadj).
      rewrite Hd, adj_down in Hm. destruct Hm as (e & He & <- & <-). by apply freach_step.
    - intros x Hx. apply elem_of_singleton in Hx as ->. constructor.
    - intros x Hx. apply list_elem_of_singleton in Hx as ->. constructor. }
  split_and!.
  - done.
  - by apply HDR.
  - intros x Hx. apply HDR. induction Hx as [|e He _ IH]; [done|]. by apply HdownE.
  - apply (bfs_connected_sound up (λ x, freach E sel x ∨ freach E x sel) (λ x, freach E x sel)
             (cluster_fuel g) [sel] D R); [| | | | done].
    + intros x m Hx Hm. assert (Hu : up = (build_adj E).2) by (by rewrite Eadj).
      rewrite Hu, adj_up in Hm. destruct Hm as (e & He & <- & <-). by apply freach_back.
    + intros x Hx. by right.
    + intros x Hx. left. by apply HDsound.
    + intros x Hx. apply list_elem_of_singleton in Hx as ->. constructor.
  - intros [r Hr] x Hx.
    assert (Hup : ∀ y, y ∈ R → y ∈ D ∖ {[sel]} ∨ ∀ m, m ∈ dget up y → m ∈ R).
    { apply (bfs_connected_closed up (D ∖ {[sel]}) (cluster_fuel g) [sel] D R); [|done].
      intros y Hy. destruct (decide (y = sel)) as [-> | Hne].
      - right; left. by left.
      - left. set_solver. }
    cut (x ∈ R ∧ freach E x sel); [by intros []|].
    apply (freach_ind_back E (λ z, z ∈ R ∧ freach E z sel) x sel Hx).
    + split; [by apply HDR|constructor].
    + intros e He [Ht Hts]. split; [|by apply freach_back].
      destruct (Hup (target e) Ht) as [Hd | Hall].
      * exfalso. apply elem_of_difference in Hd as [Hd Hne].
        pose proof (freach_rank E r _ _ Hr (HDsound _ Hd)) as H1.
        pose proof (freach_rank E r _ _ Hr Hts) as H2.
        destruct H1 as [Heq | H1]; [apply Hne; rewrite <- Heq; by apply elem_of_singleton|].
        destruct H2 as [Heq | H2]; [apply Hne; rewrite Heq; by apply elem_of_singleton|]. lia.
      * apply Hall. assert (Hu : up = (build_adj E).2) by (by rewrite Eadj).
        rewrite Hu, adj_up. eauto.
Qed.

End SubgraphFacts.

Module RendererFacts.
Import Graph Layout Props Renderer GraphFacts ParserFacts LayoutFacts.

Definition error_border : string := "2px solid #FF5C4D".
Definition error_shadow : string := "0 0 0 3px rgba(255,92,77,0.15), 0 2px 8px rgba(255,92,77,0.20)".

Ltac dict_simpl :=
  repeat (first [ rewrite dict_get_set | progress cbn [dict_get]
                | rewrite decide_True by reflexivity | rewrite decide_False by discriminate ]).

Lemma node_style_border (e : string) :
  st_border (default style_source (dict_get e _NODE_STYLES)) ≠ "#FF5C4D".
Proof. unfold _NODE_STYLES. cbn [dict_get]. repeat case_decide; simpl; discriminate. Qed.

Lemma node_style_spec (lineage : LineageGraph) (positions : Positions) (ev : gset string)
    (connected : option (gset string)) (hl : option string) (k : string) (node : TableNode) :
  let s := fn_style (flow_node lineage positions ev connected hl k node) in
  (∀ c, connected = Some c → k ∉ c →
     dict_get "opacity" s = Some "0.15" ∧ dict_get "boxShadow" s = Some "none" ∧
     dict_get "border" s ≠ Some error_border) ∧
  ((∀ c, connected = Some c → k ∈ c) →
     dict_get "opacity" s = None ∧
     (k ∈ ev → dict_get "border" s = Some error_border ∧ dict_get "boxShadow" s = Some error_shadow)).
Proof.
  unfold flow_node. cbv zeta. cbn [fn_style].
  pose proof (node_style_border (_resolve_engine k lineage)) as Hb.
  generalize dependent (default style_source (dict_get (_resolve_engine k lineage) _NODE_STYLES)).
  intros style Hb. split.
  - intros c -> Hk. cbn iota. rewrite (bool_decide_eq_true_2 _ Hk). cbn [negb andb].
    destruct (bool_decide (Some k = hl)), (bool_decide (k ∈ ev)); cbn [andb];
      dict_simpl; (split_and!; [done|done|]); intros [= H]; unfold error_border in H;
      rewrite append_nil_l in H; by apply Hb.
  - intros Hin. assert (Hd : match connected with None => false | Some c => bool_decide (k ∉ c) end = false).
    { destruct connected as [c|]; [|done]. apply bool_decide_eq_false_2. intros Hk. by apply Hk, (Hin c). }
    rewrite Hd. cbn [negb]. rewrite !andb_true_r.
    destruct (bool_decide (Some k = hl)); destruct (bool_decide (k ∈ ev)) eqn:Ee; dict_simpl;
      (split; [done|]); intros Hk; try (apply bool_decide_eq_false_1 in Ee; done); done.
Qed.

Lemma flow_nodes_elem g positions ev connected hl fnode :
  fnode ∈ (_build_flow_state g positions ev connected hl).1 ↔
  ∃ k node, (k, node) ∈ nodes g ∧ fnode = flow_node g positions ev connected hl k node.
Proof.
  unfold _build_flow_state. cbn [fst]. rewrite elem_of_map. split.
  - intros ([k node] & -> & H). by exists k, node.
  - intros (k & node & H & ->). by exists (k, node).
Qed.

Lemma flow_edges_elem g connected es : ∀ i fe,
  fe ∈ flow_edges_from g connected i es → ∃ j e, e ∈ es ∧ fe = flow_edge g connected j e.
Proof.
  induction es as [|e es IH]; intros i fe; cbn [flow_edges_from]; [by rewrite elem_of_nil|].
  rewrite elem_of_cons. intros [-> | H].
  - exists i, e. split; [by left|done].
  - destruct (IH (S i) fe H) as (j & e' & He' & ->). exists j, e'. split; [by right|done].
Qed.

Lemma flow_edges_map g connected es : ∀ i,
  map (fun fe => (fe_source fe, fe_target fe)) (flow_edges_from g connected i es) =
  map (fun e => (source e, target e)) es.
Proof. induction es as [|e es IH]; intros i; simpl; [done|]. by rewrite IH. Qed.

Lemma flow_nodes_ids g positions ev connected hl :
  map fn_id (_build_flow_state g positions ev connected hl).1 = node_keys g.
Proof.
  unfold _build_flow_state, node_keys. cbn [fst]. rewrite map_map.
  apply map_ext. intros [k node]. reflexivity.
Qed.

Lemma positions_lookup (F : string → Q * Q) (l : list string) : ∀ (m : Positions) k,
  fold_left (fun m node_id => <[node_id := F node_id]> m) l m !! k =
  if decide (k ∈ l) then Some (F k) else m !! k.
Proof.
  induction l as [|n l IH]; intros m k; cbn [fold_left].
  - rewrite decide_False; [done|]. apply not_elem_of_nil.
  - rewrite IH. destruct (decide (k ∈ l)) as [Hk|Hk].
    + rewrite decide_True; [done|]. by right.
    + rewrite lookup_insert. destruct (decide (n = k)) as [-> | Hn].
      * rewrite decide_True; [done|]. by left.
      * rewrite decide_False; [done|]. rewrite elem_of_cons. intros [-> | H]; done.
Qed.

Lemma render_flow_state_spec g ev cached highlight hl ns es :
  render_flow_state g ev cached highlight = Some (hl, (ns, es)) →
  ∃ connected computed,
    calculate_positions g = Some computed ∧
    (ns, es) = _build_flow_state g
      (fold_left (fun m node_id =>
          <[node_id := default (default (0%Q, 0%Q) (computed !! node_id)) (cached !! node_id)]> m)
        (node_keys g) ∅) ev connected hl ∧
    ((hl = None ∧ connected = None) ∨
     ∃ h c, hl = Some h ∧ highlight = Some h ∧ h ≠ "" ∧ h ∈ node_keys g ∧
            get_connected_subgraph g h = Some c ∧ connected = Some c).
Proof.
  unfold render_flow_state.
  destruct highlight as [h|].
  - destruct (negb (String.eqb h "") && dict_mem h (nodes g)) eqn:Eh.
    + apply andb_prop in Eh as [Eh1 Eh2].
      destruct (get_connected_subgraph g h) as [c|] eqn:Ec; [|done]. cbn [fmap option_fmap option_map].
      destruct (calculate_positions g) as [computed|] eqn:Ep; [|done].
      intros [= <- <- <-]. exists (Some c), computed. split_and!; [done|reflexivity|].
      right. exists h, c. split_and!; try done.
      * intros ->. done.
      * by apply dict_mem_keys.
    + destruct (calculate_positions g) as [computed|] eqn:Ep; [|done].
      intros [= <- <- <-]. exists None, computed. split_and!; [done|reflexivity|by left].
  - destruct (calculate_positions g) as [computed|] eqn:Ep; [|done].
    intros [= <- <- <-]. exists None, computed. split_and!; [done|reflexivity|by left].
Qed.

Lemma flow_edge_style_spec g connected i e :
  let fe := flow_edge g connected i e in
  fe_source fe = source e ∧ fe_target fe = target e ∧
  (fe_animated fe = true ↔ ∀ c, connected = Some c → source e ∈ c ∧ target e ∈ c) ∧
  (fe_animated fe = false →
     dict_get "opacity" (fe_style fe) = Some "0.08" ∧ dict_get "strokeWidth" (fe_style fe) = Some "1") ∧
  (fe_animated fe = true →
     dict_get "opacity" (fe_style fe) = None ∧ dict_get "strokeWidth" (fe_style fe) = Some "1.5") ∧
  dict_get "stroke" (fe_style fe) = Some (fe_color fe) ∧
  (fe_color fe = "#E51745" ↔ source e ∈ mv_names g).
Proof.
  unfold flow_edge. cbv zeta. cbn [fe_source fe_target fe_animated fe_style fe_color].
  assert (Hc : (if bool_decide (source e ∈ mv_names g) then "#E51745" else "#07A4AE") = "#E51745"
               ↔ source e ∈ mv_names g).
  { case_bool_decide; split; done. }
  destruct connected as [c|].
  - destruct (bool_decide (source e ∉ c)) eqn:E1; destruct (bool_decide (target e ∉ c)) eqn:E2;
      cbn [orb negb]; dict_simpl.
    + apply bool_decide_eq_true_1 in E1.
      split_and!; try done. split; [discriminate|]. intros H. by destruct (H c eq_refl).
    + apply bool_decide_eq_true_1 in E1.
      split_and!; try done. split; [discriminate|]. intros H. by destruct (H c eq_refl).
    + apply bool_decide_eq_true_1 in E2.
      split_and!; try done. split; [discriminate|]. intros H. by destruct (H c eq_refl).
    + apply bool_decide_eq_false_1 in E1, E2.
      split_and!; try done. split; [|done]. intros _ c' [= <-].
      split; apply dec_stable; done.
  - cbn [negb]. dict_simpl. split_and!; try done.
Qed.

Lemma flow_edges_index g connected es : ∀ i,
  map fe_index (flow_edges_from g connected i es) = seq i (List.length es).
Proof. induction es as [|e es IH]; intros i; simpl; [done|]. by rewrite IH. Qed.

Lemma keys_dict_mem {V} (k : string) (d : list (string * V)) :
  k ∈ map fst d → dict_mem k d = true.
Proof.
  unfold dict_mem. induction d as [|[k' v'] d IH]; cbn [map fst dict_get]; [by rewrite elem_of_nil|].
  rewrite elem_of_cons. case_decide as Hd; [done|]. intros [-> | Hk]; [done|]. by apply IH.
Qed.

Lemma render_flow_state_kept g ev cached h :
  h ≠ "" → h ∈ node_keys g →
  ∀ hl ns es, render_flow_state g ev cached (Some h) = Some (hl, (ns, es)) → hl = Some h.
Proof.
  intros Hne Hk hl ns es. unfold render_flow_state.
  assert (Hc : negb (String.eqb h "") && dict_mem h (nodes g) = true).
  { apply andb_true_intro. split.
    - apply negb_true_iff, String.eqb_neq. done.
    - by apply keys_dict_mem. }
  rewrite Hc. destruct (get_connected_subgraph g h); [|done]. cbn [fmap option_fmap option_map].
  destruct (calculate_positions g); [|done]. by intros [= <- _ _].
Qed.

End RendererFacts.

Module NameFacts.
Import Graph Renderer ParserFacts.

Lemma string_length_append (s t : string) : String.length (s +:+ t) = String.length s + String.length t.
Proof. induction s as [|a s IH]; [done|]. rewrite append_cons. simpl. by rewrite IH. Qed.

Lemma substring_length (s : string) : ∀ n, n ≤ String.length s → String.length (substring 0 n s) = n.
Proof.
  induction s as [|a s IH]; intros [|n] Hn; simpl in *; try lia; try done. rewrite IH; lia.
Qed.

Lemma substring_prefix (s : string) : ∀ n, String.prefix (substring 0 n s) s = true.
Proof.
  induction s as [|a s IH]; intros [|n]; simpl; try done.
  destruct (ascii_dec a a); [apply IH|congruence].
Qed.

Lemma display_name_spec (nm : string) :
  String.length (display_name nm) ≤ 35 ∧
  (String.length nm ≤ 35 → display_name nm = nm) ∧
  (35 < String.length nm → ∃ pre, display_name nm = pre +:+ "..." ∧ String.length pre = 32 ∧
                                  String.prefix pre nm = true).
Proof.
  unfold display_name. destruct (Nat.leb_spec (String.length nm) 35) as [Hle|Hlt].
  - split_and!; [done|done|lia].
  - rewrite string_length_append, substring_length by lia. split_and!; [simpl; lia|lia|].
    intros _. exists (substring 0 32 nm). split_and!; [done| |].
    + apply substring_length. lia.
    + apply substring_prefix.
Qed.

End NameFacts.

Module RenderFacts2.
Import Graph Layout Props GraphFacts LayoutFacts ClusterFacts PosFacts SubgraphFacts
  Renderer RendererFacts.

Lemma render_flow_state_some g ev cached highlight :
  List.length (nodes g) + List.length (edges g) < max_level_depth →
  edges_closed g →
  ∃ hl ns es computed, render_flow_state g ev cached highlight = Some (hl, (ns, es)) ∧
    calculate_positions g = Some computed ∧
    map fn_id ns = node_keys g ∧
    map (fun fe => (fe_source fe, fe_target fe)) es = map (fun e => (source e, target e)) (edges g) ∧
    ∀ fnode, fnode ∈ ns → ∃ p, computed !! fn_id fnode = Some p ∧
      fn_pos fnode = default p (cached !! fn_id fnode).
Proof.
  intros Hsmall Hcl. destruct (calculate_positions_some g Hsmall Hcl) as (computed & Hc & Hdom).
  destruct (render_flow_state g ev cached highlight) as [[hl [ns es]]|] eqn:E.
  - destruct (render_flow_state_spec g ev cached highlight hl ns es E)
      as (connected & computed' & Hc' & Hb & _).
    rewrite Hc in Hc'. injection Hc' as <-.
    exists hl, ns, es, computed. split_and!; [done|done| | |].
    + replace ns with (_build_flow_state g
        (fold_left (fun m node_id =>
          <[node_id := default (default (0%Q, 0%Q) (computed !! node_id)) (cached !! node_id)]> m)
        (node_keys g) ∅) ev connected hl).1 by (by rewrite <- Hb).
      apply flow_nodes_ids.
    + replace es with (_build_flow_state g
        (fold_left (fun m node_id =>
          <[node_id := default (default (0%Q, 0%Q) (computed !! node_id)) (cached !! node_id)]> m)
        (node_keys g) ∅) ev connected hl).2 by (by rewrite <- Hb).
      apply flow_edges_map.
    + intros fnode Hf.
      assert (Hf' : fnode ∈ (_build_flow_state g
        (fold_left (fun m node_id =>
          <[node_id := default (default (0%Q, 0%Q) (computed !! node_id)) (cached !! node_id)]> m)
        (node_keys g) ∅) ev connected hl).1) by (by rewrite <- Hb).
      apply flow_nodes_elem in Hf' as (k & node & Hk & ->).
      assert (Hkk : k ∈ node_keys g).
      { unfold node_keys. apply elem_of_map. by exists (k, node). }
      destruct (proj2 (Hdom k) Hkk) as [p Hp].
      exists p. cbn [fn_pos fn_id flow_node]. split; [done|].
      rewrite positions_lookup, decide_True by done. simpl. by rewrite Hp.
  - exfalso. revert E. unfold render_flow_state. rewrite Hc.
    destruct highlight as [h|]; [|done].
    destruct (negb (String.eqb h "") && dict_mem h (nodes g)); [|done].
    destruct (get_connected_subgraph_core g h) as (c & -> & _). done.
Qed.

End RenderFacts2.

Module Claims.
Import Parser Graph Layout Props Examples GraphFacts SortFacts ParserFacts LayoutFacts.

(** C1: for every input of [build_lineage], every edge's source and target,
    every element of [mv_names] and every element of [target_names] is a key
    of the [nodes] mapping of the result. *)
Theorem build_lineage_integrity (mv_df : list MvRow) (schema_df : list SchemaRow) :
  graph_integrity (build_lineage mv_df schema_df).
Proof.
  unfold build_lineage. generalize (build_engine_lookup schema_df) as el. intros el.
  assert (H0 : graph_integrity empty_graph).
  { unfold graph_integrity, edges_closed; simpl. set_solver. }
  revert H0. generalize empty_graph as g.
  induction mv_df as [|row rows IH]; intros g Hg; simpl; [done|].
  apply IH, build_step_integrity, Hg.
Qed.

(** C2 (as claimed): once a name is registered its entry never changes.
    Refuted: [d.v2] is first registered as a source of [d.v1] with engine
    ["Source"]; the record of the view [d.v2] then overwrites it with a
    ["MaterializedView"] node. *)
Lemma first_registration_overwritten :
  engine <$> dict_get "d.v2" (nodes (build_lineage [row_v1] [])) = Some "Source" ∧
  engine <$> dict_get "d.v2" (nodes (build_lineage [row_v1; row_v2] [])) = Some "MaterializedView".
Proof. split; vm_compute; reflexivity. Qed.

(** C2 (amended): an entry registered by the first records stays unchanged
    through any later records, except that a later record of the view with
    that very name unconditionally replaces it by that view's
    MaterializedView node (the last such record wins). Source and target
    discoveries never overwrite an entry. *)
Theorem build_lineage_registration_kept (mv1 mv2 : list MvRow) (schema_df : list SchemaRow)
    (k : string) (v : TableNode) :
  dict_get k (nodes (build_lineage mv1 schema_df)) = Some v →
  dict_get k (nodes (build_lineage (mv1 ++ mv2) schema_df)) =
  Some (default v (last_view_node k mv2)).
Proof.
  intros Hk. rewrite build_lineage_app. by apply fold_build_step_entry.
Qed.

Lemma build_lineage_registration_kept_witness :
  dict_get "d.v2" (nodes (build_lineage [row_v1] [])) = Some (new_TableNode "d" "v2" "Source" "") ∧
  dict_get "d.v2" (nodes (build_lineage ([row_v1] ++ [row_v2]) [])) =
  Some (default (new_TableNode "d" "v2" "Source" "") (last_view_node "d.v2" [row_v2])).
Proof.
  split; [vm_compute; reflexivity|].
  apply (build_lineage_registration_kept [row_v1] [row_v2] [] "d.v2").
  vm_compute; reflexivity.
Defined.

(** C6 (as claimed): the target is added to [target_names] only when it is
    not already a node. Refuted: with [mv_b] (reading [d.agg_a]) listed
    before [mv_a] (writing [d.agg_a]), [d.agg_a] is already a node when
    [mv_a] is processed, is not yet in [target_names], and is added to it. *)
Lemma target_added_when_already_node :
  (fst (parse_target_table (create_table_query row_mv_a) "d" "mv_a") = "d.agg_a") ∧
  ("d.agg_a" ∈ node_keys (build_lineage [row_mv_b] [])) ∧
  ("d.agg_a" ∉ target_names (build_lineage [row_mv_b] [])) ∧
  ("d.agg_a" ∈ target_names (build_step (build_engine_lookup []) (build_lineage [row_mv_b] []) row_mv_a)).
Proof.
  split_and!.
  - vm_compute. reflexivity.
  - apply list_elem_of_In. vm_compute. auto 10.
  - apply (bool_decide_eq_false_1 ("d.agg_a" ∈ target_names (build_lineage [row_mv_b] []))).
    vm_compute. reflexivity.
  - apply (bool_decide_eq_true_1 ("d.agg_a" ∈ target_names
      (build_step (build_engine_lookup []) (build_lineage [row_mv_b] []) row_mv_a))).
    vm_compute. reflexivity.
Qed.

(** C6 (amended): for every view record, the target's full_name is added to
    [target_names] whether or not the target is already a node, and the target
    is a node afterwards; engine resolution and registration happen only for
    a target that is not yet a node, so an existing entry (other than the
    view's own, re-registered in step 1) is kept. *)
Theorem build_step_target (el : gmap string string) (g : LineageGraph) (row : MvRow) :
  let t := fst (parse_target_table (create_table_query row) (row_database row) (row_name row)) in
  target_names (build_step el g row) = {[t]} ∪ target_names g ∧
  t ∈ node_keys (build_step el g row) ∧
  (∀ v, dict_get t (nodes g) = Some v → t ≠ view_full_name row →
        dict_get t (nodes (build_step el g row)) = Some v).
Proof.
  simpl. split_and!.
  - apply build_step_target_names.
  - unfold build_step.
    destruct (parse_target_table (create_table_query row) (row_database row) (row_name row))
      as [tgt impl] eqn:Et; simpl.
    unfold node_keys; simpl.
    case_match eqn:Em; [by apply dict_mem_keys|].
    case_match. apply dict_set_keys. by left.
  - intros v Hv Hne. rewrite (build_step_entry el g row _ v Hv). by case_decide.
Qed.

Lemma build_step_target_witness :
  dict_get "d.agg_a" (nodes (build_lineage [row_mv_b] [])) =
    Some (new_TableNode "d" "agg_a" "Source" "") ∧
  dict_get "d.agg_a" (nodes (build_step (build_engine_lookup []) (build_lineage [row_mv_b] []) row_mv_a)) =
    Some (new_TableNode "d" "agg_a" "Source" "").
Proof.
  split; [vm_compute; reflexivity|].
  destruct (build_step_target (build_engine_lookup []) (build_lineage [row_mv_b] []) row_mv_a)
    as (_ & _ & H).
  apply H; vm_compute; [reflexivity|discriminate].
Defined.

(** C8: the list returned by [parse_source_tables] has no duplicates, is
    sorted lexicographically, and depends only on the set of qualified FROM/JOIN
    references of the text: two queries whose references form the same set
    give the same list, whatever the order or repetition of the clauses. *)
Theorem parse_source_tables_canonical (q1 q2 mv_database : string) :
  NoDup (parse_source_tables q1 mv_database) ∧
  Sorted String.le (parse_source_tables q1 mv_database) ∧
  ((∀ x, x ∈ source_refs q1 mv_database ↔ x ∈ source_refs q2 mv_database) →
   parse_source_tables q1 mv_database = parse_source_tables q2 mv_database).
Proof.
  assert (Hout : ∀ q, parse_source_tables q mv_database =
                      sort_strings (fold_left set_add (source_refs q mv_database) [])).
  { intros q. unfold parse_source_tables, source_refs. by destruct (search_as_select None q). }
  rewrite !Hout. split_and!.
  - rewrite sort_strings_perm. apply fold_set_add_spec. constructor.
  - apply sort_strings_sorted.
  - intros Hsame.
    destruct (fold_set_add_spec (source_refs q1 mv_database) [] (NoDup_nil_2)) as [Hnd1 Hm1].
    destruct (fold_set_add_spec (source_refs q2 mv_database) [] (NoDup_nil_2)) as [Hnd2 Hm2].
    apply (StronglySorted_unique String.le);
      [apply sort_strings_ssorted..|].
    etrans; [apply sort_strings_perm|]. symmetry.
    etrans; [apply sort_strings_perm|]. symmetry.
    apply NoDup_Permutation; [done..|].
    intros x. rewrite Hm1, Hm2, Hsame. set_solver.
Qed.

Lemma parse_source_tables_canonical_witness :
  parse_source_tables "CREATE MATERIALIZED VIEW d.v AS SELECT * FROM d.b JOIN d.a JOIN d.b" "d" =
  parse_source_tables "CREATE MATERIALIZED VIEW d.v AS SELECT * FROM d.a JOIN d.b" "d".
Proof.
  apply (parse_source_tables_canonical
           "CREATE MATERIALIZED VIEW d.v AS SELECT * FROM d.b JOIN d.a JOIN d.b"
           "CREATE MATERIALIZED VIEW d.v AS SELECT * FROM d.a JOIN d.b" "d").
  intros x. vm_compute. set_solver.
Defined.

(** C9 (as claimed): the select part starts at the first token AS followed by
    the token SELECT with any characters in between. Refuted: in
    [... AS (SELECT * FROM d.t)] the claim's select part is found and names
    [d.t], but the pattern [\bAS\s+SELECT\b] admits only whitespace between
    the tokens, so the code finds no match and returns the empty list. *)
Lemma as_then_parenthesised_select :
  claim_select_part None "CREATE MATERIALIZED VIEW d.v AS (SELECT * FROM d.t)" =
    Some "AS (SELECT * FROM d.t)" ∧
  select_refs "AS (SELECT * FROM d.t)" "d" = ["d.t"] ∧
  parse_source_tables "CREATE MATERIALIZED VIEW d.v AS (SELECT * FROM d.t)" "d" = [].
Proof. split_and!; vm_compute; reflexivity. Qed.

(** C9 (amended): FROM/JOIN references are read only from the text starting
    at the first position where the token AS (any case), a non-empty run of
    whitespace (newlines included) and the token SELECT (any case) occur,
    each token on a word boundary; with no such position the result is the
    empty list. *)
Theorem parse_source_tables_select_part (q mv_database : string) :
  ((∀ i, i ≤ String.length q → ¬ as_select_pattern (char_before None q i) (drop_str i q)) →
   parse_source_tables q mv_database = []) ∧
  (∀ i, i ≤ String.length q →
   as_select_pattern (char_before None q i) (drop_str i q) →
   (∀ j, j < i → ¬ as_select_pattern (char_before None q j) (drop_str j q)) →
   parse_source_tables q mv_database =
   sort_strings (fold_left set_add (select_refs (drop_str i q) mv_database) [])).
Proof.
  unfold parse_source_tables. split.
  - intros Hnone. rewrite search_as_select_none; [done|].
    intros j Hj. apply not_true_is_false. rewrite as_select_at_spec. by apply Hnone.
  - intros i Hi Hat Hbefore. rewrite (search_as_select_first None q i); [done| | |done].
    + by apply as_select_at_spec.
    + intros j Hj. apply not_true_is_false. rewrite as_select_at_spec. by apply Hbefore.
Qed.

Lemma parse_source_tables_select_part_witness :
  parse_source_tables "AS (SELECT)" "d" = [] ∧
  parse_source_tables "x AS
SELECT * FROM t" "d" =
  sort_strings (fold_left set_add (select_refs (drop_str 2 "x AS
SELECT * FROM t") "d") []).
Proof.
  split.
  - apply (proj1 (parse_source_tables_select_part "AS (SELECT)" "d")).
    intros i Hi. rewrite <- as_select_at_spec. simpl in Hi.
    do 12 (destruct i as [|i]; [vm_compute; discriminate|]). lia.
  - apply (proj2 (parse_source_tables_select_part "x AS
SELECT * FROM t" "d") 2).
    + simpl. lia.
    + apply as_select_at_spec. vm_compute. reflexivity.
    + intros j Hj. rewrite <- as_select_at_spec.
      destruct j as [|[|j]]; [vm_compute; discriminate..|lia].
Defined.

(** C4 (as claimed): for a non-empty graph the mean of the returned y
    coordinates is 0. Refuted: for one edge [A -> B] and an isolated node [C]
    the y coordinates are -105, -105 and 105, whose mean is -35. *)
Lemma layout_mean_not_zero :
  match calculate_positions g_pair with
  | Some pos => pos ≠ ∅ ∧ ¬ (y_mean pos == 0)%Q
  | None => False
  end.
Proof. vm_compute. split; intros H; discriminate H. Qed.

(** C4 (amended): whenever [calculate_positions] returns a non-empty mapping,
    the layout is centred on the midpoint of its vertical extent: the least
    and the greatest y coordinate sum to 0 (the mean need not be 0). *)
Theorem calculate_positions_centered (g : LineageGraph) (pos : Positions) :
  calculate_positions g = Some pos → pos ≠ ∅ →
  (list_min (all_ys pos) + list_max (all_ys pos) == 0)%Q.
Proof.
  intros Hc Hne. destruct (calculate_positions_recenter g pos Hc) as [-> | (p & Hp & ->)];
    [done|]. by apply recenter_centered.
Qed.

Lemma calculate_positions_centered_witness :
  match calculate_positions g_pair with
  | Some pos => (list_min (all_ys pos) + list_max (all_ys pos) == 0)%Q
  | None => False
  end.
Proof.
  destruct (calculate_positions g_pair) as [pos|] eqn:E; [|vm_compute in E; discriminate E].
  apply (calculate_positions_centered g_pair pos E).
  intros ->. vm_compute in E. discriminate E.
Defined.

(** C5 (code): the level-1 nodes of a cluster are not ordered by their
    parents' y coordinates. In [g_fan] the only parent of [x] is [a] and
    the only parent of [y] is [b]; [a] is placed above [b], yet [y] is placed
    above [x]: the sort keys are computed from the positions known before the
    cluster is placed, which hold none of the parents, so every key is 0 and
    the order is the iteration order of the cluster set. *)
Lemma level_one_order_ignores_parents :
  incoming (edges g_fan) "x" = ["a"] ∧ incoming (edges g_fan) "y" = ["b"] ∧
  match calculate_positions g_fan with
  | Some pos =>
      match pos !! "a", pos !! "b", pos !! "x", pos !! "y" with
      | Some (_, ya), Some (_, yb), Some (_, yx), Some (_, yy) => (ya < yb)%Q ∧ (yy < yx)%Q
      | _, _, _, _ => False
      end
  | None => False
  end.
Proof. split_and!; vm_compute; [reflexivity|reflexivity|split; reflexivity]. Qed.

(** C7 (code): [get_connected_subgraph] misses nodes reachable backwards.
    In [g_back] ([s -> m], [m -> s], [y -> m]) the node [y] reaches [s]
    along [y -> m -> s], but the result from [s] is [{s, m}]: the forward
    traversal puts [m] into the shared [connected] set, so the backward
    traversal never enqueues [m] and never reaches [y]. *)
Lemma connected_misses_backward_reachable :
  get_connected_subgraph g_back "s" = Some {["s"; "m"]} ∧
  "m" ∈ incoming (edges g_back) "s" ∧ "y" ∈ incoming (edges g_back) "m" ∧
  "y" ∉ ({["s"; "m"]} : gset string).
Proof.
  split_and!.
  - vm_compute. reflexivity.
  - apply list_elem_of_In. vm_compute. auto.
  - apply list_elem_of_In. vm_compute. auto.
  - set_solver.
Qed.




(** C10: the mapping returned by [calculate_positions] is injective: for every
    graph on which it returns, two distinct nodes never receive the same
    (x, y) pair (equal as rationals). *)
Theorem calculate_positions_injective (g : LineageGraph) (pos : Positions)
    (u v : string) (xu yu xv yv : Q) :
  calculate_positions g = Some pos →
  pos !! u = Some (xu, yu) → pos !! v = Some (xv, yv) → u ≠ v →
  ¬ ((xu == xv)%Q ∧ (yu == yv)%Q).
Proof.
  unfold calculate_positions. destruct (nodes g).
  - intros [= <-] Hu. discriminate Hu.
  - destruct (compute_levels g) as [levels|]; [|done].
    destruct (_find_clusters g) as [cs|]; [|done].
    destruct (place_clusters _ _ _) as [[p0 cy]|] eqn:Ep; [|done]. intros [= <-].
    apply recenter_inj. by apply place_clusters_inj in Ep.
Qed.

Lemma calculate_positions_injective_witness :
  match calculate_positions g_fan with
  | Some pos =>
      match pos !! "x", pos !! "y" with
      | Some (xu, yu), Some (xv, yv) => ¬ ((xu == xv)%Q ∧ (yu == yv)%Q)
      | _, _ => False
      end
  | None => False
  end.
Proof.
  destruct (calculate_positions g_fan) as [pos|] eqn:E; [|vm_compute in E; discriminate E].
  destruct (pos !! "x") as [[xu yu]|] eqn:Ex;
    [|vm_compute in E; injection E as <-; vm_compute in Ex; discriminate Ex].
  destruct (pos !! "y") as [[xv yv]|] eqn:Ey;
    [|vm_compute in E; injection E as <-; vm_compute in Ey; discriminate Ey].
  apply (calculate_positions_injective g_fan pos "x" "y" xu yu xv yv E Ex Ey).
  discriminate.
Defined.

End Claims.

(** * Further properties of the lineage code *)

Module Extras.
Import Parser Graph Layout Renderer Props Examples GraphFacts SortFacts ParserFacts LayoutFacts BuildFacts
  ClusterFacts LevelFacts PosFacts SubgraphFacts RendererFacts NameFacts RenderFacts2.

(** X1: every table name [parse_source_tables] returns is qualified: it
    contains a dot; and it contains no backtick when the view's database
    name has none (backticks of quoted identifiers are removed). *)
Theorem parse_source_tables_qualified (q d x : string) :
  x ∈ parse_source_tables q d →
  has_char "." x = true ∧ (has_char "`" d = false → has_char "`" x = false).
Proof.
  intros Hx. apply parse_source_tables_elem in Hx as [r ->].
  split; [apply qualify_dot|]. intros Hd.
  destruct (has_char "`" (_qualify_table_name r d)) eqn:E; [|done].
  apply qualify_backtick in E. congruence.
Qed.

Lemma parse_source_tables_qualified_witness :
  has_char "." "d.t" = true ∧ (has_char "`" "d" = false → has_char "`" "d.t" = false).
Proof.
  apply (parse_source_tables_qualified
           "CREATE MATERIALIZED VIEW d.v AS SELECT * FROM `t` JOIN e.f" "d" "d.t").
  assert (E : parse_source_tables "CREATE MATERIALIZED VIEW d.v AS SELECT * FROM `t` JOIN e.f" "d"
              = ["d.t"; "e.f"]) by (vm_compute; reflexivity).
  rewrite E. constructor.
Defined.

(** X2: the target [parse_target_table] returns always contains a dot; an
    explicit [TO] target contains no backtick when the view's database name
    has none; an implicit target is [db.`.inner.name`]. *)
Theorem parse_target_table_qualified (q d m : string) :
  has_char "." (fst (parse_target_table q d m)) = true ∧
  (snd (parse_target_table q d m) = false → has_char "`" d = false →
   has_char "`" (fst (parse_target_table q d m)) = false) ∧
  (snd (parse_target_table q d m) = true →
   fst (parse_target_table q d m) = d +:+ ".`.inner." +:+ m +:+ "`").
Proof.
  split; [apply parse_target_dot|].
  unfold parse_target_table. destruct (find_refs "TO" q) as [|r rs]; simpl.
  - split; [discriminate|done].
  - split; [|discriminate]. intros _ Hd.
    destruct (has_char "`" (_qualify_table_name r d)) eqn:E; [|done].
    apply qualify_backtick in E. congruence.
Qed.

(** X3: in the graph [build_lineage] returns, every node is stored under its
    own [full_name]. *)
Theorem build_lineage_full_names (rows : list MvRow) (schema_df : list SchemaRow)
    (k : string) (n : TableNode) :
  dict_get k (nodes (build_lineage rows schema_df)) = Some n → full_name n = k.
Proof. apply build_lineage_names_match. Qed.

Lemma build_lineage_full_names_witness :
  dict_get "d.v2" (nodes (build_lineage [row_v1; row_v2] [])) =
    Some (new_TableNode "d" "v2" "MaterializedView" "") ∧
  full_name (new_TableNode "d" "v2" "MaterializedView" "") = "d.v2".
Proof.
  split; [vm_compute; reflexivity|].
  apply (build_lineage_full_names [row_v1; row_v2] [] "d.v2").
  vm_compute. reflexivity.
Defined.

(** X4: every name in [mv_names] is a node whose engine is
    ["MaterializedView"], also when the name was first registered as the
    source or the target of an earlier view. *)
Theorem build_lineage_mv_engine (rows : list MvRow) (schema_df : list SchemaRow) (k : string) :
  k ∈ mv_names (build_lineage rows schema_df) →
  ∃ n, dict_get k (nodes (build_lineage rows schema_df)) = Some n ∧
       engine n = "MaterializedView".
Proof.
  unfold build_lineage. generalize (build_engine_lookup schema_df). intros el.
  assert (H0 : ∀ k, k ∈ mv_names empty_graph →
     ∃ n, dict_get k (nodes empty_graph) = Some n ∧ engine n = "MaterializedView")
    by (intros k' Hk; by apply elem_of_empty in Hk).
  revert k. revert H0. generalize empty_graph.
  induction rows as [|r rows IH]; intros g Hg; simpl; [done|].
  apply IH. by apply build_step_mv_engine.
Qed.

Lemma build_lineage_mv_engine_witness :
  ∃ n, dict_get "d.v2" (nodes (build_lineage [row_v1; row_v2] [])) = Some n ∧
       engine n = "MaterializedView".
Proof.
  apply (build_lineage_mv_engine [row_v1; row_v2] [] "d.v2").
  vm_compute. set_solver.
Defined.

(** X5: the edges of the graph are, in order, those of each row of [mv_df]:
    one edge per source into the view, then the edge from the view to its
    target. They depend neither on [schema_df] nor on which nodes were
    already registered. *)
Theorem build_lineage_edges (rows : list MvRow) (schema_df : list SchemaRow) :
  edges (build_lineage rows schema_df) = flat_map row_edges rows.
Proof.
  unfold build_lineage. generalize (build_engine_lookup schema_df). intros el.
  assert (Hgen : ∀ g, edges (fold_left (build_step el) rows g) = edges g ++ flat_map row_edges rows).
  { induction rows as [|r rows IH]; intros g; simpl; [by rewrite app_nil_r|].
    by rewrite IH, build_step_edges, app_assoc. }
  by rewrite Hgen.
Qed.

(** X6: [mv_names] is exactly the set of the rows' view names, and
    [target_names] exactly the set of the targets parsed from the rows. *)
Theorem build_lineage_name_sets (rows : list MvRow) (schema_df : list SchemaRow) :
  mv_names (build_lineage rows schema_df) = list_to_set (map row_full_name rows) ∧
  target_names (build_lineage rows schema_df) = list_to_set (map row_target rows).
Proof.
  unfold build_lineage. generalize (build_engine_lookup schema_df). intros el.
  assert (Hm : ∀ g, mv_names (fold_left (build_step el) rows g) =
                    list_to_set (map row_full_name rows) ∪ mv_names g).
  { induction rows as [|r rows IH]; intros g; simpl; [apply leibniz_equiv; set_solver|].
    rewrite IH, build_step_mv_names. unfold view_full_name, row_full_name.
    apply leibniz_equiv. set_solver. }
  assert (Ht : ∀ g, target_names (fold_left (build_step el) rows g) =
                    list_to_set (map row_target rows) ∪ target_names g).
  { clear Hm. induction rows as [|r rows IH]; intros g; simpl; [apply leibniz_equiv; set_solver|].
    rewrite IH, build_step_target_names. unfold row_target.
    apply leibniz_equiv. set_solver. }
  rewrite Hm, Ht. simpl. split; apply leibniz_equiv; set_solver.
Qed.


(** X7: the sort key of a non-empty cluster is its least name. *)
Theorem cluster_sort_key_least (C : gset string) :
  C ≠ ∅ → _get_cluster_sort_key C ∈ C ∧ ∀ x, x ∈ C → String.le (_get_cluster_sort_key C) x.
Proof.
  intros HC. unfold _get_cluster_sort_key.
  pose proof (sort_strings_ssorted (elements C)) as Hs.
  pose proof (sort_strings_perm (elements C)) as Hp.
  destruct (sort_strings (elements C)) as [|k l].
  - exfalso. apply HC. apply Permutation_nil in Hp. apply leibniz_equiv.
    by apply elements_empty_iff.
  - split.
    + apply elem_of_elements. rewrite <- Hp. by left.
    + intros x Hx. apply elem_of_elements in Hx. rewrite <- Hp in Hx.
      apply elem_of_cons in Hx as [->|Hx]; [unfold String.le; by destruct (String.leb_total k k)|].
      apply StronglySorted_inv in Hs as [_ Hs]. rewrite Forall_forall in Hs.
      by apply Hs.
Qed.

Lemma cluster_sort_key_least_witness :
  _get_cluster_sort_key {["b"; "a"]} ∈ ({["b"; "a"]} : gset string) ∧
  ∀ x, x ∈ ({["b"; "a"]} : gset string) → String.le (_get_cluster_sort_key {["b"; "a"]}) x.
Proof. apply cluster_sort_key_least. vm_compute. discriminate. Defined.

(** X8: on a graph whose edges join nodes of the graph, [_find_clusters]
    returns the connected components: distinct, pairwise disjoint clusters
    covering exactly the nodes, each containing both ends of an edge or
    neither, each connected through edges followed in either direction. *)
Theorem find_clusters_components (g : LineageGraph) :
  edges_closed g →
  ∃ cs, _find_clusters g = Some cs ∧ NoDup cs ∧
    (∀ k, k ∈ node_keys g ↔ ∃ C, C ∈ cs ∧ k ∈ C) ∧
    (∀ C1 C2, C1 ∈ cs → C2 ∈ cs → C1 ≠ C2 → C1 ## C2) ∧
    (∀ C, C ∈ cs → (∀ e, e ∈ edges g → (source e ∈ C ↔ target e ∈ C)) ∧
                   ∃ s, s ∈ C ∧ ∀ x, x ∈ C → ureach (edges g) s x).
Proof.
  intros Hcl. destruct (find_clusters_some g Hcl) as (cs & Ecs & Hsub & Hcov).
  destruct (find_clusters_inv g cs Ecs) as [(_ & Hnd & Hc & Hdj) _].
  exists cs. split_and!; [done|done| |done|].
  - intros k. split; [apply Hcov|]. intros (C & HC & Hk). by apply (Hsub C HC).
  - intros C HC. destruct (Hc C HC) as [Hr He]. split; [done|]. done.
Qed.

Lemma find_clusters_components_witness :
  ∃ cs, _find_clusters g_fan = Some cs ∧ NoDup cs ∧
    (∀ k, k ∈ node_keys g_fan ↔ ∃ C, C ∈ cs ∧ k ∈ C) ∧
    (∀ C1 C2, C1 ∈ cs → C2 ∈ cs → C1 ≠ C2 → C1 ## C2) ∧
    (∀ C, C ∈ cs → (∀ e, e ∈ edges g_fan → (source e ∈ C ↔ target e ∈ C)) ∧
                   ∃ s, s ∈ C ∧ ∀ x, x ∈ C → ureach (edges g_fan) s x).
Proof.
  apply find_clusters_components.
  assert (H : Forall (fun e => source e ∈ node_keys g_fan ∧ target e ∈ node_keys g_fan) (edges g_fan)).
  { apply (bool_decide_eq_true_1
      (Forall (fun e => source e ∈ node_keys g_fan ∧ target e ∈ node_keys g_fan) (edges g_fan))).
    vm_compute. reflexivity. }
  rewrite Forall_forall in H. exact H.
Defined.


(** X9: on a graph without directed cycles, whose edges join its nodes and
    that has fewer than [max_level_depth] nodes and edges in total (so that
    the recursion of [get_level] stays far inside Python's recursion
    limit), the level computation of [calculate_positions] gives every node
    a level, every parent of a node a
    strictly smaller level, and a node a positive level only when a parent
    has exactly one less: the level is the length of the longest path of
    edges ending at the node. *)
Theorem compute_levels_longest_path (g : LineageGraph) :
  List.length (nodes g) + List.length (edges g) < max_level_depth → edges_closed g → ranked (edges g) →
  ∃ lv, compute_levels g = Some lv ∧ (∀ k, k ∈ node_keys g → is_Some (lv !! k)) ∧
        levels_ok (edges g) lv.
Proof. intros Hsmall _ Hr. by apply compute_levels_ranked. Qed.

Lemma g_fan_ranked : ranked (edges g_fan).
Proof.
  exists (fun s => if String.eqb s "a" || String.eqb s "b" then 0 else 1).
  assert (H : Forall (fun e => (if String.eqb (source e) "a" || String.eqb (source e) "b" then 0 else 1) <
                               (if String.eqb (target e) "a" || String.eqb (target e) "b" then 0 else 1))
                     (edges g_fan)).
  { apply (bool_decide_eq_true_1 (Forall _ _)). vm_compute. reflexivity. }
  rewrite Forall_forall in H. exact H.
Qed.

Lemma g_fan_closed : edges_closed g_fan.
Proof.
  assert (H : Forall (fun e => source e ∈ node_keys g_fan ∧ target e ∈ node_keys g_fan) (edges g_fan)).
  { apply (bool_decide_eq_true_1
      (Forall (fun e => source e ∈ node_keys g_fan ∧ target e ∈ node_keys g_fan) (edges g_fan))).
    vm_compute. reflexivity. }
  rewrite Forall_forall in H. exact H.
Qed.

Lemma g_fan_small : List.length (nodes g_fan) + List.length (edges g_fan) < max_level_depth.
Proof. apply Nat.ltb_lt. vm_compute. reflexivity. Qed.

Lemma compute_levels_longest_path_witness :
  ∃ lv, compute_levels g_fan = Some lv ∧ (∀ k, k ∈ node_keys g_fan → is_Some (lv !! k)) ∧
        levels_ok (edges g_fan) lv.
Proof. apply compute_levels_longest_path; [exact g_fan_small | exact g_fan_closed | exact g_fan_ranked]. Defined.

(** X10: every position [calculate_positions] produces has the x
    coordinate [level * x_spacing + 80] of the node's topological level;
    recentering moves y only. *)
Theorem calculate_positions_column_x (g : LineageGraph) (lv : gmap string nat) (pos : Positions)
    (k : string) (x y : Q) :
  calculate_positions g = Some pos → compute_levels g = Some lv → pos !! k = Some (x, y) →
  ∃ l, lv !! k = Some l ∧ x = (Qofnat l * x_spacing + 80)%Q.
Proof. apply calculate_positions_x. Qed.

Lemma calculate_positions_column_x_witness :
  ∃ l, default ∅ (compute_levels g_fan) !! "z" = Some l ∧
       fst (default (0%Q, 0%Q) (default ∅ (calculate_positions g_fan) !! "z")) =
         (Qofnat l * x_spacing + 80)%Q.
Proof.
  apply (calculate_positions_column_x g_fan (default ∅ (compute_levels g_fan))
           (default ∅ (calculate_positions g_fan)) "z"
           (fst (default (0%Q, 0%Q) (default ∅ (calculate_positions g_fan) !! "z")))
           (snd (default (0%Q, 0%Q) (default ∅ (calculate_positions g_fan) !! "z"))));
    vm_compute; reflexivity.
Defined.

(** X11: on a graph without directed cycles whose edges join nodes of the
    graph and that has fewer than [max_level_depth] nodes and edges in
    total, both ends of every edge are placed, the target at least
    [x_spacing] to the right of the source. *)
Theorem calculate_positions_edges_rightward (g : LineageGraph) :
  List.length (nodes g) + List.length (edges g) < max_level_depth → ranked (edges g) → edges_closed g →
  ∃ pos, calculate_positions g = Some pos ∧
    ∀ e, e ∈ edges g → ∃ xs ys xt yt,
      pos !! source e = Some (xs, ys) ∧ pos !! target e = Some (xt, yt) ∧ (xs + x_spacing <= xt)%Q.
Proof. apply calculate_positions_rightward. Qed.

Lemma calculate_positions_edges_rightward_witness :
  ∃ pos, calculate_positions g_fan = Some pos ∧
    ∀ e, e ∈ edges g_fan → ∃ xs ys xt yt,
      pos !! source e = Some (xs, ys) ∧ pos !! target e = Some (xt, yt) ∧ (xs + x_spacing <= xt)%Q.
Proof.
  apply calculate_positions_edges_rightward; [exact g_fan_small | exact g_fan_ranked|].
  assert (H : Forall (fun e => source e ∈ node_keys g_fan ∧ target e ∈ node_keys g_fan) (edges g_fan)).
  { apply (bool_decide_eq_true_1
      (Forall (fun e => source e ∈ node_keys g_fan ∧ target e ∈ node_keys g_fan) (edges g_fan))).
    vm_compute. reflexivity. }
  rewrite Forall_forall in H. exact H.
Defined.


(** X12: [get_connected_subgraph] returns a set containing the selected
    node and every node reachable from it along edges, and only nodes that
    are downstream or upstream of it. *)
Theorem get_connected_subgraph_downstream (g : LineageGraph) (selected_id : string) :
  ∃ connected, get_connected_subgraph g selected_id = Some connected ∧
    selected_id ∈ connected ∧
    (∀ x, freach (edges g) selected_id x → x ∈ connected) ∧
    (∀ x, x ∈ connected → freach (edges g) selected_id x ∨ freach (edges g) x selected_id).
Proof.
  destruct (get_connected_subgraph_core g selected_id) as (R & H1 & H2 & H3 & H4 & _).
  exists R. done.
Qed.

(** X13: on a graph without directed cycles, [get_connected_subgraph]
    returns exactly the selected node, its descendants and its ancestors. *)
Theorem get_connected_subgraph_acyclic (g : LineageGraph) (selected_id : string) :
  ranked (edges g) →
  ∃ connected, get_connected_subgraph g selected_id = Some connected ∧
    ∀ x, x ∈ connected ↔ freach (edges g) selected_id x ∨ freach (edges g) x selected_id.
Proof.
  intros Hr. destruct (get_connected_subgraph_core g selected_id) as (R & H1 & H2 & H3 & H4 & H5).
  exists R. split; [done|]. intros x. split; [apply H4|].
  intros [Hx | Hx]; [by apply H3|by apply H5].
Qed.

Lemma get_connected_subgraph_acyclic_witness :
  ∃ connected, get_connected_subgraph g_fan "x" = Some connected ∧
    ∀ x, x ∈ connected ↔ freach (edges g_fan) "x" x ∨ freach (edges g_fan) x "x".
Proof. apply get_connected_subgraph_acyclic. exact g_fan_ranked. Defined.
(** X14: the badge label of a node of the flow state built by
    [_build_flow_state] is [Mat. View] exactly when the node is a
    materialized view; it is [Implicit] only for a target table whose node
    has engine [implicit]; and it is [Source] exactly when the node is
    neither a materialized view nor a target. *)
Theorem flow_node_label (g : LineageGraph) (positions : Positions) (ev : gset string)
    (connected : option (gset string)) (hl : option string) (fnode : FlowNode) :
  fnode ∈ (_build_flow_state g positions ev connected hl).1 →
  (fn_label fnode = "Mat. View" ↔ fn_id fnode ∈ mv_names g) ∧
  (fn_label fnode = "Implicit" →
     fn_id fnode ∈ target_names g ∧ (∃ n, dict_get (fn_id fnode) (nodes g) = Some n ∧ engine n = "implicit")) ∧
  (fn_label fnode = "Source" ↔ ((fn_id fnode ∉ mv_names g) ∧ (fn_id fnode ∉ target_names g))).
Proof.
  rewrite flow_nodes_elem. intros (k & node & _ & ->). unfold flow_node. cbn [fn_label fn_id].
  unfold _resolve_engine. case_decide as Hmv; [|case_decide as Ht].
  - simpl. split_and!; [done|discriminate|]. split; [discriminate|]. by intros [? _].
  - destruct (dict_get k (nodes g)) as [n|] eqn:En; [destruct (String.eqb_spec (engine n) "implicit")|].
    + simpl. split_and!; [split; [discriminate|done]| |].
      * intros _. split; [done|]. by exists n.
      * split; [discriminate|]. by intros [_ ?].
    + simpl. split_and!; [split; [discriminate|done]|discriminate|].
      split; [discriminate|]. by intros [_ ?].
    + simpl. split_and!; [split; [discriminate|done]|discriminate|].
      split; [discriminate|]. by intros [_ ?].
  - simpl. split_and!; [split; [discriminate|done]|discriminate|]. done.
Qed.

Lemma flow_node_label_witness :
  ∃ fnode, fnode ∈ (_build_flow_state g_fan ∅ ∅ None None).1 ∧
  (fn_label fnode = "Mat. View" ↔ fn_id fnode ∈ mv_names g_fan) ∧
  (fn_label fnode = "Implicit" →
     fn_id fnode ∈ target_names g_fan ∧ (∃ n, dict_get (fn_id fnode) (nodes g_fan) = Some n ∧ engine n = "implicit")) ∧
  (fn_label fnode = "Source" ↔ ((fn_id fnode ∉ mv_names g_fan) ∧ (fn_id fnode ∉ target_names g_fan))).
Proof.
  set (fnode := flow_node g_fan ∅ ∅ None None "a" (new_TableNode "d" "a" "Source" "")).
  assert (Hf : fnode ∈ (_build_flow_state g_fan ∅ ∅ None None).1) by (vm_compute; left).
  exists fnode. split; [exact Hf|]. exact (flow_node_label g_fan ∅ ∅ None None fnode Hf).
Defined.

(** X15: the name shown on a node of the flow state is at most 35
    characters long: the node's name itself when it fits, otherwise its first
    32 characters followed by three dots. *)
Theorem flow_node_display_name g positions ev connected hl fnode :
  fnode ∈ (_build_flow_state g positions ev connected hl).1 →
  ∃ node, (fn_id fnode, node) ∈ nodes g ∧
    String.length (fn_name fnode) ≤ 35 ∧
    (String.length (name node) ≤ 35 → fn_name fnode = name node) ∧
    (35 < String.length (name node) → ∃ pre, fn_name fnode = pre +:+ "..." ∧
       String.length pre = 32 ∧ String.prefix pre (name node) = true).
Proof.
  rewrite flow_nodes_elem. intros (k & node & Hk & ->). exists node.
  cbn [fn_id fn_name flow_node]. split; [done|]. apply display_name_spec.
Qed.

Lemma flow_node_display_name_witness :
  ∃ fnode node, fnode ∈ (_build_flow_state g_long ∅ ∅ None None).1 ∧
    (fn_id fnode, node) ∈ nodes g_long ∧
    String.length (fn_name fnode) ≤ 35 ∧
    (String.length (name node) ≤ 35 → fn_name fnode = name node) ∧
    (35 < String.length (name node) → ∃ pre, fn_name fnode = pre +:+ "..." ∧
       String.length pre = 32 ∧ String.prefix pre (name node) = true).
Proof.
  set (fnode := flow_node g_long ∅ ∅ None None "a_table_name_that_is_longer_than_35_chars"
                  (new_TableNode "d" "a_table_name_that_is_longer_than_35_chars" "Source" "")).
  assert (Hf : fnode ∈ (_build_flow_state g_long ∅ ∅ None None).1) by (vm_compute; left).
  destruct (flow_node_display_name g_long ∅ ∅ None None fnode Hf) as [node Hn].
  exists fnode, node. split; [exact Hf|exact Hn].
Defined.

(** X16: when a connected set is given, a node outside it is dimmed
    (opacity 0.15, no box shadow) and never shows the error border; a node
    inside it, or any node when no set is given, has no opacity entry, and
    if it is in [error_views] it shows the red error border and shadow. *)
Theorem flow_node_dimming g positions ev connected hl fnode :
  fnode ∈ (_build_flow_state g positions ev connected hl).1 →
  (∀ c, connected = Some c → fn_id fnode ∉ c →
     dict_get "opacity" (fn_style fnode) = Some "0.15" ∧
     dict_get "boxShadow" (fn_style fnode) = Some "none" ∧
     dict_get "border" (fn_style fnode) ≠ Some error_border) ∧
  ((∀ c, connected = Some c → fn_id fnode ∈ c) →
     dict_get "opacity" (fn_style fnode) = None ∧
     (fn_id fnode ∈ ev → dict_get "border" (fn_style fnode) = Some error_border ∧
                          dict_get "boxShadow" (fn_style fnode) = Some error_shadow)).
Proof.
  rewrite flow_nodes_elem. intros (k & node & _ & ->). apply node_style_spec.
Qed.

Lemma flow_node_dimming_witness :
  ∃ fnode, fnode ∈ (_build_flow_state g_fan ∅ {["a"]} (Some ({["a"; "x"]} : gset string)) (Some "a")).1 ∧
  (∀ c, Some ({["a"; "x"]} : gset string) = Some c → fn_id fnode ∉ c →
     dict_get "opacity" (fn_style fnode) = Some "0.15" ∧
     dict_get "boxShadow" (fn_style fnode) = Some "none" ∧
     dict_get "border" (fn_style fnode) ≠ Some error_border) ∧
  ((∀ c, Some ({["a"; "x"]} : gset string) = Some c → fn_id fnode ∈ c) →
     dict_get "opacity" (fn_style fnode) = None ∧
     (fn_id fnode ∈ ({["a"]} : gset string) → dict_get "border" (fn_style fnode) = Some error_border ∧
                          dict_get "boxShadow" (fn_style fnode) = Some error_shadow)).
Proof.
  set (fnode := flow_node g_fan ∅ {["a"]} (Some ({["a"; "x"]} : gset string)) (Some "a") "b"
                  (new_TableNode "d" "b" "Source" "")).
  assert (Hf : fnode ∈ (_build_flow_state g_fan ∅ {["a"]} (Some ({["a"; "x"]} : gset string)) (Some "a")).1)
    by (vm_compute; right; left).
  exists fnode. split; [exact Hf|].
  exact (flow_node_dimming g_fan ∅ {["a"]} (Some ({["a"; "x"]} : gset string)) (Some "a") fnode Hf).
Defined.



(** X17: every edge of the flow state comes from an edge of the graph with
    the same ends; it is animated exactly when both ends are in the
    connected set (always when none is given); a dimmed edge has opacity
    0.08 and stroke width 1, an animated one no opacity and stroke width
    1.5; its stroke is its colour, which is the view colour exactly when the
    source is a materialized view. *)
Theorem flow_edge_dimming g positions ev connected hl fe :
  fe ∈ (_build_flow_state g positions ev connected hl).2 →
  ∃ e, e ∈ edges g ∧ fe_source fe = source e ∧ fe_target fe = target e ∧
  (fe_animated fe = true ↔ ∀ c, connected = Some c → source e ∈ c ∧ target e ∈ c) ∧
  (fe_animated fe = false →
     dict_get "opacity" (fe_style fe) = Some "0.08" ∧ dict_get "strokeWidth" (fe_style fe) = Some "1") ∧
  (fe_animated fe = true →
     dict_get "opacity" (fe_style fe) = None ∧ dict_get "strokeWidth" (fe_style fe) = Some "1.5") ∧
  dict_get "stroke" (fe_style fe) = Some (fe_color fe) ∧
  (fe_color fe = "#E51745" ↔ source e ∈ mv_names g).
Proof.
  unfold _build_flow_state. cbn [snd]. intros Hfe.
  destruct (flow_edges_elem g connected (edges g) 0 fe Hfe) as (j & e & He & ->).
  exists e. split; [done|]. apply flow_edge_style_spec.
Qed.

Lemma flow_edge_dimming_witness :
  ∃ fe, fe ∈ (_build_flow_state g_fan ∅ ∅ (Some ({["a"; "x"]} : gset string)) None).2 ∧
  ∃ e, e ∈ edges g_fan ∧ fe_source fe = source e ∧ fe_target fe = target e ∧
  (fe_animated fe = true ↔ ∀ c, Some ({["a"; "x"]} : gset string) = Some c → source e ∈ c ∧ target e ∈ c) ∧
  (fe_animated fe = false →
     dict_get "opacity" (fe_style fe) = Some "0.08" ∧ dict_get "strokeWidth" (fe_style fe) = Some "1") ∧
  (fe_animated fe = true →
     dict_get "opacity" (fe_style fe) = None ∧ dict_get "strokeWidth" (fe_style fe) = Some "1.5") ∧
  dict_get "stroke" (fe_style fe) = Some (fe_color fe) ∧
  (fe_color fe = "#E51745" ↔ source e ∈ mv_names g_fan).
Proof.
  set (fe := flow_edge g_fan (Some ({["a"; "x"]} : gset string)) 1
               {| source := "b"; target := "y"; mv_name := "y" |}).
  assert (Hf : fe ∈ (_build_flow_state g_fan ∅ ∅ (Some ({["a"; "x"]} : gset string)) None).2)
    by (vm_compute; right; left).
  exists fe. split; [exact Hf|].
  exact (flow_edge_dimming g_fan ∅ ∅ (Some ({["a"; "x"]} : gset string)) None fe Hf).
Defined.

(** X18: [render_lineage_graph] keeps a highlight that is a non-empty node
    name, and only such a highlight. Without a highlight no node is dimmed
    and every edge is animated; with one, every node downstream of it is
    undimmed, every undimmed node is downstream or upstream of it (upstream
    nodes too are undimmed when the graph has no cycle), and every edge
    leaving a downstream node is animated. *)
Theorem render_flow_state_highlight g ev cached highlight hl ns es :
  render_flow_state g ev cached highlight = Some (hl, (ns, es)) →
  (∀ h, highlight = Some h → h ≠ "" → h ∈ node_keys g → hl = Some h) ∧
  (hl = None →
     (∀ fnode, fnode ∈ ns → dict_get "opacity" (fn_style fnode) = None) ∧
     (∀ fe, fe ∈ es → fe_animated fe = true)) ∧
  (∀ h, hl = Some h →
     highlight = Some h ∧ h ≠ "" ∧ h ∈ node_keys g ∧
     (∀ fnode, fnode ∈ ns →
        (freach (edges g) h (fn_id fnode) → dict_get "opacity" (fn_style fnode) = None) ∧
        (dict_get "opacity" (fn_style fnode) = None →
           freach (edges g) h (fn_id fnode) ∨ freach (edges g) (fn_id fnode) h) ∧
        (ranked (edges g) → freach (edges g) (fn_id fnode) h →
           dict_get "opacity" (fn_style fnode) = None)) ∧
     (∀ fe, fe ∈ es → freach (edges g) h (fe_source fe) → fe_animated fe = true)).
Proof.
  intros E. pose proof E as E'.
  apply render_flow_state_spec in E as (connected & computed & _ & Hb & Hcase).
  set (P := fold_left _ _ _) in Hb.
  assert (Hns : ∀ fnode, fnode ∈ ns → ∃ k node, fnode = flow_node g P ev connected hl k node).
  { intros fnode Hf. assert (Hf' : fnode ∈ (_build_flow_state g P ev connected hl).1) by (by rewrite <- Hb).
    apply flow_nodes_elem in Hf' as (k & node & _ & ->). eauto. }
  assert (Hes : ∀ fe, fe ∈ es → ∃ j e, e ∈ edges g ∧ fe = flow_edge g connected j e).
  { intros fe Hf. assert (Hf' : fe ∈ (_build_flow_state g P ev connected hl).2) by (by rewrite <- Hb).
    unfold _build_flow_state in Hf'. cbn [snd] in Hf'. by apply flow_edges_elem in Hf'. }
  split_and!.
  - intros h -> Hne Hk. by apply (render_flow_state_kept g ev cached h Hne Hk _ ns es).
  - intros ->. destruct Hcase as [[_ ->] | (h & c & [=] & _)]. split.
    + intros fnode Hf. destruct (Hns fnode Hf) as (k & node & ->).
      apply (node_style_spec g P ev None None k node). by intros c [=].
    + intros fe Hf. destruct (Hes fe Hf) as (j & e & _ & ->).
      apply (flow_edge_style_spec g None j e). by intros c [=].
  - intros h ->. destruct Hcase as [[[=] _] | (h' & c & [= <-] & Hh & Hne & Hk & Hc & ->)].
    destruct (get_connected_subgraph_core g h) as (R & HR & _ & Hdown & Hrel & Hup).
    rewrite HR in Hc. injection Hc as <-.
    split_and!; [done|done|done| |].
    + intros fnode Hf. destruct (Hns fnode Hf) as (k & node & ->). cbn [fn_id flow_node].
      destruct (node_style_spec g P ev (Some R) (Some h) k node) as [Hdim Hund].
      assert (Hin : k ∈ R → dict_get "opacity" (fn_style (flow_node g P ev (Some R) (Some h) k node)) = None).
      { intros Hk'. apply Hund. by intros c [= <-]. }
      split_and!.
      * intros Hx. by apply Hin, Hdown.
      * intros Ho. apply Hrel. destruct (decide (k ∈ R)) as [Hk'|Hk']; [done|].
        destruct (Hdim R eq_refl Hk') as [Ho' _]. rewrite Ho in Ho'. discriminate.
      * intros Hr Hx. by apply Hin, Hup.
    + intros fe Hf Hs. destruct (Hes fe Hf) as (j & e & He & ->).
      destruct (flow_edge_style_spec g (Some R) j e) as (Hsrc & _ & Han & _).
      rewrite Hsrc in Hs. apply Han. intros c [= <-]. split.
      * by apply Hdown.
      * by apply Hdown, freach_step.
Qed.

Lemma render_flow_state_highlight_witness :
  ∃ hl ns es, render_flow_state g_fan ∅ ∅ (Some "a") = Some (hl, (ns, es)) ∧
  (∀ h, Some "a" = Some h → h ≠ "" → h ∈ node_keys g_fan → hl = Some h) ∧
  (hl = None →
     (∀ fnode, fnode ∈ ns → dict_get "opacity" (fn_style fnode) = None) ∧
     (∀ fe, fe ∈ es → fe_animated fe = true)) ∧
  (∀ h, hl = Some h →
     Some "a" = Some h ∧ h ≠ "" ∧ h ∈ node_keys g_fan ∧
     (∀ fnode, fnode ∈ ns →
        (freach (edges g_fan) h (fn_id fnode) → dict_get "opacity" (fn_style fnode) = None) ∧
        (dict_get "opacity" (fn_style fnode) = None →
           freach (edges g_fan) h (fn_id fnode) ∨ freach (edges g_fan) (fn_id fnode) h) ∧
        (ranked (edges g_fan) → freach (edges g_fan) (fn_id fnode) h →
           dict_get "opacity" (fn_style fnode) = None)) ∧
     (∀ fe, fe ∈ es → freach (edges g_fan) h (fe_source fe) → fe_animated fe = true)).
Proof.
  destruct (render_flow_state g_fan ∅ ∅ (Some "a")) as [[hl [ns es]]|] eqn:E.
  - exists hl, ns, es. split; [reflexivity|]. exact (render_flow_state_highlight g_fan ∅ ∅ (Some "a") hl ns es E).
  - exfalso. vm_compute in E. discriminate.
Defined.

(** X19: on a graph whose edges join its nodes and that has fewer than
    [max_level_depth] nodes and edges in total, [render_lineage_graph]
    builds a flow state with one node per graph node in the graph's order
    and one edge per graph edge in order, with ids [e0], [e1], ...; each
    node's position is its cached position if there is one, and otherwise
    the position [calculate_positions] computed for it. *)
Theorem render_flow_state_positions g ev cached highlight :
  List.length (nodes g) + List.length (edges g) < max_level_depth → edges_closed g →
  ∃ hl ns es computed, render_flow_state g ev cached highlight = Some (hl, (ns, es)) ∧
    calculate_positions g = Some computed ∧
    map fn_id ns = node_keys g ∧
    map (fun fe => (fe_source fe, fe_target fe)) es = map (fun e => (source e, target e)) (edges g) ∧
    map fe_index es = seq 0 (List.length (edges g)) ∧
    ∀ fnode, fnode ∈ ns → ∃ p, computed !! fn_id fnode = Some p ∧
      fn_pos fnode = default p (cached !! fn_id fnode).
Proof.
  intros Hsmall Hcl. destruct (render_flow_state_some g ev cached highlight Hsmall Hcl)
    as (hl & ns & es & computed & E & Hc & Hids & Hends & Hpos).
  exists hl, ns, es, computed. split_and!; try done.
  apply render_flow_state_spec in E as (connected & computed' & _ & Hb & _).
  replace es with (_build_flow_state g
        (fold_left (fun m node_id =>
          <[node_id := default (default (0%Q, 0%Q) (computed' !! node_id)) (cached !! node_id)]> m)
        (node_keys g) ∅) ev connected hl).2 by (by rewrite <- Hb).
  apply flow_edges_index.
Qed.





Lemma render_flow_state_positions_witness :
  ∃ hl ns es computed, render_flow_state g_fan ∅ ∅ None = Some (hl, (ns, es)) ∧
    calculate_positions g_fan = Some computed ∧
    map fn_id ns = node_keys g_fan ∧
    map (fun fe => (fe_source fe, fe_target fe)) es = map (fun e => (source e, target e)) (edges g_fan) ∧
    map fe_index es = seq 0 (List.length (edges g_fan)) ∧
    ∀ fnode, fnode ∈ ns → ∃ p, computed !! fn_id fnode = Some p ∧
      fn_pos fnode = default p ((∅ : Positions) !! fn_id fnode).
Proof. apply render_flow_state_positions; [exact g_fan_small | exact g_fan_closed]. Defined.

(** X20: on a graph without directed cycles whose edges join its nodes and
    that has fewer than [max_level_depth] nodes and edges in total, with no
    cached positions, the target of every edge of the rendered flow
    state is drawn at least [x_spacing] to the right of its source. *)
Theorem render_flow_state_rightward g ev highlight :
  List.length (nodes g) + List.length (edges g) < max_level_depth → ranked (edges g) → edges_closed g →
  ∃ hl ns es, render_flow_state g ev ∅ highlight = Some (hl, (ns, es)) ∧
    ∀ fe, fe ∈ es → ∃ ns_ nt, ns_ ∈ ns ∧ nt ∈ ns ∧
      fn_id ns_ = fe_source fe ∧ fn_id nt = fe_target fe ∧
      ((fn_pos ns_).1 + x_spacing <= (fn_pos nt).1)%Q.
Proof.
  intros Hsmall Hr Hcl.
  destruct (render_flow_state_some g ev ∅ highlight Hsmall Hcl)
    as (hl & ns & es & computed & E & Hc & Hids & Hends & Hpos).
  destruct (calculate_positions_rightward g Hsmall Hr Hcl) as (pos & Hc' & Hright).
  rewrite Hc in Hc'. injection Hc' as <-.
  exists hl, ns, es. split; [done|]. intros fe Hfe.
  assert (Hst : (fe_source fe, fe_target fe) ∈ map (fun e => (source e, target e)) (edges g)).
  { rewrite <- Hends. apply LayoutFacts.elem_of_map. by exists fe. }
  apply LayoutFacts.elem_of_map in Hst as (e & [= Hs Ht] & He).
  destruct (Hright e He) as (xs & ys & xt & yt & Hxs & Hxt & Hle).
  destruct (Hcl e He) as [Hks Hkt].
  rewrite <- Hids in Hks, Hkt.
  apply LayoutFacts.elem_of_map in Hks as (ns_ & Hids_ & Hns_).
  apply LayoutFacts.elem_of_map in Hkt as (nt & Hidt & Hnt).
  exists ns_, nt. split_and!; try done; try congruence.
  destruct (Hpos ns_ Hns_) as (ps & Hps & Hpos_). destruct (Hpos nt Hnt) as (pt & Hpt & Hpost).
  rewrite lookup_empty in Hpos_, Hpost. cbn [default] in Hpos_, Hpost.
  rewrite Hpos_, Hpost. rewrite <- Hids_, Hxs in Hps. rewrite <- Hidt, Hxt in Hpt.
  injection Hps as <-. injection Hpt as <-. exact Hle.
Qed.

Lemma render_flow_state_rightward_witness :
  ∃ hl ns es, render_flow_state g_fan ∅ ∅ (Some "b") = Some (hl, (ns, es)) ∧
    ∀ fe, fe ∈ es → ∃ ns_ nt, ns_ ∈ ns ∧ nt ∈ ns ∧
      fn_id ns_ = fe_source fe ∧ fn_id nt = fe_target fe ∧
      ((fn_pos ns_).1 + x_spacing <= (fn_pos nt).1)%Q.
Proof. apply render_flow_state_rightward; [exact g_fan_small | exact g_fan_ranked | exact g_fan_closed]. Defined.

End Extras.
